(** * calcurse key bindings (src/keys.c): a shallow embedding

    The C module keeps four global tables: [keys] (per virtual key, the list
    of key names bound to it), [actions] and [actions_ext] (per key code, the
    virtual key it is bound to) and [keynames] (the cached key names).  The
    embedding threads them as one record through every operation.  Accesses
    outside an array and [strcmp] on a null pointer are undefined behaviour in
    C; they are made explicit here as the outcome [Fault]. *)

From Stdlib Require Import ZArith Lia Ascii String.
From stdpp Require Import base tactics option list sets strings.

Local Set Warnings "-clear-no-such-hyp".

Local Open Scope Z_scope.

(** ** Outcomes of a C call *)

Inductive result (A : Type) : Type :=
  | Ok (a : A)      (* normal return *)
  | Exit            (* EXIT_IF fired: the process ends with a fatal message *)
  | Fault           (* undefined behaviour: array index out of range, NULL read *)
  | OutOfFuel.      (* the loop budget of the model was too small *)
Arguments Ok {A} a.
Arguments Exit {A}.
Arguments Fault {A}.
Arguments OutOfFuel {A}.

Global Instance result_ret : MRet result := λ A a, Ok a.
Global Instance result_bind : MBind result := λ A B f m,
  match m with
  | Ok a => f a
  | Exit => Exit
  | Fault => Fault
  | OutOfFuel => OutOfFuel
  end.

(** A C array of fixed size: reading or writing outside it is a [Fault]. *)
Definition array_get {A} (a : list A) (i : Z) : result A :=
  if bool_decide (0 ≤ i) then
    match a !! Z.to_nat i with Some x => Ok x | None => Fault end
  else Fault.

Definition array_set {A} (a : list A) (i : Z) (x : A) : result (list A) :=
  if bool_decide (0 ≤ i < Z.of_nat (length a)) then Ok (<[Z.to_nat i := x]> a)
  else Fault.

(** C [int]: 32 bits, two's complement, arithmetic wraps around. *)
Definition int_wrap (z : Z) : Z := (z + 2 ^ 31) mod 2 ^ 32 - 2 ^ 31.

(** ** Bytes and C strings *)

Definition byte_of_ascii (a : ascii) : Z := Z.of_N (N_of_ascii a).
Definition ascii_of_byte (b : Z) : ascii := ascii_of_N (Z.to_N (b mod 256)).

Definition bytes_of_string (s : string) : list Z :=
  byte_of_ascii <$> list_ascii_of_string s.

(** The C string held in a buffer ends before the first NUL byte. *)
Fixpoint c_string (buf : list Z) : string :=
  match buf with
  | [] => EmptyString
  | b :: buf' =>
      if bool_decide (b mod 256 = 0) then EmptyString
      else String (ascii_of_byte b) (c_string buf')
  end.

(** [s[i]] of a NUL-terminated string; past the end the model reads NUL. *)
Definition byte_at (s : list Z) (i : nat) : Z := nth i s 0.

(** ** UTF-8 (utf8.c and calcurse.h are not part of the sources) *)

(** Modelled from the spec: the macro [UTF8_LENGTH] of calcurse.h is missing;
    the spec calls it "the UTF-8 length of the lead byte".  The argument is
    read as an unsigned char. *)
Definition UTF8_LENGTH (ch : Z) : Z :=
  let b := ch mod 256 in
  if bool_decide (0xF0 ≤ b) then 4
  else if bool_decide (0xE0 ≤ b) then 3
  else if bool_decide (0xC0 ≤ b) then 2
  else 1.

(** Modelled from the spec: [utf8_decode] of utf8.c is missing; the spec has
    it "decode them to a codepoint" from the bytes that the lead byte
    announces. *)
Definition utf8_decode (s : list Z) : Z :=
  let b0 := byte_at s 0 in
  let cont i := Z.land (byte_at s i) 0x3f in
  match UTF8_LENGTH b0 with
  | 1 => b0
  | 2 => Z.lor (Z.shiftl (Z.land b0 0x1f) 6) (cont 1%nat)
  | 3 => Z.lor (Z.shiftl (Z.land b0 0x0f) 12)
           (Z.lor (Z.shiftl (cont 1%nat) 6) (cont 2%nat))
  | _ => Z.lor (Z.shiftl (Z.land b0 0x07) 18)
           (Z.lor (Z.shiftl (cont 1%nat) 12)
              (Z.lor (Z.shiftl (cont 2%nat) 6) (cont 3%nat)))
  end.

(** Modelled from the spec: [utf8_encode] of utf8.c is missing; the spec has
    extended codes "re-encode it as UTF-8 text".  The result is the byte
    buffer; code points past U+10FFFF have no encoding. *)
Definition utf8_encode (u : Z) : option (list Z) :=
  let cont x := Z.lor 0x80 (Z.land x 0x3f) in
  if bool_decide (u < 0x80) then Some [u]
  else if bool_decide (u < 0x800) then
    Some [Z.lor 0xC0 (Z.shiftr u 6); cont u]
  else if bool_decide (u < 0x10000) then
    Some [Z.lor 0xE0 (Z.shiftr u 12); cont (Z.shiftr u 6); cont u]
  else if bool_decide (u < 0x110000) then
    Some [Z.lor 0xF0 (Z.shiftr u 18); cont (Z.shiftr u 12);
          cont (Z.shiftr u 6); cont u]
  else None.

(** ** The default key bindings *)

Record keydef_s := {
  label : string;      (* Name of the virtual key (action). *)
  binding : string;    (* String of space-separated keynames bound to it. *)
  sb_label : string    (* Display name in the status bar menu. *)
}.

Definition keydef : list keydef_s := [
  {| label := "generic-cancel"; binding := "ESC"; sb_label := "Cancel" |};
  {| label := "generic-select"; binding := "SPC"; sb_label := "Select" |};
  {| label := "generic-credits"; binding := "@"; sb_label := "Credits" |};
  {| label := "generic-help"; binding := "?"; sb_label := "Help" |};
  {| label := "generic-quit"; binding := "q Q"; sb_label := "Quit" |};
  {| label := "generic-save"; binding := "s S ^S"; sb_label := "Save" |};
  {| label := "generic-reload"; binding := "R"; sb_label := "Reload" |};
  {| label := "generic-copy"; binding := "c"; sb_label := "Copy" |};
  {| label := "generic-paste"; binding := "p ^V"; sb_label := "Paste" |};
  {| label := "generic-change-view"; binding := "TAB"; sb_label := "Chg Win" |};
  {| label := "generic-prev-view"; binding := "KEY_BTAB"; sb_label := "Prev Win" |};
  {| label := "generic-import"; binding := "i I"; sb_label := "Import" |};
  {| label := "generic-export"; binding := "x X"; sb_label := "Export" |};
  {| label := "generic-goto"; binding := "g G"; sb_label := "Go to" |};
  {| label := "generic-other-cmd"; binding := "o O"; sb_label := "OtherCmd" |};
  {| label := "generic-config-menu"; binding := "C"; sb_label := "Config" |};
  {| label := "generic-redraw"; binding := "^R"; sb_label := "Redraw" |};
  {| label := "generic-add-appt"; binding := "^A"; sb_label := "Add Appt" |};
  {| label := "generic-add-todo"; binding := "^T"; sb_label := "Add Todo" |};
  {| label := "generic-prev-day"; binding := "T ^H"; sb_label := "-1 Day" |};
  {| label := "generic-next-day"; binding := "t ^L"; sb_label := "+1 Day" |};
  {| label := "generic-prev-week"; binding := "W ^K"; sb_label := "-1 Week" |};
  {| label := "generic-next-week"; binding := "w"; sb_label := "+1 Week" |};
  {| label := "generic-prev-month"; binding := "M"; sb_label := "-1 Month" |};
  {| label := "generic-next-month"; binding := "m"; sb_label := "+1 Month" |};
  {| label := "generic-prev-year"; binding := "Y"; sb_label := "-1 Year" |};
  {| label := "generic-next-year"; binding := "y"; sb_label := "+1 Year" |};
  {| label := "generic-scroll-down"; binding := "^N"; sb_label := "Nxt View" |};
  {| label := "generic-scroll-up"; binding := "^P"; sb_label := "Prv View" |};
  {| label := "generic-goto-today"; binding := "^G"; sb_label := "Today" |};
  {| label := "generic-command"; binding := ":"; sb_label := "Command" |};
  {| label := "move-right"; binding := "l L RGT"; sb_label := "Right" |};
  {| label := "move-left"; binding := "h H LFT"; sb_label := "Left" |};
  {| label := "move-down"; binding := "j J DWN"; sb_label := "Down" |};
  {| label := "move-up"; binding := "k K UP"; sb_label := "Up" |};
  {| label := "start-of-week"; binding := "0"; sb_label := "beg Week" |};
  {| label := "end-of-week"; binding := "$"; sb_label := "end Week" |};
  {| label := "add-item"; binding := "a A"; sb_label := "Add Item" |};
  {| label := "del-item"; binding := "d D"; sb_label := "Del Item" |};
  {| label := "edit-item"; binding := "e E"; sb_label := "Edit Itm" |};
  {| label := "view-item"; binding := "v V RET"; sb_label := "View" |};
  {| label := "pipe-item"; binding := "|"; sb_label := "Pipe" |};
  {| label := "flag-item"; binding := "!"; sb_label := "Flag Itm" |};
  {| label := "repeat"; binding := "r"; sb_label := "Repeat" |};
  {| label := "edit-note"; binding := "n N"; sb_label := "EditNote" |};
  {| label := "view-note"; binding := ">"; sb_label := "ViewNote" |};
  {| label := "raise-priority"; binding := "+"; sb_label := "Prio.+" |};
  {| label := "lower-priority"; binding := "-"; sb_label := "Prio.-" |}
].

(** [keydef] is declared [keydef[NBVKEYS]] and has 48 initialisers: the enum
    constant NBVKEYS counts the virtual keys. *)
Definition NBVKEYS : Z := Z.of_nat (length keydef).

Definition is_vkey (v : Z) : Prop := 0 ≤ v < NBVKEYS.

(** ** What curses.h and calcurse.h provide *)

(** The numbering of key codes and of virtual keys comes from two headers
    that are not part of the sources.  They are parameters of the
    development; [Ncurses.ncurses] below is the instance of ncurses 6 and
    calcurse 4.8. *)
Class Curses := {
  KEY_MIN : Z;            (* first curses pseudo-character *)
  KEY_MAX : Z;            (* upper end of the curses range *)
  KEY_DOWN : Z; KEY_UP : Z; KEY_LEFT : Z; KEY_RIGHT : Z;
  KEY_HOME : Z; KEY_END : Z; KEY_NPAGE : Z; KEY_PPAGE : Z;
  KEY_IC : Z; KEY_DC : Z; KEY_F0 : Z; KEY_RESIZE : Z;
  keyname : Z → option string;   (* curses keyname(); None is NULL *)
  TAB : Z; RETURN : Z; ESCAPE : Z; SPACE : Z;   (* calcurse.h *)
  KEY_UNDEF : Z;          (* enum vkey: the value after NBVKEYS *)
  KEY_MIN_byte : 256 ≤ KEY_MIN;  (* pseudo-characters lie above the bytes *)
  KEY_MIN_MAX : KEY_MIN ≤ KEY_MAX;
  KEY_UNDEF_enum : NBVKEYS ≤ KEY_UNDEF  (* declared after NBVKEYS *)
}.

Definition KEY_F `{Curses} (n : Z) : Z := KEY_F0 + n.

(** curses.h: the value wgetch returns when there is no input. *)
Definition ERR : Z := -1.

(** C character constants. *)
Definition chr (c : ascii) : Z := byte_of_ascii c.
Arguments chr c%_char.

(** ** The tables *)

Record key_ext := { key : Z; action : Z }.

Record table := {
  keys : list (list (option string));  (* keys[NBVKEYS]; None is a NULL name *)
  actions : list Z;                    (* actions[KEY_MAX] *)
  actions_ext : list key_ext;          (* keys above the curses range *)
  keynames : list string               (* keynames[KEY_MAX] *)
}.

Definition set_keys (s : table) (ks : list (list (option string))) : table :=
  {| keys := ks; actions := actions s;
     actions_ext := actions_ext s; keynames := keynames s |}.

Definition set_actions (s : table) (a : list Z) : table :=
  {| keys := keys s; actions := a;
     actions_ext := actions_ext s; keynames := keynames s |}.

Definition set_actions_ext (s : table) (e : list key_ext) : table :=
  {| keys := keys s; actions := actions s;
     actions_ext := e; keynames := keynames s |}.

(** Modelled from the spec: llist.c is missing.  A list is the sequence of
    its items, [LLIST_ADD] appends (the spec: "appends code's name to the
    VirtualKey's forward list"), [LLIST_FIND_FIRST] yields the first item the
    callback accepts, [LLIST_REMOVE] unlinks one item. *)
Definition LLIST_ADD {A} (l : list A) (data : A) : list A := l ++ [data].

Definition key_ext_hasch (cbdata : Z) (k : key_ext) : Prop := key k = cbdata.

Global Instance key_ext_hasch_dec cbdata k : Decision (key_ext_hasch cbdata k).
Proof. unfold key_ext_hasch. apply _. Defined.

Definition LLIST_FIND_FIRST (l : list key_ext) (cbdata : Z) : option (nat * key_ext) :=
  list_find (key_ext_hasch cbdata) l.

(** A [for] loop over the indices [idx], threading the loop state. *)
Fixpoint for_each {S} (idx : list Z) (body : Z → S → result S) (s : S) : result S :=
  match idx with
  | [] => Ok s
  | i :: idx' => s' ← body i s; for_each idx' body s'
  end.

Section Keys.
Context `{Curses}.

Definition short_forms : list (Z * string) := [
  (TAB, "TAB"); (RETURN, "RET"); (ESCAPE, "ESC"); (SPACE, "SPC");
  (KEY_UP, "UP"); (KEY_DOWN, "DWN"); (KEY_LEFT, "LFT"); (KEY_RIGHT, "RGT");
  (KEY_HOME, "HOM"); (KEY_END, "END"); (KEY_NPAGE, "PgD"); (KEY_PPAGE, "PgU");
  (KEY_IC, "INS"); (KEY_DC, "DEL");
  (KEY_F 1, "F1"); (KEY_F 2, "F2"); (KEY_F 3, "F3"); (KEY_F 4, "F4");
  (KEY_F 5, "F5"); (KEY_F 6, "F6"); (KEY_F 7, "F7"); (KEY_F 8, "F8");
  (KEY_F 9, "F9"); (KEY_F 10, "F10"); (KEY_F 11, "F11"); (KEY_F 12, "F12")
].

Definition insert_keyname (i : Z) (kn : list string) : result (list string) :=
  match keyname i with
  | Some cp => array_set kn i cp
  | None => Ok kn
  end.

Fixpoint replace_names (sf : list (Z * string)) (kn : list string) : result (list string) :=
  match sf with
  | [] => Ok kn
  | (i, name) :: sf' => kn' ← array_set kn i name; replace_names sf' kn'
  end.

Definition keys_init : result table :=
  (* All keys unassigned. *)
  let actions0 := replicate (Z.to_nat KEY_MAX) KEY_UNDEF in
  let keys0 := replicate (Z.to_nat NBVKEYS) [] in
  (* Initialization of the keynames table. *)
  let kn0 := replicate (Z.to_nat KEY_MAX) EmptyString in
  (* Insertion of ncurses names in the ASCII range ...  *)
  kn1 ← for_each (seqZ 1 127) insert_keyname kn0;
  (* ... and for the ncurses pseudo-characters. *)
  kn2 ← for_each (seqZ KEY_MIN (KEY_MAX - KEY_MIN)) insert_keyname kn1;
  (* Replace some with calcurse short forms. *)
  kn3 ← replace_names short_forms kn2;
  Ok {| keys := keys0; actions := actions0; actions_ext := []; keynames := kn3 |}.

Definition keys_get_label (key : Z) : result string :=
  if bool_decide (key < 0 ∨ key > NBVKEYS) then Exit
  else d ← array_get keydef key; Ok (label d).

Definition keys_get_binding (key : Z) : result string :=
  if bool_decide (key < 0 ∨ key > NBVKEYS) then Exit
  else d ← array_get keydef key; Ok (binding d).

Definition keys_get_action (s : table) (pressed : Z) : result Z :=
  if bool_decide (pressed < 0) then Ok (-1)
  else if bool_decide (pressed > KEY_MAX) then
    match LLIST_FIND_FIRST (actions_ext s) pressed with
    | None => Ok KEY_UNDEF
    | Some (_, k) => Ok (action k)
    end
  else array_get (actions s) pressed.

(** ** Names of key codes *)

Definition keys_int2str (s : table) (key : Z) : result (option string) :=
  if bool_decide (key = -1) then Ok None
  else if bool_decide (key < KEY_MAX) then
    name ← array_get (keynames s) key;
    if bool_decide (name = EmptyString) then Ok None else Ok (Some name)
  else
    match utf8_encode (key - KEY_MAX) with
    | Some buf => Ok (Some (c_string buf))
    | None => Fault
    end.

(** The two lookup loops of [keys_str2int]: the first index whose cached
    name equals [key]. *)
Fixpoint lookup_keyname (kn : list string) (key : string) (idx : list Z) : result (option Z) :=
  match idx with
  | [] => Ok None
  | i :: idx' =>
      name ← array_get kn i;
      if bool_decide (key = name) then Ok (Some i)
      else lookup_keyname kn key idx'
  end.

Definition keys_str2int (s : table) (key : option string) : result Z :=
  match key with
  | None => Ok (-1)
  | Some key =>
      (* For backwards compatibility. *)
      if bool_decide (key = "^J") then Ok RETURN
      else if bool_decide (key = "KEY_HOME") then Ok KEY_HOME
      else if bool_decide (key = "KEY_END") then Ok KEY_END
      else
        (* Lookup in the keynames table. *)
        r1 ← lookup_keyname (keynames s) key (seqZ 1 127);
        match r1 with
        | Some i => Ok i
        | None =>
            r2 ← lookup_keyname (keynames s) key (seqZ KEY_MIN (KEY_MAX - KEY_MIN));
            match r2 with
            | Some i => Ok i
            | None =>
                (* UTF-8 multibyte keys. *)
                Ok (utf8_decode (bytes_of_string key) + KEY_MAX)
            end
        end
  end.

(** ** Forward lists *)

Definition add_if_undefined (action : Z) (s : table) : result table :=
  l ← array_get (keys s) action;
  (* If list is empty, mark action as UNDEFINED. *)
  match l with
  | [] => ks ← array_set (keys s) action (LLIST_ADD l None); Ok (set_keys s ks)
  | _ :: _ => Ok s
  end.

Definition del_if_undefined (action : Z) (s : table) : result table :=
  l ← array_get (keys s) action;
  (* Action UNDEFINED? *)
  match l with
  | None :: l' => ks ← array_set (keys s) action l'; Ok (set_keys s ks)
  | _ => Ok s
  end.

(** The guard of [add_key_str] and of [del_key_str] compares the value of
    [action]; the properties below take [action] non-negative, where the
    signed and the unsigned reading of [enum vkey] agree. *)
Definition add_key_str (action : Z) (key : Z) (s : table) : result table :=
  if bool_decide (action > NBVKEYS) then Ok s
  else
    s1 ← del_if_undefined action s;
    name ← keys_int2str s1 key;
    l ← array_get (keys s1) action;
    ks ← array_set (keys s1) action (LLIST_ADD l name);
    Ok (set_keys s1 ks).

(** The loop of [del_key_str]: unlink the first item equal to [oldstr].
    [strcmp] reads both of its arguments, so a NULL item or a NULL [oldstr]
    is a fault. *)
Fixpoint llist_del_str (l : list (option string)) (oldstr : option string)
  : result (list (option string)) :=
  match l with
  | [] => Ok []
  | j :: l' =>
      match j, oldstr with
      | Some a, Some b =>
          if bool_decide (a = b) then Ok l'
          else r ← llist_del_str l' oldstr; Ok (j :: r)
      | _, _ => Fault
      end
  end.

Definition del_key_str (action : Z) (key : Z) (s : table) : result table :=
  oldstr ← keys_int2str s key;
  if bool_decide (action > NBVKEYS) then Ok s
  else
    l ← array_get (keys s) action;
    l' ← llist_del_str l oldstr;
    ks ← array_set (keys s) action l';
    add_if_undefined action (set_keys s ks).

(** ** Assigning and removing *)

Definition keys_assign_binding (key : Z) (action : Z) (s : table) : result (Z * table) :=
  if bool_decide (key > KEY_MAX) then
    match LLIST_FIND_FIRST (actions_ext s) key with
    | Some _ => Ok (1, s)
    | None =>
        let k := {| key := key; action := action |} in
        s' ← add_key_str action key (set_actions_ext s (LLIST_ADD (actions_ext s) k));
        Ok (0, s')
    end
  else if bool_decide (key > -1) then
    a ← array_get (actions s) key;
    if bool_decide (a ≠ KEY_UNDEF) then Ok (1, s)
    else
      acts ← array_set (actions s) key action;
      s' ← add_key_str action key (set_actions s acts);
      Ok (0, s')
  else
    s' ← add_key_str action key s; Ok (0, s').

Definition keys_remove_binding (key : Z) (action : Z) (s : table) : result table :=
  if bool_decide (key < 0) then Ok s
  else if bool_decide (key ≤ KEY_MAX) then
    acts ← array_set (actions s) key KEY_UNDEF;
    del_key_str action key (set_actions s acts)
  else
    match LLIST_FIND_FIRST (actions_ext s) key with
    | Some (i, _) =>
        del_key_str action key (set_actions_ext s (delete i (actions_ext s)))
    | None => del_key_str action key s
    end.

(** ** Reading keys *)

(** The terminal is the list of raw input units still to come; [wgetch]
    takes the next one and yields [ERR] when there is none. *)
Definition wgetch (win : list Z) : Z * list Z :=
  match win with
  | [] => (ERR, [])
  | u :: win' => (u, win')
  end.

(** [for (i = 1; i < UTF8_LENGTH(buf[0]); i++) buf[i] = wgetch(win);] with
    [n] iterations left; storing into a [char] keeps the low byte. *)
Fixpoint read_continuation (n : nat) (buf : list Z) (win : list Z) : list Z * list Z :=
  match n with
  | O => (buf, win)
  | S n' =>
      let '(ch, win') := wgetch win in
      read_continuation n' (buf ++ [ch mod 256]) win'
  end.

Definition keys_wgetch (win : list Z) : Z * list Z :=
  let '(ch, win1) := wgetch win in
  if bool_decide (ch = ERR) then (ch, win1)
  (* Handle curses pseudo characters. *)
  else if bool_decide (ch >= KEY_MIN) then (ch, win1)
  (* Handle 1-byte UTF-8 characters. *)
  else if bool_decide (UTF8_LENGTH ch = 1) then (ch, win1)
  else
    (* buf[0] = ch; the other bytes follow. *)
    let buf0 := ch mod 256 in
    let '(buf, win2) :=
      read_continuation (Z.to_nat (UTF8_LENGTH buf0 - 1)) [buf0] win1 in
    (utf8_decode buf + KEY_MAX, win2).

(** The [do ... while] of [keys_get]; [fuel] bounds the iterations. *)
Fixpoint count_loop (fuel : nat) (count ch : Z) (win : list Z) : result (Z * Z * list Z) :=
  match fuel with
  | O => OutOfFuel
  | S fuel' =>
      let count' := int_wrap (count * 10 + ch - chr "0") in
      let '(ch', win') := keys_wgetch win in
      if bool_decide ((ch' = chr "0" ∧ count' > 0) ∨ (ch' >= chr "1" ∧ ch' ≤ chr "9"))
      then count_loop fuel' count' ch' win'
      else Ok (count', ch', win')
  end.

(** The register selected by the key after the double quote. *)
Definition reg_of (ch : Z) : Z :=
  if bool_decide (ch >= chr "1" ∧ ch ≤ chr "9") then ch - chr "1" + 1
  else if bool_decide (ch >= chr "a" ∧ ch ≤ chr "z") then ch - chr "a" + 10
  else 0.

Record keys_get_out := {
  out_vkey : Z;                  (* the returned enum vkey *)
  out_count_reg : option (Z * Z);  (* *count and *reg when both are non-null *)
  out_win : list Z               (* the input left unread *)
}.

(** [prefix] stands for [count && reg]. *)
Definition keys_get (s : table) (prefix : bool) (win : list Z) : result keys_get_out :=
  '(cr, ch, win') ←
    (if prefix then
       '(count, ch, win1) ← count_loop (S (length win)) 0 (chr "0") win;
       let count := if bool_decide (count = 0) then 1 else count in
       if bool_decide (ch = 34) then   (* the double quote *)
         let '(ch1, win2) := keys_wgetch win1 in
         let '(ch2, win3) := keys_wgetch win2 in
         Ok (Some (count, reg_of ch1), ch2, win3)
       else Ok (Some (count, 0), ch, win1)
     else
       let '(ch, win1) := keys_wgetch win in Ok (None, ch, win1));
  if bool_decide (ch = KEY_RESIZE) then
    Ok {| out_vkey := KEY_RESIZE; out_count_reg := cr; out_win := win' |}
  else
    a ← keys_get_action s ch;
    Ok {| out_vkey := a; out_count_reg := cr; out_win := win' |}.

(** ** Missing bindings and the defaults *)

Fixpoint check_missing_loop (s : table) (idx : list Z) : result Z :=
  match idx with
  | [] => Ok 0
  | i :: idx' =>
      l ← array_get (keys s) i;
      match l with
      | [] => Ok 1
      | _ :: _ => check_missing_loop s idx'
      end
  end.

Definition keys_check_missing (s : table) : result Z :=
  check_missing_loop s (seqZ 0 NBVKEYS).

Fixpoint check_undefined_loop (s : table) (idx : list Z) : result Z :=
  match idx with
  | [] => Ok 0
  | i :: idx' =>
      l ← array_get (keys s) i;
      match l with
      | Some _ :: _ => check_undefined_loop s idx'
      | _ => Ok 1
      end
  end.

Definition keys_check_undefined (s : table) : result Z :=
  check_undefined_loop s (seqZ 0 NBVKEYS).

Definition isspace (c : ascii) : bool :=
  bool_decide (byte_of_ascii c = 32 ∨ 9 ≤ byte_of_ascii c ≤ 13).

(** [while ( *p == ' ') p++;] *)
Fixpoint skip_spaces (p : string) : string :=
  match p with
  | String c p' => if bool_decide (c = " "%char) then skip_spaces p' else p
  | EmptyString => p
  end.

Fixpoint skip_white (p : string) : string :=
  match p with
  | String c p' => if isspace c then skip_white p' else p
  | EmptyString => p
  end.

Fixpoint take_word (p : string) : string :=
  match p with
  | String c p' => if isspace c then EmptyString else String c (take_word p')
  | EmptyString => EmptyString
  end.

(** [sscanf(p, "%s", key_ch) == 1]: white space is skipped and the next
    word is stored; at the end of the string nothing is converted. *)
Definition sscanf_s (p : string) : option string :=
  match take_word (skip_white p) with
  | EmptyString => None
  | w => Some w
  end.

Fixpoint advance (n : nat) (p : string) : string :=
  match n, p with
  | S n', String _ p' => advance n' p'
  | _, _ => p
  end.

(** The inner [for (assign = 0;;)] loop of [keys_fill_missing] for action
    [i]: [inl s'] when an assignment was refused, [inr (assign, s')] at the
    [break]. *)
Fixpoint fill_action (fuel : nat) (i : Z) (p : string) (assign : Z) (s : table)
  : result (table + Z * table) :=
  match fuel with
  | O => OutOfFuel
  | S fuel' =>
      let p := skip_spaces p in
      match sscanf_s p with
      | Some key_ch =>
          ch ← keys_str2int s (Some key_ch);
          '(r, s') ← keys_assign_binding ch i s;
          if bool_decide (r ≠ 0) then Ok (inl s')
          else fill_action fuel' i (advance (String.length key_ch) p) 1 s'
      | None => Ok (inr (assign, s))
      end
  end.

Fixpoint fill_missing_loop (idx : list Z) (assigned : Z) (s : table) : result (Z * table) :=
  match idx with
  | [] => Ok (assigned, s)
  | i :: idx' =>
      l ← array_get (keys s) i;
      match l with
      | _ :: _ => fill_missing_loop idx' assigned s
      | [] =>
          d ← array_get keydef i;
          let p := binding d in
          r ← fill_action (S (String.length p)) i p 0 s;
          match r with
          | inl s' => Ok (- i, s')
          | inr (assign, s') => fill_missing_loop idx' (assigned + assign) s'
          end
      end
  end.

Definition keys_fill_missing (s : table) : result (Z * table) :=
  fill_missing_loop (seqZ 0 NBVKEYS) 0 s.

End Keys.

(** ** ncurses 6 and calcurse 4.8 *)

Module Ncurses.

(** The names that ncurses' keyname() gives to the pseudo-characters of
    curses.h other than the function keys, by key code. *)
Definition key_names : list (Z * string) := [
  (257, "KEY_BREAK"); (258, "KEY_DOWN"); (259, "KEY_UP"); (260, "KEY_LEFT");
  (261, "KEY_RIGHT"); (262, "KEY_HOME"); (263, "KEY_BACKSPACE");
  (328, "KEY_DL"); (329, "KEY_IL"); (330, "KEY_DC"); (331, "KEY_IC");
  (332, "KEY_EIC"); (333, "KEY_CLEAR"); (334, "KEY_EOS"); (335, "KEY_EOL");
  (336, "KEY_SF"); (337, "KEY_SR"); (338, "KEY_NPAGE"); (339, "KEY_PPAGE");
  (340, "KEY_STAB"); (341, "KEY_CTAB"); (342, "KEY_CATAB");
  (343, "KEY_ENTER"); (344, "KEY_SRESET"); (345, "KEY_RESET");
  (346, "KEY_PRINT"); (347, "KEY_LL"); (348, "KEY_A1"); (349, "KEY_A3");
  (350, "KEY_B2"); (351, "KEY_C1"); (352, "KEY_C3"); (353, "KEY_BTAB");
  (354, "KEY_BEG"); (355, "KEY_CANCEL"); (356, "KEY_CLOSE");
  (357, "KEY_COMMAND"); (358, "KEY_COPY"); (359, "KEY_CREATE");
  (360, "KEY_END"); (361, "KEY_EXIT"); (362, "KEY_FIND"); (363, "KEY_HELP");
  (364, "KEY_MARK"); (365, "KEY_MESSAGE"); (366, "KEY_MOVE");
  (367, "KEY_NEXT"); (368, "KEY_OPEN"); (369, "KEY_OPTIONS");
  (370, "KEY_PREVIOUS"); (371, "KEY_REDO"); (372, "KEY_REFERENCE");
  (373, "KEY_REFRESH"); (374, "KEY_REPLACE"); (375, "KEY_RESTART");
  (376, "KEY_RESUME"); (377, "KEY_SAVE"); (378, "KEY_SBEG");
  (379, "KEY_SCANCEL"); (380, "KEY_SCOMMAND"); (381, "KEY_SCOPY");
  (382, "KEY_SCREATE"); (383, "KEY_SDC"); (384, "KEY_SDL");
  (385, "KEY_SELECT"); (386, "KEY_SEND"); (387, "KEY_SEOL");
  (388, "KEY_SEXIT"); (389, "KEY_SFIND"); (390, "KEY_SHELP");
  (391, "KEY_SHOME"); (392, "KEY_SIC"); (393, "KEY_SLEFT");
  (394, "KEY_SMESSAGE"); (395, "KEY_SMOVE"); (396, "KEY_SNEXT");
  (397, "KEY_SOPTIONS"); (398, "KEY_SPREVIOUS"); (399, "KEY_SPRINT");
  (400, "KEY_SREDO"); (401, "KEY_SREPLACE"); (402, "KEY_SRIGHT");
  (403, "KEY_SRSUME"); (404, "KEY_SSAVE"); (405, "KEY_SSUSPEND");
  (406, "KEY_SUNDO"); (407, "KEY_SUSPEND"); (408, "KEY_UNDO");
  (409, "KEY_MOUSE"); (410, "KEY_RESIZE")
].

Fixpoint assoc (c : Z) (l : list (Z * string)) : option string :=
  match l with
  | [] => None
  | (c', name) :: l' => if bool_decide (c = c') then Some name else assoc c l'
  end.

Definition digit (n : Z) : ascii := ascii_of_byte (chr "0" + n).

Definition decimal (n : Z) : string :=
  if bool_decide (n < 10) then String (digit n) EmptyString
  else String (digit (n / 10)) (String (digit (n mod 10)) EmptyString).

(** keyname() of ncurses without a terminal description: the name table
    first, [KEY_F(n)] for the 64 function keys, then the printable form of
    a byte (control characters in caret notation, bytes from 128 with the
    meta prefix); NULL for anything else. *)
Definition unctrl (c : Z) : string :=
  if bool_decide (c < 32) then String "^" (String (ascii_of_byte (c + 64)) EmptyString)
  else if bool_decide (c = 127) then "^?"
  else String (ascii_of_byte c) EmptyString.

Definition ncurses_keyname (c : Z) : option string :=
  match assoc c key_names with
  | Some name => Some name
  | None =>
      if bool_decide (264 ≤ c ≤ 264 + 63) then
        Some (String.append "KEY_F(" (String.append (decimal (c - 264)) ")"))
      else if bool_decide (0 ≤ c < 128) then Some (unctrl c)
      else if bool_decide (128 ≤ c < 256) then
        Some (String.append "M-" (unctrl (c - 128)))
      else None
  end.

Global Program Instance ncurses : Curses := {|
  KEY_MIN := 257; KEY_MAX := 511;
  KEY_DOWN := 258; KEY_UP := 259; KEY_LEFT := 260; KEY_RIGHT := 261;
  KEY_HOME := 262; KEY_END := 360; KEY_NPAGE := 338; KEY_PPAGE := 339;
  KEY_IC := 331; KEY_DC := 330; KEY_F0 := 264; KEY_RESIZE := 410;
  keyname := ncurses_keyname;
  TAB := 9; RETURN := 10; ESCAPE := 27; SPACE := 32;
  KEY_UNDEF := 49
|}.
Solve All Obligations with (vm_compute; congruence).

(** The table a run of calcurse holds after some calls, for the examples:
    the table of an [Ok] outcome. *)
Definition no_table : table :=
  {| keys := []; actions := []; actions_ext := []; keynames := [] |}.

Definition table_of (r : result table) : table :=
  match r with
  | Ok s => s
  | _ => no_table
  end.

Definition assigned (key action : Z) (s : table) : table :=
  table_of (r ← keys_assign_binding key action s; Ok r.2).

Definition removed (key action : Z) (s : table) : table :=
  table_of (keys_remove_binding key action s).

(** The table after [keys_init]. *)
Definition started : table := table_of keys_init.

(** The table after [keys_init] and [keys_fill_missing]. *)
Definition filled : table :=
  table_of (r ← keys_fill_missing started; Ok r.2).

End Ncurses.


(** * Vocabulary of the specification *)

(** What [del_if_undefined] and [add_if_undefined] do to one forward list. *)
Definition del_sentinel (l : list (option string)) : list (option string) :=
  match l with
  | None :: l' => l'
  | _ => l
  end.

Definition add_sentinel (l : list (option string)) : list (option string) :=
  match l with
  | [] => [None]
  | _ :: _ => l
  end.

(** Decimal digits typed on the keyboard and the number they spell. *)
Definition digit_units (ds : list Z) : list Z := (λ d, chr "0" + d) <$> ds.

Definition decimal_value (acc : Z) (ds : list Z) : Z :=
  foldl (λ a d, a * 10 + d) acc ds.

(** The units of a register prefix: the double quote and the key [r]. *)
Definition reg_units (q : option Z) : list Z :=
  match q with
  | Some r => [34; r]
  | None => []
  end.

(** A cached key name is plain ASCII when it does not start with a byte of
    a multi-byte character. *)
Definition ascii_name (n : string) : Prop :=
  match n with
  | EmptyString => True
  | String a _ => byte_of_ascii a < 128
  end.

Global Instance ascii_name_dec n : Decision (ascii_name n).
Proof. destruct n; simpl; apply _. Defined.

Global Instance result_eq_dec {A} `{EqDecision A} : EqDecision (result A).
Proof. solve_decision. Defined.

(** The name of [k], when it has one, is read back as [k]. *)
Definition name_round_trip `{Curses} (s : table) (k : Z) : Prop :=
  match keys_int2str s k with
  | Ok (Some name) => keys_str2int s (Some name) = Ok k
  | _ => True
  end.

Global Instance name_round_trip_dec `{Curses} s k : Decision (name_round_trip s k).
Proof.
  unfold name_round_trip.
  destruct (keys_int2str s k) as [[name|]| | |]; apply _.
Defined.

(** The names of a default binding, as the specification has them: "a
    whitespace-separated list of canonical names".  [word] is the name
    being read. *)
Fixpoint split_words (p : string) (word : string) : list string :=
  match p with
  | EmptyString => if bool_decide (word = EmptyString) then [] else [word]
  | String c p' =>
      if isspace c then
        if bool_decide (word = EmptyString) then split_words p' EmptyString
        else word :: split_words p' EmptyString
      else split_words p' (word +:+ String c EmptyString)
  end.

Definition default_names (d : keydef_s) : list string :=
  split_words (binding d) EmptyString.

(** Every name of the default binding of the virtual key [v] is read as a
    key code that is bound to [v]. *)
Definition defaults_bound `{Curses} (s : table) (v : Z) : Prop :=
  match keydef !! Z.to_nat v with
  | Some d =>
      Forall (λ name, keys_str2int s (Some name) ≫= keys_get_action s = Ok v)
        (default_names d)
  | None => False
  end.

Global Instance defaults_bound_dec `{Curses} s v : Decision (defaults_bound s v).
Proof. unfold defaults_bound. destruct (keydef !! Z.to_nat v); apply _. Defined.

(** The key code [k] is unbound, or it carries a name of the default
    binding of the virtual key it is bound to. *)
Definition bound_by_default `{Curses} (s : table) (k : Z) : Prop :=
  match keys_get_action s k with
  | Ok v =>
      v = KEY_UNDEF ∨
      match keydef !! Z.to_nat v, keys_int2str s k with
      | Some d, Ok (Some name) => name ∈ default_names d
      | _, _ => False
      end
  | _ => False
  end.

Global Instance bound_by_default_dec `{Curses} s k : Decision (bound_by_default s k).
Proof.
  unfold bound_by_default.
  destruct (keys_get_action s k) as [v| | |]; try apply _.
  destruct (keydef !! Z.to_nat v); [ | apply _ ].
  destruct (keys_int2str s k) as [[name|]| | |]; apply _.
Defined.

(** ** The reverse map and the forward lists *)

Section Consistency.
Context `{Curses}.

(** The reverse map sends the key code [k] to the virtual key [v]. *)
Definition bound (s : table) (k v : Z) : Prop :=
  keys_get_action s k = Ok v ∧ is_vkey v.

Definition in_reverse_map (s : table) (k : Z) : Prop := ∃ v, bound s k v.

(** The name of the key code [k] is an item of the forward list of the
    virtual key [v]. *)
Definition in_forward_list (s : table) (k v : Z) : Prop :=
  is_vkey v ∧
  ∃ name l, keys_int2str s k = Ok (Some name) ∧
    keys s !! Z.to_nat v = Some l ∧ Some name ∈ l.

(** The invariant of the data model, for one key code. *)
Definition mutually_consistent (s : table) (k : Z) : Prop :=
  in_reverse_map s k ↔ exists! v, in_forward_list s k v.

(** A key code is canonical when it has a name and the name is read back
    as the code. *)
Definition canonical (s : table) (k : Z) : Prop :=
  ∃ name, keys_int2str s k = Ok (Some name) ∧ keys_str2int s (Some name) = Ok k.

(** The three states of a virtual key. *)
Definition missing (s : table) (v : Z) : Prop := keys s !! Z.to_nat v = Some [].
Definition undefined (s : table) (v : Z) : Prop := keys s !! Z.to_nat v = Some [None].
Definition configured (s : table) (v : Z) : Prop :=
  ∃ l, keys s !! Z.to_nat v = Some l ∧ l ≠ [] ∧ None ∉ l.

(** The tables a run goes through when it assigns canonical key codes to
    virtual keys and removes key codes from the virtual key they are bound
    to, as the key configuration menu does. *)
Inductive reachable : table → Prop :=
  | reach_init s : keys_init = Ok s → reachable s
  | reach_assign s k v r s' :
      reachable s → canonical s k → is_vkey v →
      keys_assign_binding k v s = Ok (r, s') → reachable s'
  | reach_remove s k v s' :
      reachable s → 0 ≤ k → bound s k v →
      keys_remove_binding k v s = Ok s' → reachable s'.

(** What holds of every reachable table. *)
Record consistent (s : table) : Prop := {
  cons_lists : ∀ (v : nat) l, keys s !! v = Some l →
    l = [None] ∨ ((None ∉ l) ∧ NoDup l);
  cons_ext_keys : NoDup (key <$> actions_ext s);
  cons_ext_vkey : Forall (λ e, is_vkey (action e)) (actions_ext s);
  cons_bound : ∀ k v, 0 ≤ k → bound s k v → canonical s k;
  cons_agree : ∀ k v name, is_vkey v → canonical s k →
    keys_int2str s k = Ok (Some name) →
    (keys_get_action s k = Ok v ↔
     ∃ l, keys s !! Z.to_nat v = Some l ∧ Some name ∈ l)
}.

End Consistency.


(** * What is shown of a virtual key *)

(** Modelled from the spec: llist.c is missing.  [LLIST_NTH] is the item at
    position [n], counted from 0; there is none past the end. *)
Definition LLIST_NTH {A} (l : list A) (n : Z) : option A := l !! Z.to_nat n.

(** The loop of [keys_action_allkeys]: [string_catf(&keystr, "%s ", data)]
    for every item; printing a NULL with [%s] is a fault. *)
Fixpoint catf_names (l : list (option string)) (keystr : string) : result string :=
  match l with
  | [] => Ok keystr
  | Some name :: l' => catf_names l' (keystr +:+ name +:+ " ")
  | None :: _ => Fault
  end.

Definition keys_action_count_keys (action : Z) (s : table) : result Z :=
  l ← array_get (keys s) action;
  match l with
  | Some _ :: _ => Ok (Z.of_nat (length l))
  | _ => Ok 0    (* Action UNDEFINED? *)
  end.

Definition keys_action_firstkey (action : Z) (s : table) : result string :=
  l ← array_get (keys s) action;
  match l with
  | Some name :: _ => Ok name
  | _ => Ok "XXX"
  end.

Definition keys_action_nkey (action keynum : Z) (s : table) : result (option string) :=
  l ← array_get (keys s) action;
  match LLIST_NTH l keynum with
  | Some data => Ok data
  | None => Ok None
  end.

Definition keys_action_allkeys (action : Z) (s : table) : result string :=
  l ← array_get (keys s) action;
  match l with
  | Some _ :: _ => catf_names l EmptyString
  | _ => Ok "UNDEFINED"
  end.

(** Whether a virtual key is missing can be tested. *)
Global Instance missing_dec (s : table) (v : Z) : Decision (missing s v).
Proof. unfold missing. apply _. Defined.


(** * Properties *)

(** ** The result monad and arrays *)

Lemma bind_Ok {A B} (m : result A) (f : A → result B) (b : B) :
  m ≫= f = Ok b → ∃ a, m = Ok a ∧ f a = Ok b.
Proof. destruct m; simpl; intros; first [ by eauto | discriminate ]. Qed.

Lemma array_get_Ok {A} (a : list A) (i : Z) (x : A) :
  array_get a i = Ok x ↔ 0 ≤ i ∧ a !! Z.to_nat i = Some x.
Proof.
  unfold array_get. case_bool_decide.
  - destruct (a !! Z.to_nat i); split; intros; destruct_and?; simplify_eq; auto.
  - split; [ discriminate | lia ].
Qed.

Lemma array_set_Ok {A} (a a' : list A) (i : Z) (x : A) :
  array_set a i x = Ok a' ↔
  0 ≤ i < Z.of_nat (length a) ∧ a' = <[Z.to_nat i := x]> a.
Proof.
  unfold array_set. case_bool_decide.
  - split; intros; destruct_and?; simplify_eq; auto.
  - split; [ discriminate | tauto ].
Qed.

Lemma array_get_outside {A} (a : list A) (i : Z) :
  Z.of_nat (length a) ≤ i → array_get a i = Fault.
Proof.
  intros Hi. unfold array_get. case_bool_decide; [ | done ].
  rewrite (lookup_ge_None_2 a (Z.to_nat i)); [ done | lia ].
Qed.

Lemma array_set_outside {A} (a : list A) (i : Z) (x : A) :
  Z.of_nat (length a) ≤ i → array_set a i x = Fault.
Proof. intros Hi. unfold array_set. case_bool_decide; [ lia | done ]. Qed.

(** Take apart a hypothesis that a sequence of C statements returned. *)
Ltac inv_ok :=
  repeat match goal with
  | H : _ ≫= _ = Ok _ |- _ =>
      let a := fresh "a" in let Ha := fresh "Ha" in
      apply bind_Ok in H; destruct H as (a & Ha & H)
  | H : Ok _ = Ok _ |- _ => injection H as H; try subst
  | H : Fault = Ok _ |- _ => discriminate H
  | H : Exit = Ok _ |- _ => discriminate H
  | H : OutOfFuel = Ok _ |- _ => discriminate H
  | H : array_get _ _ = Ok _ |- _ => apply array_get_Ok in H; destruct H as [? H]
  | H : array_set _ _ _ = Ok _ |- _ =>
      apply array_set_Ok in H; destruct H as [? H]; try subst
  end.

(** ** Bounds guards *)

(** C10 (the code departs from the specification).  The guard of [keys_get_label]
    and of [keys_get_binding] lets the argument NBVKEYS through, and the read
    of [keydef[NBVKEYS]] that follows is outside the table; every other
    argument is either stopped by the guard or read inside the table. *)
Theorem keys_get_label_guard_off_by_one :
  keys_get_label NBVKEYS = Fault ∧ keys_get_binding NBVKEYS = Fault ∧
  ∀ key, key ≠ NBVKEYS →
    keys_get_label key ≠ Fault ∧ keys_get_binding key ≠ Fault.
Proof.
  split; [ reflexivity | ]. split; [ reflexivity | ].
  intros key Hne. unfold keys_get_label, keys_get_binding.
  case_bool_decide as Hg; [ done | ].
  assert (0 ≤ key < NBVKEYS) as Hr by lia.
  destruct (lookup_lt_is_Some_2 keydef (Z.to_nat key)) as [d Hd].
  { unfold NBVKEYS in Hr. lia. }
  unfold array_get. rewrite bool_decide_true by lia. rewrite Hd. done.
Qed.

Section Guards.
Context `{Curses}.

(** C7 (the code departs from the specification).  The key code KEY_MAX, the first
    of the extended range, is sent to the dense table by lookup, assign and
    remove alike, and [actions[KEY_MAX]] lies outside [actions[KEY_MAX]]. *)
Theorem key_max_indexes_actions (s : table) (v : Z) :
  length (actions s) = Z.to_nat KEY_MAX →
  keys_get_action s KEY_MAX = Fault ∧
  keys_assign_binding KEY_MAX v s = Fault ∧
  keys_remove_binding KEY_MAX v s = Fault.
Proof.
  intros Hlen.
  pose proof KEY_MIN_byte. pose proof KEY_MIN_MAX.
  assert (Z.of_nat (length (actions s)) ≤ KEY_MAX) as Hout by lia.
  unfold keys_get_action, keys_assign_binding, keys_remove_binding.
  rewrite !(bool_decide_false (KEY_MAX < 0)) by lia.
  rewrite !(bool_decide_false (KEY_MAX > KEY_MAX)) by lia.
  rewrite (bool_decide_true (KEY_MAX > -1)) by lia.
  rewrite (bool_decide_true (KEY_MAX ≤ KEY_MAX)) by lia.
  rewrite !array_get_outside, !array_set_outside by done. done.
Qed.

(** Above KEY_MAX the three operations leave the dense table alone. *)
Lemma keys_get_action_ext (s : table) (a : list Z) (k : Z) :
  k > KEY_MAX → keys_get_action (set_actions s a) k = keys_get_action s k.
Proof.
  intros Hk. pose proof KEY_MIN_byte. pose proof KEY_MIN_MAX.
  unfold keys_get_action.
  rewrite !(bool_decide_false (k < 0)), !(bool_decide_true (k > KEY_MAX)) by lia.
  done.
Qed.

End Guards.

Lemma key_max_indexes_actions_witness :
  keys_get_action Ncurses.started 511 = Fault ∧
  keys_assign_binding 511 0 Ncurses.started = Fault ∧
  keys_remove_binding 511 0 Ncurses.started = Fault.
Proof.
  apply (key_max_indexes_actions (H := Ncurses.ncurses)).
  vm_compute. reflexivity.
Defined.

(** ** Forward lists: what the helpers compute *)

Lemma set_keys_id (s : table) : set_keys s (keys s) = s.
Proof. by destruct s. Qed.

Lemma set_actions_id (s : table) : set_actions s (actions s) = s.
Proof. by destruct s. Qed.

Lemma array_get_set {A} (a : list A) (i : Z) (x y : A) :
  array_get a i = Ok y → array_set a i x = Ok (<[Z.to_nat i := x]> a).
Proof.
  intros [Hi Hl]%array_get_Ok. apply array_set_Ok. split; [ | done ].
  apply lookup_lt_Some in Hl. lia.
Qed.

Lemma array_get_insert {A} (a : list A) (i : Z) (x y : A) :
  array_get a i = Ok y → array_get (<[Z.to_nat i := x]> a) i = Ok x.
Proof.
  intros [Hi Hl]%array_get_Ok. apply array_get_Ok. split; [ done | ].
  apply list_lookup_insert_eq. by apply lookup_lt_Some in Hl.
Qed.

Section Forward.
Context `{Curses}.

Lemma keys_int2str_set_keys (s : table) ks k :
  keys_int2str (set_keys s ks) k = keys_int2str s k.
Proof. done. Qed.

Lemma add_key_str_eq (action key : Z) (s : table) :
  add_key_str action key s =
  if bool_decide (action > NBVKEYS) then Ok s
  else
    l ← array_get (keys s) action;
    name ← keys_int2str s key;
    Ok (set_keys s (<[Z.to_nat action := del_sentinel l ++ [name]]> (keys s))).
Proof.
  unfold add_key_str, del_if_undefined. case_bool_decide; [ done | ].
  destruct (array_get (keys s) action) as [l| | |] eqn:Hl; try done. simpl.
  assert (∀ s1 : table, keys s1 = <[Z.to_nat action := del_sentinel l]> (keys s) →
    keynames s1 = keynames s → set_keys s1 = set_keys s →
    (keys_int2str s1 key ≫= λ name, array_get (keys s1) action ≫= λ l0,
       array_set (keys s1) action (LLIST_ADD l0 name) ≫= λ ks, Ok (set_keys s1 ks)) =
    (keys_int2str s key ≫= λ name,
       Ok (set_keys s (<[Z.to_nat action := del_sentinel l ++ [name]]> (keys s)))))
    as Hstep.
  { intros s1 Hk Hn Hs.
    replace (keys_int2str s1 key) with (keys_int2str s key)
      by (unfold keys_int2str; by rewrite Hn).
    destruct (keys_int2str s key) as [name| | |]; try done. simpl.
    rewrite Hk, (array_get_insert _ _ _ _ Hl). simpl.
    rewrite (array_get_set _ _ _ _ (array_get_insert _ _ _ _ Hl)). simpl.
    by rewrite list_insert_insert_eq, Hs. }
  destruct l as [|[n|] l'].
  - apply Hstep; [ | done.. ]. symmetry. apply list_insert_id.
    by apply array_get_Ok in Hl as [_ ?].
  - apply Hstep; [ | done.. ]. symmetry. apply list_insert_id.
    by apply array_get_Ok in Hl as [_ ?].
  - rewrite (array_get_set _ _ _ _ Hl). simpl. by apply Hstep.
Qed.

Lemma add_if_undefined_eq (action : Z) (s : table) :
  add_if_undefined action s =
  l ← array_get (keys s) action;
  Ok (set_keys s (<[Z.to_nat action := add_sentinel l]> (keys s))).
Proof.
  unfold add_if_undefined.
  destruct (array_get (keys s) action) as [l| | |] eqn:Hl; try done. simpl.
  destruct l as [|j l'].
  - by rewrite (array_get_set _ _ _ _ Hl).
  - simpl. rewrite list_insert_id; [ by rewrite set_keys_id | ].
    by apply array_get_Ok in Hl as [_ ?].
Qed.

Lemma del_key_str_eq (action key : Z) (s : table) :
  del_key_str action key s =
  oldstr ← keys_int2str s key;
  if bool_decide (action > NBVKEYS) then Ok s
  else
    l ← array_get (keys s) action;
    l' ← llist_del_str l oldstr;
    Ok (set_keys s (<[Z.to_nat action := add_sentinel l']> (keys s))).
Proof.
  unfold del_key_str.
  destruct (keys_int2str s key) as [oldstr| | |]; try done. simpl.
  case_bool_decide; [ done | ].
  destruct (array_get (keys s) action) as [l| | |] eqn:Hl; try done. simpl.
  destruct (llist_del_str l oldstr) as [l'| | |]; try done. simpl.
  rewrite (array_get_set _ _ _ _ Hl). simpl.
  rewrite add_if_undefined_eq. simpl.
  rewrite (array_get_insert _ _ _ _ Hl). simpl.
  by rewrite list_insert_insert_eq.
Qed.

End Forward.

(** ** Conflicts *)

Section Conflict.
Context `{Curses}.

Lemma add_key_str_fields (action key : Z) (s s' : table) :
  add_key_str action key s = Ok s' →
  actions s' = actions s ∧ actions_ext s' = actions_ext s ∧
  keynames s' = keynames s.
Proof.
  rewrite add_key_str_eq. case_bool_decide; intros Hs; inv_ok; done.
Qed.

Lemma del_key_str_fields (action key : Z) (s s' : table) :
  del_key_str action key s = Ok s' →
  actions s' = actions s ∧ actions_ext s' = actions_ext s ∧
  keynames s' = keynames s.
Proof.
  rewrite del_key_str_eq. intros Hs. inv_ok.
  case_bool_decide; inv_ok; done.
Qed.

Lemma find_first_added (l : list key_ext) (k v : Z) :
  LLIST_FIND_FIRST l k = None →
  LLIST_FIND_FIRST (LLIST_ADD l {| key := k; action := v |}) k =
    Some (length l, {| key := k; action := v |}).
Proof.
  unfold LLIST_FIND_FIRST, LLIST_ADD. intros Hnone.
  rewrite list_find_app_r by done. simpl.
  rewrite decide_True by done. simpl. do 2 f_equal; lia.
Qed.

(** C2.  Once [keys_assign_binding] has bound the key code [k] to the
    virtual key [v1], binding [k] again, to whichever virtual key, is
    refused with the result 1, changes nothing, and [keys_get_action]
    still answers [v1]. *)
Theorem assign_twice_conflict (s s1 : table) (k v1 v2 : Z) :
  0 ≤ k → is_vkey v1 → is_vkey v2 → v1 ≠ v2 →
  keys_assign_binding k v1 s = Ok (0, s1) →
  keys_assign_binding k v2 s1 = Ok (1, s1) ∧ keys_get_action s1 k = Ok v1.
Proof.
  intros Hk Hv1 _ _ Hassign. pose proof KEY_UNDEF_enum as Hundef.
  unfold keys_assign_binding in *. unfold keys_get_action.
  rewrite (bool_decide_false (k < 0)) by lia.
  case_bool_decide as Hext.
  - destruct (LLIST_FIND_FIRST (actions_ext s) k) as [?|] eqn:Hfind; [ done | ].
    inv_ok. apply add_key_str_fields in Ha as (_ & Hext1 & _).
    simpl in Hext1. rewrite Hext1, (find_first_added _ _ _ Hfind). done.
  - rewrite bool_decide_true in Hassign by lia. rewrite bool_decide_true by lia.
    inv_ok. case_bool_decide as Hfree; [ done | ]. inv_ok.
    apply add_key_str_fields in Ha1 as (Hact & _ & _). simpl in Hact.
    rewrite Hact.
    assert (array_get (<[Z.to_nat k := v1]> (actions s)) k = Ok v1) as ->.
    { apply array_get_Ok. split; [ done | ].
      apply list_lookup_insert_eq. lia. }
    simpl. rewrite bool_decide_true; [ done | ].
    unfold is_vkey in Hv1. lia.
Qed.

End Conflict.

Lemma assign_twice_conflict_witness :
  let s := Ncurses.started in
  let s1 := Ncurses.assigned (chr "q") 4 s in
  keys_assign_binding (chr "q") 4 s = Ok (0, s1) ∧
  keys_assign_binding (chr "q") 7 s1 = Ok (1, s1) ∧
  keys_get_action s1 (chr "q") = Ok 4.
Proof.
  intros s s1.
  assert (keys_assign_binding (chr "q") 4 s = Ok (0, s1)) as Hassign
    by (vm_compute; reflexivity).
  split; [ exact Hassign | ].
  apply (assign_twice_conflict (H := Ncurses.ncurses) s s1 (chr "q") 4 7);
    [ vm_compute; congruence | vm_compute; split; congruence
    | vm_compute; split; congruence | lia | exact Hassign ].
Defined.

(** ** The built-in defaults *)

(** After [keys_fill_missing] on the table of [keys_init], the names of
    every default binding are read as key codes bound to its virtual key. *)
Lemma filled_defaults_bound :
  Forall (defaults_bound (H := Ncurses.ncurses) Ncurses.filled) (seqZ 0 NBVKEYS).
Proof. apply (bool_decide_unpack _). vm_compute. exact I. Qed.

(** Every key code of the curses range that is bound after
    [keys_fill_missing] carries a default name of its virtual key. *)
Lemma filled_bound_by_default :
  Forall (bound_by_default (H := Ncurses.ncurses) Ncurses.filled) (seqZ 0 511).
Proof. apply (bool_decide_unpack _). vm_compute. exact I. Qed.

(** C3.  With the key names of ncurses, [keys_init] leaves every virtual key
    without a list, so [keys_check_missing] answers 1; [keys_fill_missing]
    then assigns the defaults of [keydef] without a refusal and returns the
    number of virtual keys.  Afterwards the list of every virtual key holds
    the names of its default binding, all of them and in their order; each
    of these names is read as a key code that [keys_get_action] maps to the
    virtual key; no other key code is bound; and [keys_check_missing]
    answers 0. *)
Theorem fill_missing_defaults :
  keys_init = Ok Ncurses.started ∧
  Forall (λ l, l = []) (keys Ncurses.started) ∧
  keys_check_missing Ncurses.started = Ok 1 ∧
  keys_fill_missing Ncurses.started = Ok (NBVKEYS, Ncurses.filled) ∧
  keys Ncurses.filled = (λ d, Some <$> default_names d) <$> keydef ∧
  Forall (λ l, ∃ name l', l = Some name :: l') (keys Ncurses.filled) ∧
  length (keys Ncurses.filled) = Z.to_nat NBVKEYS ∧
  (∀ v d name, 0 ≤ v → keydef !! Z.to_nat v = Some d → name ∈ default_names d →
     ∃ k, keys_str2int Ncurses.filled (Some name) = Ok k ∧
       keys_get_action Ncurses.filled k = Ok v) ∧
  (∀ k v, 0 ≤ k → keys_get_action Ncurses.filled k = Ok v → v ≠ KEY_UNDEF →
     ∃ d name, keydef !! Z.to_nat v = Some d ∧ name ∈ default_names d ∧
       keys_int2str Ncurses.filled k = Ok (Some name)) ∧
  keys_check_missing Ncurses.filled = Ok 0.
Proof.
  split; [ vm_compute; reflexivity | ].
  split; [ vm_compute; repeat constructor | ].
  split; [ vm_compute; reflexivity | ].
  split; [ vm_compute; reflexivity | ].
  split; [ vm_compute; reflexivity | ].
  split; [ vm_compute; repeat (constructor; [ eexists _, _; reflexivity | ]); constructor | ].
  split; [ vm_compute; reflexivity | ].
  split; [ | split; [ | vm_compute; reflexivity ] ].
  - intros v d name Hv Hd Hname.
    pose proof filled_defaults_bound as Hall. rewrite Forall_forall in Hall.
    assert (v ∈ seqZ 0 NBVKEYS) as Hin.
    { apply elem_of_seqZ. apply lookup_lt_Some in Hd. unfold NBVKEYS. lia. }
    specialize (Hall v Hin). unfold defaults_bound in Hall. rewrite Hd in Hall.
    rewrite Forall_forall in Hall.
    specialize (Hall name Hname). apply bind_Ok in Hall as (k & Hk & Hget).
    by exists k.
  - intros k v Hk Hget Hv.
    change (@KEY_UNDEF Ncurses.ncurses) with 49 in Hv.
    destruct (decide (k < 511)) as [Hlow|Hhigh].
    + pose proof filled_bound_by_default as Hall. rewrite Forall_forall in Hall.
      assert (k ∈ seqZ 0 511) as Hin by (apply elem_of_seqZ; lia).
      specialize (Hall k Hin). unfold bound_by_default in Hall.
      rewrite Hget in Hall. destruct Hall as [->|Hall]; [ done | ].
      destruct (keydef !! Z.to_nat v) as [d|]; [ | done ].
      destruct (keys_int2str Ncurses.filled k) as [[name|]| | |]; try done.
      by exists d, name.
    + exfalso. unfold keys_get_action in Hget.
      rewrite bool_decide_false in Hget by lia.
      change (@KEY_MAX Ncurses.ncurses) with 511 in Hget.
      case_bool_decide as Hext.
      * change (actions_ext Ncurses.filled) with (@nil key_ext) in Hget.
        simpl in Hget. congruence.
      * assert (k = 511) as -> by lia. vm_compute in Hget. discriminate Hget.
Qed.

Lemma fill_missing_defaults_witness :
  (∃ k, keys_str2int (H := Ncurses.ncurses) Ncurses.filled (Some "Q") = Ok k ∧
     keys_get_action (H := Ncurses.ncurses) Ncurses.filled k = Ok 4) ∧
  (∃ d name, keydef !! Z.to_nat 4 = Some d ∧ name ∈ default_names d ∧
     keys_int2str (H := Ncurses.ncurses) Ncurses.filled (chr "q") = Ok (Some name)).
Proof.
  destruct fill_missing_defaults as (_ & _ & _ & _ & _ & _ & _ & Hbound & Honly & _).
  split.
  - apply (Hbound 4 {| label := "generic-quit"; binding := "q Q"; sb_label := "Quit" |} "Q").
    + lia.
    + vm_compute. reflexivity.
    + vm_compute. apply elem_of_cons. right. apply elem_of_cons. by left.
  - apply (Honly (chr "q") 4).
    + vm_compute. congruence.
    + vm_compute. reflexivity.
    + vm_compute. congruence.
Defined.

(** ** UTF-8: bits as arithmetic *)

Lemma lor_high_low (a b n : Z) :
  0 ≤ n → 0 ≤ b < 2 ^ n → Z.lor (a * 2 ^ n) b = a * 2 ^ n + b.
Proof.
  intros Hn Hb.
  assert (Z.land (a * 2 ^ n) b = 0) as Hdisjoint.
  { apply Z.bits_inj'. intros m Hm. rewrite Z.land_spec, Z.bits_0.
    destruct (Z.lt_ge_cases m n) as [Hlt|Hge].
    - by rewrite Z.mul_pow2_bits_low.
    - rewrite <- (Z.mod_small b (2 ^ n)) by done.
      rewrite Z.mod_pow2_bits_high by lia. apply andb_false_r. }
  by rewrite Z.add_nocarry_lxor, Z.lxor_lor.
Qed.

Lemma land_low (x n : Z) : 0 ≤ n → Z.land x (Z.ones n) = x mod 2 ^ n.
Proof. apply Z.land_ones. Qed.

Lemma utf8_cont (x : Z) : Z.lor 0x80 (Z.land x 0x3f) = 128 + x mod 64.
Proof.
  change 0x3f with (Z.ones 6). rewrite land_low by lia.
  change 0x80 with (2 * 2 ^ 6). rewrite lor_high_low; [ done | lia | ].
  apply Z.mod_pos_bound. lia.
Qed.

Lemma utf8_encode_2 (c : Z) :
  0x80 ≤ c < 0x800 → utf8_encode c = Some [192 + c / 64; 128 + c mod 64].
Proof.
  intros Hc. unfold utf8_encode.
  rewrite bool_decide_false, bool_decide_true by lia.
  rewrite utf8_cont, Z.shiftr_div_pow2 by lia. change (2 ^ 6) with 64.
  change 0xC0 with (6 * 2 ^ 5). rewrite lor_high_low; [ done | lia | ].
  change (2 ^ 5) with 32. split; [ apply Z.div_pos | apply Z.div_lt_upper_bound ]; lia.
Qed.

Lemma utf8_encode_3 (c : Z) :
  0x800 ≤ c < 0x10000 →
  utf8_encode c = Some [224 + c / 4096; 128 + (c / 64) mod 64; 128 + c mod 64].
Proof.
  intros Hc. unfold utf8_encode.
  rewrite !bool_decide_false, bool_decide_true by lia.
  rewrite !utf8_cont, !Z.shiftr_div_pow2 by lia.
  change (2 ^ 6) with 64. change (2 ^ 12) with 4096.
  change 0xE0 with (14 * 2 ^ 4). rewrite lor_high_low; [ done | lia | ].
  change (2 ^ 4) with 16. split; [ apply Z.div_pos | apply Z.div_lt_upper_bound ]; lia.
Qed.

Lemma utf8_encode_4 (c : Z) :
  0x10000 ≤ c < 0x110000 →
  utf8_encode c = Some [240 + c / 262144; 128 + (c / 4096) mod 64;
                        128 + (c / 64) mod 64; 128 + c mod 64].
Proof.
  intros Hc. unfold utf8_encode.
  rewrite !bool_decide_false, bool_decide_true by lia.
  rewrite !utf8_cont, !Z.shiftr_div_pow2 by lia.
  change (2 ^ 6) with 64. change (2 ^ 12) with 4096. change (2 ^ 18) with 262144.
  change 0xF0 with (30 * 2 ^ 3). rewrite lor_high_low; [ done | lia | ].
  change (2 ^ 3) with 8. split; [ apply Z.div_pos | apply Z.div_lt_upper_bound ]; lia.
Qed.

Lemma utf8_length_cases (b : Z) :
  0 ≤ b < 256 →
  UTF8_LENGTH b =
    if bool_decide (240 ≤ b) then 4 else if bool_decide (224 ≤ b) then 3
    else if bool_decide (192 ≤ b) then 2 else 1.
Proof. intros Hb. unfold UTF8_LENGTH. by rewrite Z.mod_small. Qed.

Lemma utf8_decode_2 (b0 b1 : Z) :
  192 ≤ b0 < 224 →
  utf8_decode [b0; b1] = (b0 mod 32) * 64 + b1 mod 64.
Proof.
  intros Hb. unfold utf8_decode, byte_at. simpl nth.
  rewrite utf8_length_cases by lia.
  rewrite !bool_decide_false, bool_decide_true by lia.
  change 0x3f with (Z.ones 6). change 0x1f with (Z.ones 5).
  rewrite !land_low, Z.shiftl_mul_pow2 by lia.
  apply lor_high_low; [ lia | ]. apply Z.mod_pos_bound. lia.
Qed.

Lemma utf8_decode_3 (b0 b1 b2 : Z) :
  224 ≤ b0 < 240 →
  utf8_decode [b0; b1; b2] =
    (b0 mod 16) * 4096 + (b1 mod 64) * 64 + b2 mod 64.
Proof.
  intros Hb. unfold utf8_decode, byte_at. simpl nth.
  rewrite utf8_length_cases by lia.
  rewrite !bool_decide_false, bool_decide_true by lia.
  change 0x3f with (Z.ones 6). change 0x0f with (Z.ones 4).
  rewrite !land_low, !Z.shiftl_mul_pow2 by lia.
  pose proof (Z.mod_pos_bound b1 64). pose proof (Z.mod_pos_bound b2 64).
  change (2 ^ 6) with 64 in *.
  rewrite (lor_high_low (b1 mod 64) _ 6) by (change (2 ^ 6) with 64; lia).
  rewrite lor_high_low by (change (2 ^ 12) with 4096; lia).
  change (2 ^ 4) with 16. change (2 ^ 12) with 4096. lia.
Qed.

Lemma utf8_decode_4 (b0 b1 b2 b3 : Z) :
  240 ≤ b0 < 256 →
  utf8_decode [b0; b1; b2; b3] =
    (b0 mod 8) * 262144 + (b1 mod 64) * 4096 + (b2 mod 64) * 64 + b3 mod 64.
Proof.
  intros Hb. unfold utf8_decode, byte_at. simpl nth.
  rewrite utf8_length_cases by lia.
  rewrite bool_decide_true by lia.
  change 0x3f with (Z.ones 6). change 0x07 with (Z.ones 3).
  rewrite !land_low, !Z.shiftl_mul_pow2 by lia.
  pose proof (Z.mod_pos_bound b1 64). pose proof (Z.mod_pos_bound b2 64).
  pose proof (Z.mod_pos_bound b3 64).
  change (2 ^ 6) with 64 in *.
  rewrite (lor_high_low (b2 mod 64) _ 6) by (change (2 ^ 6) with 64; lia).
  rewrite (lor_high_low (b1 mod 64) _ 12) by (change (2 ^ 12) with 4096; lia).
  rewrite lor_high_low by (change (2 ^ 12) with 4096; change (2 ^ 18) with 262144; lia).
  change (2 ^ 3) with 8. change (2 ^ 12) with 4096. change (2 ^ 18) with 262144. lia.
Qed.

Lemma mod_offset (k m x : Z) : 0 ≤ x < m → (k * m + x) mod m = x.
Proof.
  intros Hx. rewrite Z.add_comm, Z.mod_add by lia. by apply Z.mod_small.
Qed.

(** ** Reading one key *)

Section Reader.
Context `{Curses}.

Lemma keys_wgetch_lead (b0 : Z) (win : list Z) :
  192 ≤ b0 < 256 →
  keys_wgetch (b0 :: win) =
    let '(buf, win2) :=
      read_continuation (Z.to_nat (UTF8_LENGTH b0 - 1)) [b0] win in
    (utf8_decode buf + KEY_MAX, win2).
Proof.
  intros Hb. pose proof KEY_MIN_byte. unfold keys_wgetch, wgetch, ERR.
  rewrite !bool_decide_false; [ by rewrite Z.mod_small by lia | | lia | lia ].
  rewrite utf8_length_cases by lia. repeat case_bool_decide; lia.
Qed.

Lemma keys_wgetch_2 (b0 b1 : Z) (win : list Z) :
  192 ≤ b0 < 224 → 0 ≤ b1 < 256 →
  keys_wgetch (b0 :: b1 :: win) = (b0 mod 32 * 64 + b1 mod 64 + KEY_MAX, win).
Proof.
  intros Hb0 Hb1. rewrite keys_wgetch_lead, utf8_length_cases by lia.
  rewrite !bool_decide_false, bool_decide_true by lia. simpl.
  by rewrite (Z.mod_small b1), utf8_decode_2 by lia.
Qed.

Lemma keys_wgetch_3 (b0 b1 b2 : Z) (win : list Z) :
  224 ≤ b0 < 240 → 0 ≤ b1 < 256 → 0 ≤ b2 < 256 →
  keys_wgetch (b0 :: b1 :: b2 :: win) =
    (b0 mod 16 * 4096 + b1 mod 64 * 64 + b2 mod 64 + KEY_MAX, win).
Proof.
  intros Hb0 Hb1 Hb2. rewrite keys_wgetch_lead, utf8_length_cases by lia.
  rewrite !bool_decide_false, bool_decide_true by lia. simpl.
  by rewrite (Z.mod_small b1), (Z.mod_small b2), utf8_decode_3 by lia.
Qed.

Lemma keys_wgetch_4 (b0 b1 b2 b3 : Z) (win : list Z) :
  240 ≤ b0 < 256 → 0 ≤ b1 < 256 → 0 ≤ b2 < 256 → 0 ≤ b3 < 256 →
  keys_wgetch (b0 :: b1 :: b2 :: b3 :: win) =
    (b0 mod 8 * 262144 + b1 mod 64 * 4096 + b2 mod 64 * 64 + b3 mod 64 + KEY_MAX,
     win).
Proof.
  intros Hb0 Hb1 Hb2 Hb3. rewrite keys_wgetch_lead, utf8_length_cases by lia.
  rewrite bool_decide_true by lia. simpl.
  by rewrite (Z.mod_small b1), (Z.mod_small b2), (Z.mod_small b3),
    utf8_decode_4 by lia.
Qed.

Lemma keys_wgetch_single (u : Z) (win : list Z) :
  UTF8_LENGTH u = 1 → keys_wgetch (u :: win) = (u, win).
Proof. intros Hu. unfold keys_wgetch, wgetch. repeat case_bool_decide; done. Qed.

(** C8.  The bytes of the UTF-8 encoding of a multi-byte code point [c],
    read one by one, make [keys_wgetch] return [c + KEY_MAX] and leave the
    rest of the input; a pseudo-character and a unit of UTF-8 length 1 are
    returned as they are, after one read. *)
Theorem keys_wgetch_decodes :
  (∀ c bytes win, 0x80 ≤ c < 0x110000 → utf8_encode c = Some bytes →
     keys_wgetch (bytes ++ win) = (c + KEY_MAX, win)) ∧
  (∀ u win, u >= KEY_MIN → keys_wgetch (u :: win) = (u, win)) ∧
  (∀ u win, UTF8_LENGTH u = 1 → keys_wgetch (u :: win) = (u, win)).
Proof.
  split; [ | split ].
  - intros c bytes win Hc Henc.
    pose proof (Z.mod_pos_bound c 64). pose proof (Z.mod_pos_bound (c / 64) 64).
    pose proof (Z.mod_pos_bound (c / 4096) 64).
    assert (c / 64 / 64 = c / 4096) as Hdd by (rewrite Z.div_div by lia; done).
    assert (c / 4096 / 64 = c / 262144) as Hdd' by (rewrite Z.div_div by lia; done).
    pose proof (Z.div_mod c 64). pose proof (Z.div_mod (c / 64) 64).
    pose proof (Z.div_mod (c / 4096) 64).
    destruct (decide (c < 0x800)); [ | destruct (decide (c < 0x10000)) ].
    + rewrite utf8_encode_2 in Henc by lia. injection Henc as <-. simpl.
      assert (0 ≤ c / 64 < 32) by lia.
      rewrite keys_wgetch_2 by lia.
      rewrite (mod_offset 6 32), (mod_offset 2 64) by lia. f_equal. lia.
    + rewrite utf8_encode_3 in Henc by lia. injection Henc as <-. simpl.
      assert (0 ≤ c / 4096 < 16) by lia.
      rewrite keys_wgetch_3 by lia.
      rewrite (mod_offset 14 16), !(mod_offset 2 64) by lia. f_equal. lia.
    + rewrite utf8_encode_4 in Henc by lia. injection Henc as <-. simpl.
      assert (0 ≤ c / 262144 < 8) by lia.
      rewrite keys_wgetch_4 by lia.
      rewrite (mod_offset 30 8), !(mod_offset 2 64) by lia. f_equal. lia.
  - intros u win Hu. pose proof KEY_MIN_byte. unfold keys_wgetch, wgetch, ERR.
    rewrite bool_decide_false, bool_decide_true by lia. done.
  - intros u win Hu. by apply keys_wgetch_single.
Qed.

End Reader.

Lemma keys_wgetch_decodes_witness :
  utf8_encode 0x20AC = Some [0xE2; 0x82; 0xAC] ∧
  keys_wgetch (H := Ncurses.ncurses) ([0xE2; 0x82; 0xAC] ++ [chr "j"]) =
    (0x20AC + 511, [chr "j"]) ∧
  keys_wgetch (H := Ncurses.ncurses) [259; chr "j"] = (259, [chr "j"]) ∧
  keys_wgetch (H := Ncurses.ncurses) [chr "a"; chr "j"] = (chr "a", [chr "j"]).
Proof.
  destruct (keys_wgetch_decodes (H := Ncurses.ncurses)) as (Hmulti & Hpseudo & Hone).
  split; [ reflexivity | ].
  split; [ apply (Hmulti 0x20AC); [ lia | reflexivity ] | ].
  split; [ apply Hpseudo; vm_compute; congruence | apply Hone; reflexivity ].
Defined.

(** ** Repeat count and register *)

Lemma int_wrap_small (z : Z) : - 2 ^ 31 ≤ z < 2 ^ 31 → int_wrap z = z.
Proof. intros Hz. unfold int_wrap. rewrite Z.mod_small; lia. Qed.

Lemma decimal_value_grows (ds : list Z) (acc : Z) :
  Forall (λ d, 0 ≤ d ≤ 9) ds → 0 ≤ acc → acc ≤ decimal_value acc ds.
Proof.
  intros Hds. revert acc. induction Hds as [|d ds Hd _ IH]; intros acc Hacc.
  - done.
  - simpl. etrans; [ | apply IH ]; lia.
Qed.

Section Prefix.
Context `{Curses}.

Lemma keys_wgetch_char (u : Z) (win : list Z) :
  0 ≤ u < 128 → keys_wgetch (u :: win) = (u, win).
Proof.
  intros Hu. apply keys_wgetch_single.
  rewrite utf8_length_cases by lia. by rewrite !bool_decide_false by lia.
Qed.

(** The loop adds the digits [ds] to the count [c0] it has when it reads
    them, and stops at the first key that does not continue the number. *)
Lemma count_loop_digits (ds : list Z) :
  ∀ (fuel : nat) (count ch : Z) (win : list Z) (fin : Z) (rest : list Z),
  let c0 := count * 10 + ch - chr "0" in
  Forall (λ d, 0 ≤ d ≤ 9) ds →
  0 ≤ c0 →
  (c0 > 0 ∨ match ds with d :: _ => 1 ≤ d | [] => True end) →
  decimal_value c0 ds < 2 ^ 31 →
  keys_wgetch win = (fin, rest) →
  ¬ ((fin = chr "0" ∧ decimal_value c0 ds > 0) ∨ (fin >= chr "1" ∧ fin ≤ chr "9")) →
  (length ds < fuel)%nat →
  count_loop fuel count ch (digit_units ds ++ win) = Ok (decimal_value c0 ds, fin, rest).
Proof.
  induction ds as [|d ds IH]; intros fuel count ch win fin rest c0 Hds Hc0 Hlead Hfit Hfin Hstop Hfuel.
  - destruct fuel as [|fuel]; [ simpl in Hfuel; lia | ].
    simpl in *. fold c0. rewrite int_wrap_small by lia. rewrite Hfin.
    by rewrite bool_decide_false.
  - destruct fuel as [|fuel]; [ simpl in Hfuel; lia | ].
    apply Forall_cons in Hds as [Hd Hds].
    pose proof (decimal_value_grows ds (c0 * 10 + d) Hds) as Hgrow.
    simpl in Hfit, Hstop, Hfuel.
    cbn [count_loop digit_units fmap list_fmap app]. fold c0.
    rewrite int_wrap_small by lia.
    change (chr "0") with 48 in *. change (chr "1") with 49 in *.
    change (chr "9") with 57 in *.
    rewrite keys_wgetch_char by lia.
    rewrite bool_decide_true by lia.
    specialize (IH fuel c0 (48 + d) win fin rest). simpl in IH.
    change (chr "0") with 48 in *. change (chr "1") with 49 in *.
    change (chr "9") with 57 in *.
    replace (c0 * 10 + (48 + d) - 48) with (c0 * 10 + d) in IH by lia.
    apply IH; try done; lia.
Qed.

(** C9 (amended).  With count and register requested, [keys_get] on the
    digits [ds] (not starting with 0, spelling a number below 2^31), an
    optional double quote with a register key [r], and a last key [fin]
    returns: the number spelled by [ds], or 1 when there is no digit; the
    register 1-9 for a digit key, 10-35 for a lower-case letter, 0
    otherwise; and what [keys_get_action] answers for [fin], except that
    KEY_RESIZE is returned as it is. *)
Theorem keys_get_prefix (s : table) (ds : list Z) (q : option Z)
    (win : list Z) (fin : Z) (rest : list Z) :
  Forall (λ d, 0 ≤ d ≤ 9) ds →
  match ds with d :: _ => 1 ≤ d | [] => True end →
  decimal_value 0 ds < 2 ^ 31 →
  keys_wgetch win = (fin, rest) →
  match q with
  | Some r => keys_wgetch (r :: win) = (r, win)
  | None =>
      fin ≠ 34 ∧ ¬ (chr "1" ≤ fin ≤ chr "9") ∧ (ds ≠ [] → fin ≠ chr "0")
  end →
  keys_get s true (digit_units ds ++ reg_units q ++ win) =
    a ← (if bool_decide (fin = KEY_RESIZE) then Ok KEY_RESIZE
         else keys_get_action s fin);
    Ok {| out_vkey := a;
          out_count_reg :=
            Some (match ds with [] => 1 | _ :: _ => decimal_value 0 ds end,
                  match q with
                  | None => 0
                  | Some r =>
                      if bool_decide (chr "1" ≤ r ≤ chr "9") then r - chr "0"
                      else if bool_decide (chr "a" ≤ r ≤ chr "z")
                           then r - chr "a" + 10
                           else 0
                  end);
          out_win := rest |}.
Proof.
  intros Hds Hlead Hfit Hfin Hq.
  assert (match ds with [] => decimal_value 0 ds = 0 | _ :: _ => decimal_value 0 ds > 0 end)
    as Hval.
  { destruct ds as [|d ds]; [ done | ].
    apply Forall_cons in Hds as [Hd Hds].
    change (decimal_value 0 (d :: ds)) with (decimal_value (0 * 10 + d) ds).
    pose proof (decimal_value_grows ds (0 * 10 + d) Hds). lia. }
  unfold keys_get.
  set (fin' := match q with Some _ => 34 | None => fin end).
  set (rest' := match q with Some r => r :: win | None => rest end).
  rewrite (count_loop_digits ds _ 0 (chr "0") (reg_units q ++ win) fin' rest').
  - change (0 * 10 + chr "0" - chr "0") with 0. cbn [mbind result_bind].
    destruct q as [r|]; subst fin' rest'.
    + rewrite (bool_decide_true (34 = 34)) by done. rewrite Hq, Hfin.
      cbn [mbind result_bind].
      assert ((if bool_decide (decimal_value 0 ds = 0) then 1 else decimal_value 0 ds)
              = match ds with [] => 1 | _ :: _ => decimal_value 0 ds end) as ->.
      { destruct ds; [ by rewrite bool_decide_true | by rewrite bool_decide_false by lia ]. }
      assert (reg_of r =
        (if bool_decide (chr "1" ≤ r ≤ chr "9") then r - chr "0"
         else if bool_decide (chr "a" ≤ r ≤ chr "z") then r - chr "a" + 10 else 0)) as ->.
      { unfold reg_of. change (chr "0") with 48. change (chr "1") with 49.
        repeat case_bool_decide; lia. }
      case_bool_decide; [ done | ].
      by destruct (keys_get_action s fin).
    + destruct Hq as (Hnq & _ & _). rewrite (bool_decide_false (fin = 34)) by done.
      cbn [mbind result_bind].
      assert ((if bool_decide (decimal_value 0 ds = 0) then 1 else decimal_value 0 ds)
              = match ds with [] => 1 | _ :: _ => decimal_value 0 ds end) as ->.
      { destruct ds; [ by rewrite bool_decide_true | by rewrite bool_decide_false by lia ]. }
      case_bool_decide; [ done | ].
      by destruct (keys_get_action s fin).
  - done.
  - done.
  - right. done.
  - done.
  - subst fin' rest'. destruct q as [r|]; [ | done ].
    simpl. by apply keys_wgetch_char.
  - change (0 * 10 + chr "0" - chr "0") with 0. subst fin'.
    change (chr "0") with 48 in *. change (chr "1") with 49 in *.
    change (chr "9") with 57 in *.
    destruct q as [r|]; [ lia | ].
    destruct Hq as (_ & Hnd & Hz). intros [[-> Hpos]|Hd]; [ | lia ].
    destruct ds; [ simpl in Hpos; lia | by apply Hz ].
  - rewrite !length_app. unfold digit_units. rewrite length_fmap. lia.
Qed.

End Prefix.

Lemma keys_get_prefix_witness :
  keys_get Ncurses.filled true [chr "1"; chr "2"; chr "j"] =
    Ok {| out_vkey := 33; out_count_reg := Some (12, 0); out_win := [] |} ∧
  keys_get Ncurses.filled true [34; chr "a"; chr "p"] =
    Ok {| out_vkey := 8; out_count_reg := Some (1, 10); out_win := [] |}.
Proof.
  split.
  - apply (keys_get_prefix (H := Ncurses.ncurses) Ncurses.filled [1; 2] None
             [chr "j"] (chr "j") []).
    + repeat constructor; lia.
    + lia.
    + vm_compute. reflexivity.
    + reflexivity.
    + vm_compute. repeat split; try congruence. intros [? ?]. congruence.
  - apply (keys_get_prefix (H := Ncurses.ncurses) Ncurses.filled [] (Some (chr "a"))
             [chr "p"] (chr "p") []).
    + constructor.
    + done.
    + vm_compute. reflexivity.
    + reflexivity.
    + reflexivity.
Defined.

Lemma keys_get_prefix_counterexample :
  (keys_get Ncurses.filled true [410] =
     Ok {| out_vkey := 410; out_count_reg := Some (1, 0); out_win := [] |} ∧
   keys_get_action Ncurses.filled 410 = Ok 49) ∧
  keys_get Ncurses.filled true (digit_units [4; 2; 9; 4; 9; 6; 7; 2; 9; 6] ++ [chr "j"]) =
     Ok {| out_vkey := 33; out_count_reg := Some (1, 0); out_win := [] |}.
Proof. repeat split; vm_compute; reflexivity. Qed.

(** ** Names of key codes *)

Lemma byte_of_ascii_of_byte (b : Z) :
  0 ≤ b < 256 → byte_of_ascii (ascii_of_byte b) = b.
Proof.
  intros Hb. unfold byte_of_ascii, ascii_of_byte.
  rewrite Z.mod_small, N_ascii_embedding by lia. lia.
Qed.

Lemma bytes_of_string_cons (a : ascii) (s : string) :
  bytes_of_string (String a s) = byte_of_ascii a :: bytes_of_string s.
Proof. done. Qed.

Lemma bytes_of_c_string (buf : list Z) :
  Forall (λ b, 0 < b < 256) buf → bytes_of_string (c_string buf) = buf.
Proof.
  induction 1 as [|b buf Hb _ IH]; [ done | ]. cbn [c_string].
  rewrite bool_decide_false by (rewrite Z.mod_small; lia).
  by rewrite bytes_of_string_cons, IH, byte_of_ascii_of_byte by lia.
Qed.

(** The encoding of a multi-byte code point: it is decoded to the code
    point, has no NUL byte and starts with a byte from 0xC0. *)
Lemma utf8_round_trip (c : Z) :
  0x80 ≤ c < 0x110000 →
  ∃ b0 bytes, utf8_encode c = Some (b0 :: bytes) ∧ 192 ≤ b0 < 256 ∧
    Forall (λ b, 0 < b < 256) (b0 :: bytes) ∧ utf8_decode (b0 :: bytes) = c.
Proof.
  intros Hc.
  pose proof (Z.mod_pos_bound c 64). pose proof (Z.mod_pos_bound (c / 64) 64).
  pose proof (Z.mod_pos_bound (c / 4096) 64).
  assert (c / 64 / 64 = c / 4096) as Hdd by (rewrite Z.div_div by lia; done).
  assert (c / 4096 / 64 = c / 262144) as Hdd' by (rewrite Z.div_div by lia; done).
  pose proof (Z.div_mod c 64). pose proof (Z.div_mod (c / 64) 64).
  pose proof (Z.div_mod (c / 4096) 64).
  destruct (decide (c < 0x800)); [ | destruct (decide (c < 0x10000)) ].
  - assert (0 ≤ c / 64 < 32) by lia.
    eexists _, _. split; [ apply utf8_encode_2; lia | ].
    split; [ lia | ]. split; [ repeat constructor; lia | ].
    rewrite utf8_decode_2 by lia.
    rewrite (mod_offset 6 32), (mod_offset 2 64) by lia. lia.
  - assert (0 ≤ c / 4096 < 16) by lia.
    eexists _, _. split; [ apply utf8_encode_3; lia | ].
    split; [ lia | ]. split; [ repeat constructor; lia | ].
    rewrite utf8_decode_3 by lia.
    rewrite (mod_offset 14 16), !(mod_offset 2 64) by lia. lia.
  - assert (0 ≤ c / 262144 < 8) by lia.
    eexists _, _. split; [ apply utf8_encode_4; lia | ].
    split; [ lia | ]. split; [ repeat constructor; lia | ].
    rewrite utf8_decode_4 by lia.
    rewrite (mod_offset 30 8), !(mod_offset 2 64) by lia. lia.
Qed.

Lemma lookup_keyname_none (kn : list string) (key : string) (idx : list Z) :
  Forall (λ i, ∃ n, array_get kn i = Ok n ∧ n ≠ key) idx →
  lookup_keyname kn key idx = Ok None.
Proof.
  induction 1 as [|i idx (n & Hn & Hne) _ IH]; [ done | ]. simpl.
  rewrite Hn. simpl. by rewrite bool_decide_false by congruence.
Qed.

Section Names.
Context `{Curses}.

Lemma lookup_keyname_multibyte (s : table) (key : string) (m n : Z) :
  Forall ascii_name (keynames s) → ¬ ascii_name key →
  0 ≤ m → m + n ≤ Z.of_nat (length (keynames s)) →
  lookup_keyname (keynames s) key (seqZ m n) = Ok None.
Proof.
  intros Hascii Hkey Hm Hn. apply lookup_keyname_none.
  apply Forall_forall. intros i [Hi1 Hi2]%elem_of_seqZ.
  destruct (lookup_lt_is_Some_2 (keynames s) (Z.to_nat i)) as [name Hname]; [ lia | ].
  exists name. split; [ apply array_get_Ok; split; [ lia | done ] | ].
  intros ->. apply Hkey.
  eapply Forall_forall in Hascii; [ done | ]. by eapply list_elem_of_lookup_2.
Qed.

(** An extended code of a multi-byte code point is named by its UTF-8
    text, and the text is read back as the code. *)
Lemma str2int_int2str_multibyte (s : table) (c : Z) :
  Forall ascii_name (keynames s) →
  Z.of_nat (length (keynames s)) = KEY_MAX →
  0x80 ≤ c < 0x110000 →
  ∃ name, keys_int2str s (KEY_MAX + c) = Ok (Some name) ∧
    keys_str2int s (Some name) = Ok (KEY_MAX + c).
Proof.
  intros Hascii Hlen Hc. pose proof KEY_MIN_byte. pose proof KEY_MIN_MAX.
  destruct (utf8_round_trip c Hc) as (b0 & bytes & Henc & Hb0 & Hbytes & Hdec).
  exists (c_string (b0 :: bytes)). split.
  - unfold keys_int2str. rewrite !bool_decide_false by lia.
    replace (KEY_MAX + c - KEY_MAX) with c by lia. by rewrite Henc.
  - assert (¬ ascii_name (c_string (b0 :: bytes))) as Hname.
    { simpl. rewrite bool_decide_false by (rewrite Z.mod_small; lia). simpl.
      rewrite byte_of_ascii_of_byte by lia. lia. }
    unfold keys_str2int.
    rewrite !bool_decide_false
      by (intros Heq; apply Hname; rewrite Heq; vm_compute; congruence).
    rewrite !lookup_keyname_multibyte by (done || lia). cbn [mbind result_bind].
    rewrite bytes_of_c_string, Hdec by done. f_equal. lia.
Qed.

End Names.

Lemma cached_names_round_trip :
  Forall (name_round_trip (H := Ncurses.ncurses) Ncurses.started) (seqZ 0 511).
Proof. apply (bool_decide_unpack _). vm_compute. exact I. Qed.

Lemma cached_names_ascii : Forall ascii_name (keynames Ncurses.started).
Proof. apply (bool_decide_unpack _). vm_compute. exact I. Qed.

(** C4.  With the key names of ncurses and the table of [keys_init]: a
    key code of the ordinary range, of the pseudo range, or of the extended
    range (the code point of a multi-byte character, U+0080 to U+10FFFF,
    plus [KEY_MAX]) that [keys_int2str] names is read back by
    [keys_str2int] from that name. *)
Theorem str2int_int2str (k : Z) (name : string) :
  1 ≤ k ≤ 127 ∨
  @KEY_MIN Ncurses.ncurses ≤ k < @KEY_MAX Ncurses.ncurses ∨
  @KEY_MAX Ncurses.ncurses + 0x80 ≤ k < @KEY_MAX Ncurses.ncurses + 0x110000 →
  keys_int2str (H := Ncurses.ncurses) Ncurses.started k = Ok (Some name) →
  keys_str2int (H := Ncurses.ncurses) Ncurses.started (Some name) = Ok k.
Proof.
  intros Hk Hname.
  change (@KEY_MIN Ncurses.ncurses) with 257 in Hk.
  change (@KEY_MAX Ncurses.ncurses) with 511 in Hk.
  destruct (decide (k < 511)) as [Hlow|Hhigh].
  - pose proof cached_names_round_trip as Hall.
    rewrite Forall_forall in Hall. specialize (Hall k).
    unfold name_round_trip in Hall. rewrite Hname in Hall.
    apply Hall, elem_of_seqZ. lia.
  - destruct (str2int_int2str_multibyte (H := Ncurses.ncurses)
                Ncurses.started (k - 511)) as (name' & Hint & Hstr).
    + exact cached_names_ascii.
    + vm_compute. reflexivity.
    + lia.
    + change (@KEY_MAX Ncurses.ncurses) with 511 in *.
      replace (511 + (k - 511)) with k in * by lia.
      congruence.
Qed.

Lemma str2int_int2str_witness :
  keys_str2int (H := Ncurses.ncurses) Ncurses.started (Some "RET") = Ok 10 ∧
  keys_str2int (H := Ncurses.ncurses) Ncurses.started (Some "KEY_BTAB") = Ok 353 ∧
  keys_str2int (H := Ncurses.ncurses) Ncurses.started
    (Some (c_string [0xE2; 0x82; 0xAC])) = Ok (511 + 0x20AC).
Proof.
  split; [ | split ].
  - apply (str2int_int2str 10); [ lia | vm_compute; reflexivity ].
  - apply (str2int_int2str 353);
      [ right; left; vm_compute; split; congruence | vm_compute; reflexivity ].
  - apply (str2int_int2str (511 + 0x20AC));
      [ right; right; vm_compute; split; congruence | vm_compute; reflexivity ].
Defined.

(** Past [KEY_MAX] lie also numbers that are the code of no key: a
    one-byte character is read as its own value, never as an extended
    code.  Such a number is named like the character and read back as the
    character. *)
Lemma one_byte_offset_reads_back_low :
  @KEY_MAX Ncurses.ncurses ≤ 511 + chr "a" ∧
  keys_int2str (H := Ncurses.ncurses) Ncurses.started (511 + chr "a") = Ok (Some "a") ∧
  keys_str2int (H := Ncurses.ncurses) Ncurses.started (Some "a") = Ok (chr "a") ∧
  chr "a" ≠ 511 + chr "a".
Proof. repeat split; vm_compute; congruence. Qed.

(** ** Lists of names and of extended keys *)

Lemma llist_del_str_spec (l : list (option string)) (name : string) :
  None ∉ l → NoDup l →
  ∃ l', llist_del_str l (Some name) = Ok l' ∧ (None ∉ l') ∧ NoDup l' ∧
    (∀ x, x ∈ l' ↔ x ∈ l ∧ x ≠ Some name) ∧
    (Some name ∉ l → l' = l).
Proof.
  induction l as [|j l IH]; intros Hnone Hnodup.
  - exists []. split; [ done | ]. split; [ done | ]. split; [ done | ].
    split; [ | done ]. intros x. set_solver.
  - apply not_elem_of_cons in Hnone as [Hj Hnone].
    apply NoDup_cons in Hnodup as [Hjl Hnodup].
    destruct j as [a|]; [ | done ]. simpl.
    case_bool_decide as Heq.
    + subst a. exists l. split; [ done | ]. split; [ done | ]. split; [ done | ].
      split; [ | set_solver ]. intros x. set_solver.
    + destruct (IH Hnone Hnodup) as (l' & Hdel & Hnone' & Hnodup' & Hin & Hsame).
      exists (Some a :: l'). rewrite Hdel. simpl. split; [ done | ].
      split; [ set_solver | ]. split; [ apply NoDup_cons; set_solver | ].
      split; [ | intros ?; f_equal; set_solver ].
      intros x. rewrite !elem_of_cons, Hin.
      split; [ intros [->|[? ?]]; split; auto; congruence | tauto ].
Qed.

Lemma llist_del_str_last (l : list (option string)) (name : string) :
  None ∉ l → Some name ∉ l →
  llist_del_str (l ++ [Some name]) (Some name) = Ok l.
Proof.
  induction l as [|j l IH]; intros Hnone Hname; simpl.
  - by rewrite bool_decide_true.
  - apply not_elem_of_cons in Hnone as [Hj Hnone].
    apply not_elem_of_cons in Hname as [Hjn Hname].
    destruct j as [a|]; [ | done ].
    rewrite bool_decide_false by congruence. by rewrite IH.
Qed.

Lemma add_del_sentinel (l : list (option string)) :
  l ≠ [] → l = [None] ∨ None ∉ l → add_sentinel (del_sentinel l) = l.
Proof.
  intros Hne [->|Hnone]; [ done | ].
  destruct l as [|[a|] l]; [ done | done | set_solver ].
Qed.

Lemma elem_of_add_sentinel (l : list (option string)) (name : string) :
  Some name ∈ add_sentinel l ↔ Some name ∈ l.
Proof. destruct l; simpl; set_solver. Qed.

Lemma elem_of_del_sentinel (l : list (option string)) (name : string) :
  Some name ∈ del_sentinel l ↔ Some name ∈ l.
Proof. destruct l as [|[a|] l]; simpl; set_solver. Qed.

Lemma delete_last {A} (l : list A) (x : A) : delete (length l) (l ++ [x]) = l.
Proof. induction l; simpl; [ done | by f_equal ]. Qed.

(** Finding a key in the list of extended keys. *)
Lemma find_first_other (l : list key_ext) (k k' v : Z) :
  k' ≠ k →
  snd <$> LLIST_FIND_FIRST (LLIST_ADD l {| key := k; action := v |}) k' =
  snd <$> LLIST_FIND_FIRST l k'.
Proof.
  intros Hne. unfold LLIST_FIND_FIRST, LLIST_ADD.
  induction l as [|e l IH]; simpl.
  - by rewrite decide_False by (unfold key_ext_hasch; simpl; congruence).
  - case_decide; [ done | ].
    destruct (list_find _ (l ++ _)) as [[? ?]|], (list_find _ l) as [[? ?]|];
      simpl in *; congruence.
Qed.

Lemma find_first_deleted (l : list key_ext) (k : Z) (i : nat) (e : key_ext) :
  NoDup (key <$> l) → LLIST_FIND_FIRST l k = Some (i, e) →
  LLIST_FIND_FIRST (delete i l) k = None.
Proof.
  unfold LLIST_FIND_FIRST. revert i.
  induction l as [|e' l IH]; intros i Hnodup Hfind; [ done | ].
  simpl in Hnodup. apply NoDup_cons in Hnodup as [Hnotin Hnodup].
  simpl in Hfind. case_decide as Hk.
  - simplify_eq. simpl. apply list_find_None, Forall_forall.
    intros e'' Hin Hk'. apply Hnotin. unfold key_ext_hasch in *.
    rewrite Hk, <- Hk'. by apply list_elem_of_fmap_2.
  - destruct (list_find _ l) as [[j e'']|] eqn:Hl; [ | done ].
    simpl in Hfind. simplify_eq. simpl. rewrite decide_False by done.
    by rewrite (IH j).
Qed.

Lemma find_first_delete_other (l : list key_ext) (k k' : Z) (i : nat) (e : key_ext) :
  l !! i = Some e → key e ≠ k' →
  snd <$> LLIST_FIND_FIRST (delete i l) k' = snd <$> LLIST_FIND_FIRST l k'.
Proof.
  unfold LLIST_FIND_FIRST. revert i.
  induction l as [|e' l IH]; intros i Hi Hne; [ done | ].
  destruct i as [|i]; simpl in *.
  - simplify_eq. rewrite decide_False by done.
    by destruct (list_find _ l) as [[? ?]|].
  - case_decide; [ done | ].
    specialize (IH i Hi Hne).
    destruct (list_find _ (delete i l)) as [[? ?]|], (list_find _ l) as [[? ?]|];
      simpl in *; congruence.
Qed.

(** ** What the tables hold after an operation *)

Section Effects.
Context `{Curses}.

Lemma keys_int2str_keynames (s s' : table) (k : Z) :
  keynames s' = keynames s → keys_int2str s' k = keys_int2str s k.
Proof. intros Hkn. unfold keys_int2str. by rewrite Hkn. Qed.

Lemma keys_str2int_keynames (s s' : table) (n : option string) :
  keynames s' = keynames s → keys_str2int s' n = keys_str2int s n.
Proof. intros Hkn. unfold keys_str2int. by rewrite Hkn. Qed.

Lemma canonical_keynames (s s' : table) (k : Z) :
  keynames s' = keynames s → canonical s' k ↔ canonical s k.
Proof.
  intros Hkn. unfold canonical.
  setoid_rewrite (keys_int2str_keynames s s' k Hkn).
  by setoid_rewrite (keys_str2int_keynames s s' _ Hkn).
Qed.

Lemma keys_int2str_nonneg (s : table) (k : Z) (name : string) :
  keys_int2str s k = Ok (Some name) → 0 ≤ k.
Proof.
  pose proof KEY_MIN_byte. pose proof KEY_MIN_MAX.
  unfold keys_int2str. repeat case_bool_decide; intros Hn; inv_ok; try done; lia.
Qed.

Lemma canonical_nonneg (s : table) (k : Z) : canonical s k → 0 ≤ k.
Proof. intros (name & Hn & _). by eapply keys_int2str_nonneg. Qed.

Lemma canonical_inj (s : table) (k k' : Z) (name : string) :
  canonical s k → canonical s k' →
  keys_int2str s k = Ok (Some name) → keys_int2str s k' = Ok (Some name) →
  k = k'.
Proof. intros (n & Hn & Hk) (n' & Hn' & Hk') Hname Hname'. congruence. Qed.

Lemma keys_get_action_fields (s s' : table) (k : Z) :
  actions s' = actions s → actions_ext s' = actions_ext s →
  keys_get_action s' k = keys_get_action s k.
Proof. intros Ha He. unfold keys_get_action. by rewrite Ha, He. Qed.

Lemma keys_get_action_insert (s : table) (k x k' : Z) :
  0 ≤ k ≤ KEY_MAX → (Z.to_nat k < length (actions s))%nat →
  keys_get_action (set_actions s (<[Z.to_nat k := x]> (actions s))) k' =
  if decide (k' = k) then Ok x else keys_get_action s k'.
Proof.
  intros Hk Hlen. unfold keys_get_action. simpl.
  case_bool_decide; [ by rewrite decide_False by lia | ].
  case_bool_decide; [ by rewrite decide_False by lia | ].
  unfold array_get. rewrite !bool_decide_true by lia.
  case_decide as Heq.
  - subst k'. by rewrite list_lookup_insert_eq.
  - by rewrite list_lookup_insert_ne by lia.
Qed.

Lemma keys_get_action_ext_add (s : table) (k v k' : Z) :
  k > KEY_MAX → LLIST_FIND_FIRST (actions_ext s) k = None →
  keys_get_action
    (set_actions_ext s (LLIST_ADD (actions_ext s) {| key := k; action := v |})) k' =
  if decide (k' = k) then Ok v else keys_get_action s k'.
Proof.
  intros Hk Hfree. pose proof KEY_MIN_byte. pose proof KEY_MIN_MAX.
  unfold keys_get_action. simpl.
  case_bool_decide; [ by rewrite decide_False by lia | ].
  case_bool_decide; [ | by rewrite decide_False by lia ].
  case_decide as Heq.
  - subst k'. by rewrite find_first_added.
  - pose proof (find_first_other (actions_ext s) k k' v Heq) as Hsame.
    destruct (LLIST_FIND_FIRST (LLIST_ADD _ _) k') as [[? ?]|],
      (LLIST_FIND_FIRST (actions_ext s) k') as [[? ?]|]; simpl in *; congruence.
Qed.

Lemma keys_get_action_ext_delete (s : table) (k k' : Z) (i : nat) (e : key_ext) :
  k > KEY_MAX → NoDup (key <$> actions_ext s) →
  LLIST_FIND_FIRST (actions_ext s) k = Some (i, e) →
  keys_get_action (set_actions_ext s (delete i (actions_ext s))) k' =
  if decide (k' = k) then Ok KEY_UNDEF else keys_get_action s k'.
Proof.
  intros Hk Hnodup Hfind. pose proof KEY_MIN_byte. pose proof KEY_MIN_MAX.
  unfold keys_get_action. simpl.
  case_bool_decide; [ by rewrite decide_False by lia | ].
  case_bool_decide; [ | by rewrite decide_False by lia ].
  case_decide as Heq.
  - subst k'. by rewrite (find_first_deleted _ _ _ _ Hnodup Hfind).
  - apply list_find_Some in Hfind as (Hi & Hkey & _).
    unfold key_ext_hasch in Hkey.
    assert (key e ≠ k') as Hne by congruence.
    pose proof (find_first_delete_other (actions_ext s) k k' i e Hi Hne) as Hsame.
    destruct (LLIST_FIND_FIRST (delete _ _) k') as [[? ?]|],
      (LLIST_FIND_FIRST (actions_ext s) k') as [[? ?]|]; simpl in *; congruence.
Qed.

End Effects.

(** ** The invariant *)

Section Invariant.
Context `{Curses}.

Lemma undef_not_vkey : ¬ is_vkey KEY_UNDEF.
Proof. pose proof KEY_UNDEF_enum. unfold is_vkey. lia. Qed.

Lemma del_sentinel_names (l : list (option string)) :
  None ∉ l → del_sentinel l = l.
Proof. destruct l as [|[a|] l]; [ done | done | set_solver ]. Qed.

Lemma lookup_insert_elem {A} (ks : list (list A)) (v v' : nat) (l lnew : list A) (x : A) :
  ks !! v = Some l → (x ∈ lnew ↔ x ∈ l) →
  (∃ l0, <[v := lnew]> ks !! v' = Some l0 ∧ x ∈ l0) ↔
  (∃ l0, ks !! v' = Some l0 ∧ x ∈ l0).
Proof.
  intros Hl Hx. destruct (decide (v' = v)) as [->|Hne].
  - rewrite list_lookup_insert_eq by (by eapply lookup_lt_Some).
    split; intros (l0 & Hl0 & Hin); simplify_eq; eexists; split; try done; tauto.
  - by rewrite list_lookup_insert_ne.
Qed.

(** A successful assignment, taken apart. *)
Lemma assign_inv (s s' : table) (k v : Z) :
  0 ≤ k → is_vkey v → keys_assign_binding k v s = Ok (0, s') →
  ∃ l name,
    keys_get_action s k = Ok KEY_UNDEF ∧
    keys s !! Z.to_nat v = Some l ∧ keys_int2str s k = Ok name ∧
    keys s' = <[Z.to_nat v := del_sentinel l ++ [name]]> (keys s) ∧
    keynames s' = keynames s ∧
    (∀ k', keys_get_action s' k' =
           if decide (k' = k) then Ok v else keys_get_action s k') ∧
    ((k ≤ KEY_MAX ∧ actions s' = <[Z.to_nat k := v]> (actions s) ∧
      actions s !! Z.to_nat k = Some KEY_UNDEF ∧ actions_ext s' = actions_ext s) ∨
     (k > KEY_MAX ∧ actions s' = actions s ∧
      LLIST_FIND_FIRST (actions_ext s) k = None ∧
      actions_ext s' = LLIST_ADD (actions_ext s) {| key := k; action := v |})).
Proof.
  intros Hk Hv Hassign. unfold is_vkey in Hv.
  unfold keys_assign_binding in Hassign.
  case_bool_decide as Hext.
  - destruct (LLIST_FIND_FIRST (actions_ext s) k) as [?|] eqn:Hfind; [ done | ].
    inv_ok. rewrite add_key_str_eq, bool_decide_false in Ha by lia.
    simpl in Ha. inv_ok. eexists _, _.
    split. { unfold keys_get_action. rewrite bool_decide_false by lia.
             by rewrite bool_decide_true, Hfind by done. }
    split; [ eassumption | ]. split; [ eassumption | ].
    split; [ reflexivity | ]. split; [ reflexivity | ].
    split; [ | right; done ].
    intros k'. rewrite <- keys_get_action_ext_add by done.
    by apply keys_get_action_fields.
  - rewrite bool_decide_true in Hassign by lia. inv_ok.
    case_bool_decide as Hfree; [ done | ]. subst a.
    inv_ok. rewrite add_key_str_eq, bool_decide_false in Ha1 by lia.
    simpl in Ha1. inv_ok. eexists _, _.
    split. { unfold keys_get_action. rewrite !bool_decide_false by lia.
             by apply array_get_Ok. }
    split; [ eassumption | ]. split; [ eassumption | ].
    split; [ reflexivity | ]. split; [ reflexivity | ].
    split; [ | left; split; [ lia | done ] ].
    intros k'. rewrite <- keys_get_action_insert by lia.
    by apply keys_get_action_fields.
Qed.

Lemma assign_result (s s' : table) (k v r : Z) :
  keys_assign_binding k v s = Ok (r, s') → r = 0 ∨ (r = 1 ∧ s' = s).
Proof.
  unfold keys_assign_binding. intros Hassign.
  repeat (case_bool_decide || case_match || inv_ok); auto.
Qed.

Lemma keys_init_fields (s : table) :
  keys_init = Ok s →
  keys s = replicate (Z.to_nat NBVKEYS) [] ∧
  actions s = replicate (Z.to_nat KEY_MAX) KEY_UNDEF ∧ actions_ext s = [].
Proof. unfold keys_init. intros Hs. inv_ok. done. Qed.

Lemma keys_get_action_init (s : table) (k v : Z) :
  keys_init = Ok s → 0 ≤ k → keys_get_action s k = Ok v → v = KEY_UNDEF.
Proof.
  intros (_ & Hact & Hext)%keys_init_fields Hk. unfold keys_get_action.
  rewrite Hact, Hext, bool_decide_false by lia.
  case_bool_decide; [ simpl; congruence | ].
  intros [_ [-> _]%lookup_replicate]%array_get_Ok. done.
Qed.

Lemma consistent_init (s : table) : keys_init = Ok s → consistent s.
Proof.
  intros Hinit. destruct (keys_init_fields s Hinit) as (Hkeys & Hact & Hext).
  split.
  - intros v l. rewrite Hkeys. intros [-> _]%lookup_replicate.
    right. split; [ apply not_elem_of_nil | constructor ].
  - rewrite Hext. constructor.
  - rewrite Hext. constructor.
  - intros k v Hk [Hget Hv].
    apply (keys_get_action_init _ _ _ Hinit Hk) in Hget. subst v.
    by apply undef_not_vkey in Hv.
  - intros k v name Hv Hcan Hname. split.
    + intros Hget. apply (keys_get_action_init _ _ _ Hinit) in Hget;
        [ | by eapply canonical_nonneg ].
      subst v. by apply undef_not_vkey in Hv.
    + rewrite Hkeys. intros (l & [-> _]%lookup_replicate & Hin).
      by apply elem_of_nil in Hin.
Qed.

(** A key code that is not bound is named in no forward list. *)
Lemma free_not_listed (s : table) (k v : Z) (name : string) (l : list (option string)) :
  consistent s → canonical s k → keys_int2str s k = Ok (Some name) →
  keys_get_action s k = Ok KEY_UNDEF →
  is_vkey v → keys s !! Z.to_nat v = Some l → Some name ∉ l.
Proof.
  intros Hcons Hcan Hname Hfree Hv Hl Hin.
  assert (keys_get_action s k = Ok v) as Hget
    by (apply (cons_agree s Hcons k v name); eauto).
  rewrite Hfree in Hget. injection Hget as <-. by apply undef_not_vkey in Hv.
Qed.

Lemma consistent_assign (s s' : table) (k v : Z) :
  consistent s → canonical s k → is_vkey v →
  keys_assign_binding k v s = Ok (0, s') → consistent s'.
Proof.
  intros Hcons Hcan Hv Hassign.
  pose proof (canonical_nonneg s k Hcan) as Hk.
  destruct (assign_inv s s' k v Hk Hv Hassign)
    as (l & oname & Hfree & Hl & Hname & Hkeys & Hkn & Hget & Hrev).
  destruct Hcan as (name & Hname' & Hback).
  assert (oname = Some name) as -> by congruence.
  assert (canonical s k) as Hcan by (by exists name).
  assert (∀ v' l', is_vkey v' → keys s !! Z.to_nat v' = Some l' → Some name ∉ l')
    as Hnew by (intros; by eapply free_not_listed).
  assert (Z.to_nat v < length (keys s))%nat as Hlen by (by eapply lookup_lt_Some).
  split.
  - intros v0 l0. rewrite Hkeys.
    destruct (decide (v0 = Z.to_nat v)) as [->|Hne].
    + rewrite list_lookup_insert_eq by done. intros [= <-]. right.
      destruct (cons_lists s Hcons _ _ Hl) as [->|[Hnone Hnodup]].
      * simpl. split; [ by intros ?%list_elem_of_singleton | apply NoDup_singleton ].
      * rewrite del_sentinel_names by done.
        split; [ by intros [?|?%list_elem_of_singleton]%elem_of_app | ].
        apply NoDup_app. split; [ done | ]. split; [ | apply NoDup_singleton ].
        intros x Hx ->%list_elem_of_singleton. by eapply Hnew.
    + rewrite list_lookup_insert_ne by done. apply (cons_lists s Hcons).
  - destruct Hrev as [(_ & _ & _ & ->)|(_ & _ & Hfind & ->)];
      [ apply (cons_ext_keys s Hcons) | ].
    unfold LLIST_ADD. rewrite fmap_app. apply NoDup_app.
    split; [ apply (cons_ext_keys s Hcons) | ]. split; [ | apply NoDup_singleton ].
    intros x Hx ->%list_elem_of_singleton.
    apply list_elem_of_fmap in Hx as (e & He & Hin). simpl in He.
    apply list_find_None in Hfind. rewrite Forall_forall in Hfind.
    by apply (Hfind e Hin).
  - destruct Hrev as [(_ & _ & _ & ->)|(_ & _ & Hfind & ->)];
      [ apply (cons_ext_vkey s Hcons) | ].
    unfold LLIST_ADD. apply Forall_app. split; [ apply (cons_ext_vkey s Hcons) | ].
    constructor; [ done | constructor ].
  - intros k' v' Hk' [Hget' Hv']. apply (canonical_keynames s s' k' Hkn).
    rewrite Hget in Hget'. case_decide as Heq; [ by subst k' | ].
    by apply (cons_bound s Hcons k' v').
  - intros k' v' name' Hv' Hcan' Hname''.
    apply (canonical_keynames s s' k' Hkn) in Hcan'.
    rewrite (keys_int2str_keynames s s' k' Hkn) in Hname''.
    rewrite Hget, Hkeys. case_decide as Heq.
    + subst k'. assert (name' = name) as -> by congruence.
      destruct (decide (v' = v)) as [->|Hne].
      * rewrite list_lookup_insert_eq by done. split; [ | done ].
        intros _. eexists. split; [ done | ].
        apply elem_of_app. right. by apply list_elem_of_singleton.
      * rewrite list_lookup_insert_ne by (unfold is_vkey in *; lia).
        split; [ congruence | ]. intros (l0 & Hl0 & Hin). by eapply Hnew in Hin.
    + assert (name' ≠ name) as Hnn.
      { intros ->. apply Heq. by eapply canonical_inj. }
      rewrite (lookup_insert_elem _ _ _ l) ; [ by apply (cons_agree s Hcons) | done | ].
      rewrite elem_of_app, elem_of_del_sentinel, list_elem_of_singleton.
      split; [ intros [?|?]; [ done | congruence ] | auto ].
Qed.

(** Removing a key code from the virtual key it is bound to: the call
    returns, and this is the table it leaves. *)
Lemma remove_effect (s : table) (k v : Z) :
  consistent s → 0 ≤ k → bound s k v →
  ∃ l name l' s',
    keys s !! Z.to_nat v = Some l ∧ keys_int2str s k = Ok (Some name) ∧
    Some name ∈ l ∧ (None ∉ l) ∧ NoDup l ∧
    llist_del_str l (Some name) = Ok l' ∧
    keys_remove_binding k v s = Ok s' ∧
    keys s' = <[Z.to_nat v := add_sentinel l']> (keys s) ∧
    keynames s' = keynames s ∧
    (∀ k', keys_get_action s' k' =
           if decide (k' = k) then Ok KEY_UNDEF else keys_get_action s k') ∧
    NoDup (key <$> actions_ext s') ∧
    Forall (λ e, is_vkey (action e)) (actions_ext s') ∧
    ((k ≤ KEY_MAX ∧ actions s' = <[Z.to_nat k := KEY_UNDEF]> (actions s) ∧
      actions_ext s' = actions_ext s) ∨
     (k > KEY_MAX ∧ actions s' = actions s ∧
      ∃ i e, LLIST_FIND_FIRST (actions_ext s) k = Some (i, e) ∧
        actions_ext s' = delete i (actions_ext s))).
Proof.
  intros Hcons Hk [Hget Hv].
  destruct (cons_bound s Hcons k v Hk (conj Hget Hv)) as (name & Hname & Hback).
  assert (canonical s k) as Hcan by (by exists name).
  destruct (proj1 (cons_agree s Hcons k v name Hv Hcan Hname) Hget) as (l & Hl & Hin).
  destruct (cons_lists s Hcons _ _ Hl) as [->|[Hnone Hnodup]];
    [ by apply list_elem_of_singleton in Hin | ].
  destruct (llist_del_str_spec l name Hnone Hnodup) as (l' & Hdel & _).
  assert (array_get (keys s) v = Ok l) as Hgetl
    by (apply array_get_Ok; unfold is_vkey in Hv; split; [ lia | done ]).
  assert (∀ s1, keys s1 = keys s → keynames s1 = keynames s →
    del_key_str v k s1 = Ok (set_keys s1 (<[Z.to_nat v := add_sentinel l']> (keys s))))
    as Hdelkey.
  { intros s1 Hk1 Hn1. rewrite del_key_str_eq.
    rewrite (keys_int2str_keynames s s1 k Hn1), Hname. cbn [mbind result_bind].
    rewrite bool_decide_false by (unfold is_vkey in Hv; lia).
    rewrite Hk1, Hgetl. cbn [mbind result_bind]. by rewrite Hdel. }
  exists l, name, l'.
  unfold keys_remove_binding. rewrite bool_decide_false by lia.
  case_bool_decide as Hext.
  - assert (array_get (actions s) k = Ok v) as Harr.
    { unfold keys_get_action in Hget. by rewrite !bool_decide_false in Hget by lia. }
    rewrite (array_get_set _ _ _ _ Harr). cbn [mbind result_bind].
    rewrite Hdelkey by done. eexists. repeat (split; [ done | ]).
    apply array_get_Ok in Harr as [_ Harr%lookup_lt_Some].
    split; [ | split; [ | split ] ].
    + intros k'. rewrite <- (keys_get_action_insert s k KEY_UNDEF k') by lia.
      by apply keys_get_action_fields.
    + apply (cons_ext_keys s Hcons).
    + apply (cons_ext_vkey s Hcons).
    + by left.
  - assert (∃ i e, LLIST_FIND_FIRST (actions_ext s) k = Some (i, e)) as (i & e & Hfind).
    { unfold keys_get_action in Hget.
      rewrite bool_decide_false, bool_decide_true in Hget by lia.
      destruct (LLIST_FIND_FIRST (actions_ext s) k) as [[i e]|]; [ by eauto | ].
      injection Hget as <-. by apply undef_not_vkey in Hv. }
    rewrite Hfind, Hdelkey by done. eexists. repeat (split; [ done | ]).
    split; [ | split; [ | split ] ].
    + intros k'.
      rewrite <- (keys_get_action_ext_delete s k k' i e) by
        (done || lia || apply (cons_ext_keys s Hcons)).
      by apply keys_get_action_fields.
    + simpl. rewrite list_fmap_delete.
      eapply sublist_NoDup; [ apply (cons_ext_keys s Hcons) | apply sublist_delete ].
    + simpl. apply Forall_delete, (cons_ext_vkey s Hcons).
    + right. split; [ lia | ]. split; [ done | ]. by exists i, e.
Qed.

Lemma consistent_remove (s s' : table) (k v : Z) :
  consistent s → 0 ≤ k → bound s k v →
  keys_remove_binding k v s = Ok s' → consistent s'.
Proof.
  intros Hcons Hk Hbound Hremove.
  destruct (remove_effect s k v Hcons Hk Hbound)
    as (l & name & l' & s'' & Hl & Hname & Hin & Hnone & Hnodup & Hdel & Hrem'
        & Hkeys & Hkn & Hget & Hextk & Hextv & _).
  assert (s'' = s') as -> by congruence.
  destruct (llist_del_str_spec l name Hnone Hnodup) as (l'' & Hdel' & Hnone' & Hnodup' & Hmem & _).
  assert (l'' = l') as -> by congruence.
  assert (canonical s k) as Hcan by (by apply (cons_bound s Hcons k v)).
  assert (Z.to_nat v < length (keys s))%nat as Hlen by (by eapply lookup_lt_Some).
  destruct Hbound as [Hbget Hv].
  split; [ | done | done | | ].
  - intros v0 l0. rewrite Hkeys.
    destruct (decide (v0 = Z.to_nat v)) as [->|Hne].
    + rewrite list_lookup_insert_eq by done. intros [= <-].
      destruct l' as [|j l']; [ by left | by right ].
    + rewrite list_lookup_insert_ne by done. apply (cons_lists s Hcons).
  - intros k' v' Hk' [Hget' Hv']. apply (canonical_keynames s s' k' Hkn).
    rewrite Hget in Hget'. case_decide as Heq.
    + injection Hget' as <-. by apply undef_not_vkey in Hv'.
    + by apply (cons_bound s Hcons k' v').
  - intros k' v' name' Hv' Hcan' Hname'.
    apply (canonical_keynames s s' k' Hkn) in Hcan'.
    rewrite (keys_int2str_keynames s s' k' Hkn) in Hname'.
    rewrite Hget, Hkeys. case_decide as Heq.
    + subst k'. assert (name' = name) as -> by congruence.
      split; [ intros [= <-]; by apply undef_not_vkey in Hv' | ].
      intros (l0 & Hl0 & Hin0). exfalso.
      destruct (decide (v' = v)) as [->|Hne].
      * rewrite list_lookup_insert_eq in Hl0 by done. injection Hl0 as <-.
        apply elem_of_add_sentinel, Hmem in Hin0. by destruct Hin0.
      * rewrite list_lookup_insert_ne in Hl0 by (unfold is_vkey in *; lia).
        assert (keys_get_action s k = Ok v') as Hget'
          by (apply (cons_agree s Hcons k v' name); eauto).
        congruence.
    + assert (name' ≠ name) as Hnn.
      { intros ->. apply Heq. by eapply canonical_inj. }
      rewrite (lookup_insert_elem _ _ _ l); [ by apply (cons_agree s Hcons) | done | ].
      rewrite elem_of_add_sentinel, Hmem. split; [ tauto | ].
      intros Hin'. split; [ done | congruence ].
Qed.

(** Every reachable table is consistent. *)
Lemma reachable_consistent (s : table) : reachable s → consistent s.
Proof.
  induction 1 as [s Hinit|s k v r s' _ IH Hcan Hv Hassign|s k v s' _ IH Hk Hbound Hremove].
  - by apply consistent_init.
  - destruct (assign_result _ _ _ _ _ Hassign) as [->|[_ ->]]; [ | done ].
    by eapply consistent_assign.
  - by eapply consistent_remove.
Qed.

(** C1 (amended).  In every table reached from [keys_init] by assigning
    canonical key codes to virtual keys and by removing key codes from the
    virtual key they are bound to, a canonical key code is in the reverse
    map if and only if its name is in the forward list of exactly one
    virtual key. *)
Theorem reverse_forward_consistent (s : table) (k : Z) :
  reachable s → canonical s k → mutually_consistent s k.
Proof.
  intros Hcons%reachable_consistent Hcan.
  pose proof Hcan as (name & Hname & _).
  unfold mutually_consistent, in_reverse_map, bound, in_forward_list. split.
  - intros (v & Hget & Hv). exists v. split.
    + split; [ done | ].
      destruct (proj1 (cons_agree s Hcons k v name Hv Hcan Hname) Hget) as (l & Hl & Hin).
      by exists name, l.
    + intros v' (Hv' & name' & l' & Hname' & Hl' & Hin').
      assert (name' = name) as -> by congruence.
      assert (keys_get_action s k = Ok v') as Hget'
        by (apply (cons_agree s Hcons k v' name); eauto).
      congruence.
  - intros (v & (Hv & name' & l & Hname' & Hl & Hin) & _).
    assert (name' = name) as -> by congruence.
    exists v. split; [ | done ].
    apply (cons_agree s Hcons k v name); eauto.
Qed.

(** ** Assigning and removing again; removing what is not bound *)

Lemma table_eq (s1 s2 : table) :
  keys s1 = keys s2 → actions s1 = actions s2 →
  actions_ext s1 = actions_ext s2 → keynames s1 = keynames s2 → s1 = s2.
Proof. destruct s1, s2. simpl. by intros -> -> -> ->. Qed.

(** C5 (amended).  On a reachable table, after a successful
    [keys_assign_binding] of a canonical key code [k] to the virtual key
    [v], [keys_remove_binding] of [k] from [v] returns; it gives back the
    table from before the assignment when [v] had a list (names or the
    sentinel), so that an explicitly undefined [v] is explicitly undefined
    again; when [v] was missing, it gives that table with [v] explicitly
    undefined. *)
Theorem assign_remove_round_trip (s s' : table) (k v : Z) :
  reachable s → canonical s k → is_vkey v →
  keys_assign_binding k v s = Ok (0, s') →
  (¬ missing s v → keys_remove_binding k v s' = Ok s) ∧
  (undefined s v → ∃ s'', keys_remove_binding k v s' = Ok s'' ∧ undefined s'' v) ∧
  (missing s v →
   keys_remove_binding k v s' = Ok (set_keys s (<[Z.to_nat v := [None]]> (keys s)))).
Proof.
  intros Hcons%reachable_consistent Hcan Hv Hassign.
  pose proof (canonical_nonneg s k Hcan) as Hk.
  pose proof (consistent_assign s s' k v Hcons Hcan Hv Hassign) as Hcons'.
  destruct (assign_inv s s' k v Hk Hv Hassign)
    as (l & oname & Hfree & Hl & Hname & Hkeys & Hkn & Hget & Hrev).
  pose proof Hcan as (name & Hname' & _).
  assert (oname = Some name) as -> by congruence.
  assert (bound s' k v) as Hbound.
  { split; [ | done ]. by rewrite Hget, decide_True. }
  destruct (remove_effect s' k v Hcons' Hk Hbound)
    as (l1 & name1 & l1' & s'' & Hl1 & Hname1 & _ & _ & _ & Hdel & Hrem
        & Hkeys'' & Hkn'' & _ & _ & _ & Hrev'').
  assert (Z.to_nat v < length (keys s))%nat as Hlen by (by eapply lookup_lt_Some).
  rewrite Hkeys, list_lookup_insert_eq in Hl1 by done. injection Hl1 as <-.
  rewrite (keys_int2str_keynames s s' k Hkn), Hname' in Hname1.
  injection Hname1 as <-.
  assert (Some name ∉ l) as Hfresh
    by exact (free_not_listed s k v name l Hcons Hcan Hname' Hfree Hv Hl).
  assert (l = [None] ∨ None ∉ l) as Hshape
    by (destruct (cons_lists s Hcons _ _ Hl) as [?|[? _]]; auto).
  assert (l1' = del_sentinel l) as ->.
  { rewrite llist_del_str_last in Hdel; [ congruence | | ].
    - destruct Hshape as [->|?];
        [ apply not_elem_of_nil | by rewrite del_sentinel_names ].
    - by rewrite elem_of_del_sentinel. }
  assert (s'' = set_keys s (<[Z.to_nat v := add_sentinel (del_sentinel l)]> (keys s)))
    as ->.
  { apply table_eq; simpl.
    - by rewrite Hkeys'', Hkeys, list_insert_insert_eq.
    - destruct Hrev as [(Hle & Hact & Hundef & _)|(Hext & Hact & _)],
        Hrev'' as [(Hle' & Hact' & _)|(Hext' & Hact' & _)]; try lia.
      + by rewrite Hact', Hact, list_insert_insert_eq, list_insert_id.
      + congruence.
    - destruct Hrev as [(Hle & _ & _ & He)|(Hext & _ & Hfind & He)],
        Hrev'' as [(Hle' & _ & He')|(Hext' & _ & i & e & Hfind' & He')]; try lia.
      + congruence.
      + rewrite He in Hfind'. rewrite (find_first_added _ _ _ Hfind) in Hfind'.
        injection Hfind' as <- <-. rewrite He', He. apply delete_last.
    - congruence. }
  split; [ | split ].
  - intros Hmiss. rewrite Hrem. f_equal.
    rewrite add_del_sentinel; [ | by intros -> | done ].
    by rewrite list_insert_id, set_keys_id.
  - intros Hundef. eexists. split; [ done | ].
    unfold undefined in *. simpl. rewrite list_lookup_insert_eq by done.
    assert (l = [None]) as -> by congruence. done.
  - intros Hmiss. unfold missing in Hmiss.
    assert (l = []) as -> by congruence. done.
Qed.

(** C6 (amended).  [keys_remove_binding] changes nothing when the key code
    is negative; and, on a reachable table, when the canonical key code is
    bound to no virtual key and the virtual key has names in its list. *)
Theorem remove_unbound_noop (s : table) (k v : Z) :
  (k < 0 → keys_remove_binding k v s = Ok s) ∧
  (reachable s → canonical s k → keys_get_action s k = Ok KEY_UNDEF →
   is_vkey v → configured s v → keys_remove_binding k v s = Ok s).
Proof.
  split.
  - intros Hk. unfold keys_remove_binding. by rewrite bool_decide_true.
  - intros Hcons%reachable_consistent Hcan Hfree Hv (l & Hl & Hne & Hnone).
    pose proof (canonical_nonneg s k Hcan) as Hk.
    pose proof Hcan as (name & Hname & _).
    assert (Some name ∉ l) as Hfresh
      by exact (free_not_listed s k v name l Hcons Hcan Hname Hfree Hv Hl).
    assert (del_key_str v k s = Ok s) as Hdelkey.
    { rewrite del_key_str_eq, Hname. cbn [mbind result_bind].
      rewrite bool_decide_false by (unfold is_vkey in Hv; lia).
      assert (array_get (keys s) v = Ok l) as ->
        by (apply array_get_Ok; unfold is_vkey in Hv; split; [ lia | done ]).
      cbn [mbind result_bind].
      destruct (cons_lists s Hcons _ _ Hl) as [->|[_ Hnodup]];
        [ by destruct Hnone; apply list_elem_of_singleton | ].
      destruct (llist_del_str_spec l name Hnone Hnodup) as (l' & -> & _ & _ & _ & Hsame).
      rewrite (Hsame Hfresh). cbn [mbind result_bind].
      destruct l as [|j l]; [ done | ]. simpl.
      by rewrite list_insert_id, set_keys_id. }
    unfold keys_remove_binding, keys_get_action in *.
    rewrite bool_decide_false in * by lia.
    case_bool_decide as Hext.
    + rewrite bool_decide_false by lia.
      destruct (LLIST_FIND_FIRST (actions_ext s) k) as [[i e]|] eqn:Hfind; [ | done ].
      exfalso. injection Hfree as Hfree.
      apply list_find_Some in Hfind as (Hi & _ & _).
      pose proof (cons_ext_vkey s Hcons) as Hall.
      rewrite Forall_forall in Hall.
      specialize (Hall e (list_elem_of_lookup_2 _ _ _ Hi)).
      rewrite Hfree in Hall. by apply undef_not_vkey in Hall.
    + rewrite bool_decide_true by lia.
      rewrite (array_get_set _ _ _ _ Hfree). cbn [mbind result_bind].
      apply array_get_Ok in Hfree as [_ Hfree].
      by rewrite list_insert_id, set_actions_id.
Qed.

End Invariant.

(** ** The loop of [keys_get] ends *)

Section Termination.
Context `{Curses}.

Lemma read_continuation_length (n : nat) (buf win : list Z) :
  (length (read_continuation n buf win).2 ≤ length win)%nat.
Proof.
  revert buf win. induction n as [|n IH]; intros buf win; simpl; [ done | ].
  destruct win as [|u win]; simpl.
  - apply (IH _ []).
  - etrans; [ apply IH | lia ].
Qed.

Lemma keys_wgetch_shorter (win win' : list Z) (ch : Z) :
  keys_wgetch win = (ch, win') → ch ≠ ERR → (length win' < length win)%nat.
Proof.
  unfold keys_wgetch. destruct win as [|u win]; simpl.
  - intros [= <- _] Hne. by destruct Hne.
  - repeat case_bool_decide; try (intros [= <- <-] _; simpl; lia).
    pose proof (read_continuation_length
                  (Z.to_nat (UTF8_LENGTH (u mod 256) - 1)) [u mod 256] win).
    destruct (read_continuation _ _ _) as [buf win2]. simpl in *.
    intros [= <- <-] _. lia.
Qed.

Lemma count_loop_returns (fuel : nat) (count ch : Z) (win : list Z) :
  (length win < fuel)%nat → ∃ r, count_loop fuel count ch win = Ok r.
Proof.
  revert count ch win. induction fuel as [|fuel IH]; intros count ch win Hfuel; [ lia | ].
  simpl. destruct (keys_wgetch win) as [ch' win'] eqn:Hread.
  case_bool_decide as Hdigit; [ | by eauto ].
  apply IH. apply keys_wgetch_shorter in Hread.
  - lia.
  - unfold ERR. change (chr "0") with 48 in Hdigit. change (chr "1") with 49 in Hdigit. lia.
Qed.

(** [keys_get] never runs out of fuel: the budget it gives its loop is
    enough for every input. *)
Lemma keys_get_returns (s : table) (prefix : bool) (win : list Z) :
  keys_get s prefix win ≠ OutOfFuel.
Proof.
  assert (∀ v, keys_get_action s v ≠ OutOfFuel) as Hact.
  { intros v. unfold keys_get_action, array_get.
    repeat (case_bool_decide || case_match); done. }
  unfold keys_get. destruct prefix.
  - destruct (count_loop_returns (S (length win)) 0 (chr "0") win) as ([[c ch] w] & ->);
      [ lia | ].
    cbn [mbind result_bind].
    case_bool_decide.
    + destruct (keys_wgetch w) as [ch1 w2], (keys_wgetch w2) as [ch2 w3].
      cbn [mbind result_bind]. case_bool_decide; [ done | ].
      specialize (Hact ch2). by destruct (keys_get_action s ch2).
    + cbn [mbind result_bind]. case_bool_decide; [ done | ].
      specialize (Hact ch). by destruct (keys_get_action s ch).
  - destruct (keys_wgetch win) as [ch w]. cbn [mbind result_bind].
    case_bool_decide; [ done | ].
    specialize (Hact ch). by destruct (keys_get_action s ch).
Qed.

End Termination.

(** ** The loops of [keys_fill_missing] end *)

Lemma bind_fuel {A B} (m : result A) (f : A → result B) :
  m ≠ OutOfFuel → (∀ a, f a ≠ OutOfFuel) → m ≫= f ≠ OutOfFuel.
Proof. destruct m; simpl; auto. Qed.

Lemma array_get_fuel {A} (a : list A) (i : Z) : array_get a i ≠ OutOfFuel.
Proof. unfold array_get. repeat (case_bool_decide || case_match); done. Qed.

Lemma array_set_fuel {A} (a : list A) (i : Z) (x : A) : array_set a i x ≠ OutOfFuel.
Proof. unfold array_set. case_bool_decide; done. Qed.

Ltac fuel_step :=
  first [ apply array_get_fuel | apply array_set_fuel
        | apply bind_fuel; [ | intros ] | case_bool_decide | case_match | done ].

Lemma lookup_keyname_fuel (kn : list string) (key : string) (idx : list Z) :
  lookup_keyname kn key idx ≠ OutOfFuel.
Proof. induction idx as [|i idx IH]; simpl; repeat fuel_step. Qed.

Lemma take_word_length (p : string) :
  (String.length (take_word p) ≤ String.length p)%nat.
Proof. induction p as [|c p IH]; simpl; [ done | ]. case_match; simpl; lia. Qed.

Lemma skip_white_length (p : string) :
  (String.length (skip_white p) ≤ String.length p)%nat.
Proof. induction p as [|c p IH]; simpl; [ done | ]. case_match; simpl; lia. Qed.

Lemma skip_spaces_length (p : string) :
  (String.length (skip_spaces p) ≤ String.length p)%nat.
Proof. induction p as [|c p IH]; simpl; [ done | ]. case_bool_decide; simpl; lia. Qed.

Lemma advance_length (n : nat) (p : string) :
  (n ≤ String.length p)%nat →
  String.length (advance n p) = (String.length p - n)%nat.
Proof.
  revert p. induction n as [|n IH]; intros p Hn; [ simpl; lia | ].
  destruct p as [|c p]; simpl in *; [ lia | ]. apply IH. lia.
Qed.

Lemma sscanf_s_word (p w : string) :
  sscanf_s p = Some w →
  (0 < String.length w ∧ String.length w ≤ String.length p)%nat.
Proof.
  unfold sscanf_s. pose proof (take_word_length (skip_white p)).
  pose proof (skip_white_length p).
  destruct (take_word (skip_white p)) as [|c w'] eqn:Hw; [ done | ].
  intros [= <-]. simpl in *. lia.
Qed.

Section Fuel.
Context `{Curses}.

Lemma keys_str2int_fuel (s : table) (key : option string) :
  keys_str2int s key ≠ OutOfFuel.
Proof.
  unfold keys_str2int. destruct key as [key|]; [ | done ].
  repeat (case_bool_decide; [ done | ]).
  apply bind_fuel; [ apply lookup_keyname_fuel | ]. intros [i|]; [ done | ].
  apply bind_fuel; [ apply lookup_keyname_fuel | ]. by intros [i|].
Qed.

Lemma keys_int2str_fuel (s : table) (key : Z) : keys_int2str s key ≠ OutOfFuel.
Proof. unfold keys_int2str. repeat fuel_step. Qed.

Lemma add_key_str_fuel (action key : Z) (s : table) :
  add_key_str action key s ≠ OutOfFuel.
Proof.
  rewrite add_key_str_eq. case_bool_decide; [ done | ].
  apply bind_fuel; [ apply array_get_fuel | intros l ].
  apply bind_fuel; [ apply keys_int2str_fuel | done ].
Qed.

Lemma keys_assign_binding_fuel (key action : Z) (s : table) :
  keys_assign_binding key action s ≠ OutOfFuel.
Proof.
  unfold keys_assign_binding.
  repeat first [ apply add_key_str_fuel | fuel_step ].
Qed.

Lemma fill_action_returns (fuel : nat) (i : Z) (p : string) (assign : Z) (s : table) :
  (String.length p < fuel)%nat → fill_action fuel i p assign s ≠ OutOfFuel.
Proof.
  revert p assign s. induction fuel as [|fuel IH]; intros p assign s Hfuel; [ lia | ].
  cbn [fill_action]. pose proof (skip_spaces_length p) as Hskip.
  destruct (sscanf_s (skip_spaces p)) as [w|] eqn:Hw; [ | done ].
  apply sscanf_s_word in Hw as [Hw1 Hw2].
  apply bind_fuel; [ apply keys_str2int_fuel | intros ch ].
  apply bind_fuel; [ apply keys_assign_binding_fuel | intros [r s'] ].
  case_bool_decide; [ done | ]. apply IH. rewrite advance_length; lia.
Qed.

(** [keys_fill_missing] never runs out of fuel. *)
Lemma keys_fill_missing_returns (s : table) : keys_fill_missing s ≠ OutOfFuel.
Proof.
  unfold keys_fill_missing. generalize 0 at 2. revert s.
  induction (seqZ 0 NBVKEYS) as [|i idx IH]; intros s assigned; [ done | ].
  cbn [fill_missing_loop]. apply bind_fuel; [ apply array_get_fuel | intros [|j l] ]; [ | apply IH ].
  apply bind_fuel; [ apply array_get_fuel | intros d ].
  apply bind_fuel; [ apply fill_action_returns; lia | ].
  intros [s'|[assign s']]; [ done | apply IH ].
Qed.

End Fuel.

(** ** Examples on the tables of ncurses *)

Lemma started_reachable : reachable (H := Ncurses.ncurses) Ncurses.started.
Proof. apply reach_init. vm_compute. reflexivity. Qed.

Lemma vkey_quit : is_vkey 4.
Proof. vm_compute. split; congruence. Qed.

Lemma bound_q_reachable :
  reachable (H := Ncurses.ncurses) (Ncurses.assigned (chr "q") 4 Ncurses.started).
Proof.
  apply (reach_assign (H := Ncurses.ncurses) Ncurses.started (chr "q") 4 0).
  - apply started_reachable.
  - exists "q". split; vm_compute; reflexivity.
  - apply vkey_quit.
  - vm_compute. reflexivity.
Qed.

(** When one forward list holds the name of [k] and no other does, exactly
    one virtual key has it. *)
Lemma sole_owner `{Curses} (s : table) (k v : Z) (name : string) (l : list (option string)) :
  is_vkey v → keys_int2str s k = Ok (Some name) →
  keys s !! Z.to_nat v = Some l → Some name ∈ l →
  Forall (λ l', Some name ∉ l') (delete (Z.to_nat v) (keys s)) →
  exists! v', in_forward_list s k v'.
Proof.
  intros Hv Hname Hl Hin Hothers. exists v. split.
  - split; [ done | ]. by exists name, l.
  - intros v' (Hv' & name' & l' & Hname' & Hl' & Hin').
    assert (name' = name) as -> by congruence.
    destruct (decide (v = v')) as [|Hne]; [ done | exfalso ].
    rewrite Forall_forall in Hothers. apply (Hothers l'); [ | done ].
    unfold is_vkey in *.
    destruct (decide (Z.to_nat v' < Z.to_nat v)%nat).
    + apply (list_elem_of_lookup_2 _ (Z.to_nat v')).
      by rewrite list_lookup_delete_lt.
    + apply (list_elem_of_lookup_2 _ (Z.to_nat v' - 1)).
      rewrite list_lookup_delete_ge by lia.
      by replace (S (Z.to_nat v' - 1)) with (Z.to_nat v') by lia.
Qed.

Lemma reverse_forward_consistent_witness :
  let s := Ncurses.assigned (chr "q") 4 Ncurses.started in
  reachable s ∧ canonical s (chr "q") ∧ mutually_consistent s (chr "q").
Proof.
  intros s.
  assert (canonical s (chr "q")) as Hcan
    by (exists "q"; split; vm_compute; reflexivity).
  split; [ apply bound_q_reachable | ]. split; [ exact Hcan | ].
  apply (reverse_forward_consistent (H := Ncurses.ncurses) s (chr "q"));
    [ apply bound_q_reachable | exact Hcan ].
Defined.

Lemma reverse_forward_consistent_counterexample :
  let s1 := Ncurses.assigned (chr "a") 0 Ncurses.started in
  let s2 := Ncurses.removed (chr "a") 1 s1 in
  keys_assign_binding (chr "a") 0 Ncurses.started = Ok (0, s1) ∧
  keys_remove_binding (chr "a") 1 s1 = Ok s2 ∧
  ¬ mutually_consistent s2 (chr "a") ∧
  ¬ mutually_consistent s1 (511 + chr "a").
Proof.
  intros s1 s2.
  split; [ vm_compute; reflexivity | ]. split; [ vm_compute; reflexivity | ].
  assert (is_vkey 0) as Hv0 by (vm_compute; split; congruence).
  split.
  - intros [_ Hback]. destruct Hback as (v & Hget & Hv).
    + apply (sole_owner s2 (chr "a") 0 "a" [Some "a"] Hv0);
        [ vm_compute; reflexivity | vm_compute; reflexivity
        | by apply list_elem_of_singleton | ].
      apply (bool_decide_unpack _). vm_compute. exact I.
    + vm_compute in Hget. injection Hget as <-.
      unfold is_vkey in Hv. vm_compute in Hv. destruct Hv as [_ Hv]. discriminate Hv.
  - intros [_ Hback]. destruct Hback as (v & Hget & Hv).
    + apply (sole_owner s1 (511 + chr "a") 0 "a" [Some "a"] Hv0);
        [ vm_compute; reflexivity | vm_compute; reflexivity
        | by apply list_elem_of_singleton | ].
      apply (bool_decide_unpack _). vm_compute. exact I.
    + vm_compute in Hget. injection Hget as <-.
      unfold is_vkey in Hv. vm_compute in Hv. destruct Hv as [_ Hv]. discriminate Hv.
Qed.

Lemma assign_remove_round_trip_witness :
  let s := Ncurses.assigned (chr "q") 4 Ncurses.started in
  let s' := Ncurses.assigned (chr "Q") 4 s in
  keys_assign_binding (chr "Q") 4 s = Ok (0, s') ∧
  keys_remove_binding (chr "Q") 4 s' = Ok s.
Proof.
  intros s s'.
  assert (keys_assign_binding (chr "Q") 4 s = Ok (0, s')) as Hassign
    by (vm_compute; reflexivity).
  split; [ exact Hassign | ].
  apply (assign_remove_round_trip (H := Ncurses.ncurses) s s' (chr "Q") 4).
  - apply bound_q_reachable.
  - exists "Q". split; vm_compute; reflexivity.
  - apply vkey_quit.
  - exact Hassign.
  - unfold missing. vm_compute. congruence.
Defined.

Lemma assign_remove_round_trip_counterexample :
  let s1 := Ncurses.assigned (chr "q") 4 Ncurses.started in
  let s2 := Ncurses.removed (chr "q") 4 s1 in
  let t1 := Ncurses.assigned (chr "b") 0 (Ncurses.assigned (chr "a") 0 Ncurses.started) in
  let t2 := Ncurses.assigned (511 + chr "a") 0 t1 in
  let t3 := Ncurses.removed (511 + chr "a") 0 t2 in
  (keys_assign_binding (chr "q") 4 Ncurses.started = Ok (0, s1) ∧
   keys_remove_binding (chr "q") 4 s1 = Ok s2 ∧
   keys Ncurses.started !! 4%nat = Some [] ∧
   keys s2 !! 4%nat = Some [None] ∧
   s2 ≠ Ncurses.started) ∧
  (keys_assign_binding (511 + chr "a") 0 t1 = Ok (0, t2) ∧
   keys_remove_binding (511 + chr "a") 0 t2 = Ok t3 ∧
   keys t1 !! 0%nat = Some [Some "a"; Some "b"] ∧
   keys t3 !! 0%nat = Some [Some "b"; Some "a"]).
Proof.
  intros s1 s2 t1 t2 t3. repeat split; try (vm_compute; reflexivity).
  intros Heq. apply (f_equal (λ s, keys s !! 4%nat)) in Heq.
  vm_compute in Heq. discriminate.
Qed.

Lemma remove_unbound_noop_witness :
  let s := Ncurses.assigned (chr "q") 4 Ncurses.started in
  keys_remove_binding (-1) 4 s = Ok s ∧
  keys_remove_binding (chr "x") 4 s = Ok s.
Proof.
  intros s.
  destruct (remove_unbound_noop (H := Ncurses.ncurses) s (-1) 4) as [Hneg _].
  destruct (remove_unbound_noop (H := Ncurses.ncurses) s (chr "x") 4) as [_ Hfree].
  split; [ apply Hneg; lia | ].
  apply Hfree.
  - apply bound_q_reachable.
  - exists "x". split; vm_compute; reflexivity.
  - vm_compute. reflexivity.
  - apply vkey_quit.
  - exists [Some "q"]. split; [ vm_compute; reflexivity | ].
    split; [ done | by intros ?%list_elem_of_singleton ].
Defined.

Lemma remove_unbound_noop_counterexample :
  let s1 := Ncurses.removed (chr "a") 0 Ncurses.started in
  let s2 := Ncurses.assigned (chr "a") 0 Ncurses.started in
  let s3 := Ncurses.removed (chr "a") 1 s2 in
  let s4 := Ncurses.removed (511 + chr "a") 0 s2 in
  (keys_get_action Ncurses.started (chr "a") = Ok 49 ∧
   keys_remove_binding (chr "a") 0 Ncurses.started = Ok s1 ∧
   s1 ≠ Ncurses.started) ∧
  (keys_get_action s2 (chr "a") = Ok 0 ∧
   keys_remove_binding (chr "a") 1 s2 = Ok s3 ∧
   keys_get_action s3 (chr "a") = Ok 49 ∧ s3 ≠ s2) ∧
  (keys_get_action s2 (511 + chr "a") = Ok 49 ∧
   keys s2 !! 0%nat = Some [Some "a"] ∧
   keys_remove_binding (511 + chr "a") 0 s2 = Ok s4 ∧
   keys s4 !! 0%nat = Some [None]).
Proof.
  intros s1 s2 s3 s4. repeat split; try (vm_compute; reflexivity).
  - intros Heq. apply (f_equal (λ s, keys s !! 0%nat)) in Heq.
    vm_compute in Heq. discriminate.
  - intros Heq. apply (f_equal (λ s, keys_get_action s (chr "a"))) in Heq.
    vm_compute in Heq. discriminate.
Qed.

(** * More properties *)

(** ** What an assignment and a removal leave alone *)

Section Frames.
Context `{Curses}.

(** The forward list an assignment leaves, whatever the key code. *)
Lemma assign_keys (s s' : table) (k v : Z) :
  is_vkey v → keys_assign_binding k v s = Ok (0, s') →
  ∃ l name, keys s !! Z.to_nat v = Some l ∧ keys_int2str s k = Ok name ∧
    keys s' = <[Z.to_nat v := del_sentinel l ++ [name]]> (keys s) ∧
    keynames s' = keynames s.
Proof.
  intros Hv Hassign. unfold is_vkey in Hv. unfold keys_assign_binding in Hassign.
  assert (∀ s1, keys s1 = keys s → keynames s1 = keynames s →
            add_key_str v k s1 = Ok s' →
            ∃ l name, keys s !! Z.to_nat v = Some l ∧ keys_int2str s k = Ok name ∧
              keys s' = <[Z.to_nat v := del_sentinel l ++ [name]]> (keys s) ∧
              keynames s' = keynames s) as Hadd.
  { intros s1 Hk1 Hn1 Hadd. rewrite add_key_str_eq, bool_decide_false in Hadd by lia.
    rewrite (keys_int2str_keynames s s1 k Hn1), Hk1 in Hadd. inv_ok.
    eexists _, _. simpl. eauto. }
  repeat case_bool_decide.
  - destruct (LLIST_FIND_FIRST (actions_ext s) k); [ done | ]. inv_ok.
    refine (Hadd _ _ _ Ha); done.
  - inv_ok. case_bool_decide; [ done | ]. inv_ok.
    refine (Hadd _ _ _ Ha1); done.
  - inv_ok. refine (Hadd _ _ _ Ha); done.
Qed.

(** A removal that returns, taken apart; no invariant is assumed. *)
Lemma remove_inv (s s' : table) (k v : Z) :
  0 ≤ k → is_vkey v → keys_remove_binding k v s = Ok s' →
  ∃ l oldstr l',
    keys s !! Z.to_nat v = Some l ∧ keys_int2str s k = Ok oldstr ∧
    llist_del_str l oldstr = Ok l' ∧
    keys s' = <[Z.to_nat v := add_sentinel l']> (keys s) ∧
    keynames s' = keynames s ∧
    ∀ k', k' ≠ k → keys_get_action s' k' = keys_get_action s k'.
Proof.
  intros Hk Hv Hremove. unfold is_vkey in Hv. unfold keys_remove_binding in Hremove.
  rewrite bool_decide_false in Hremove by lia.
  assert (∀ s1, keys s1 = keys s → keynames s1 = keynames s →
            (∀ k', k' ≠ k → keys_get_action s1 k' = keys_get_action s k') →
            del_key_str v k s1 = Ok s' →
            ∃ l oldstr l',
              keys s !! Z.to_nat v = Some l ∧ keys_int2str s k = Ok oldstr ∧
              llist_del_str l oldstr = Ok l' ∧
              keys s' = <[Z.to_nat v := add_sentinel l']> (keys s) ∧
              keynames s' = keynames s ∧
              ∀ k', k' ≠ k → keys_get_action s' k' = keys_get_action s k') as Hdel.
  { intros s1 Hk1 Hn1 Hget Hdel. rewrite del_key_str_eq in Hdel.
    rewrite (keys_int2str_keynames s s1 k Hn1), Hk1 in Hdel. inv_ok.
    rewrite bool_decide_false in Hdel by lia. inv_ok.
    eexists _, _, _. simpl.
    repeat (split; [ done | ]). intros k' Hne. rewrite <- (Hget k' Hne).
    by apply keys_get_action_fields. }
  case_bool_decide as Hext.
  - inv_ok. refine (Hdel _ _ _ _ Hremove); [ done | done | ].
    intros k' Hne. rewrite keys_get_action_insert by lia. by rewrite decide_False.
  - destruct (LLIST_FIND_FIRST (actions_ext s) k) as [[i e]|] eqn:Hfind;
      [ | refine (Hdel _ _ _ _ Hremove); done ].
    refine (Hdel _ _ _ _ Hremove); [ done | done | ].
    intros k' Hne. apply list_find_Some in Hfind as (Hi & Hkey & _).
    unfold key_ext_hasch in Hkey.
    pose proof KEY_MIN_byte. pose proof KEY_MIN_MAX.
    unfold keys_get_action. simpl.
    pose proof (find_first_delete_other (actions_ext s) k k' i e Hi) as Hsame.
    rewrite Hkey in Hsame. specialize (Hsame (not_eq_sym Hne)).
    repeat case_bool_decide; try done.
    destruct (LLIST_FIND_FIRST (delete _ _) k') as [[? ?]|],
      (LLIST_FIND_FIRST (actions_ext s) k') as [[? ?]|]; simpl in *; congruence.
Qed.

(** X1.  A successful [keys_assign_binding] of the key code [k] to the
    virtual key [v] changes the answer of [keys_get_action] for no other
    key code and the forward list of no other virtual key, and leaves the
    cached names alone. *)
Theorem assign_frame (s s' : table) (k v : Z) :
  0 ≤ k → is_vkey v → keys_assign_binding k v s = Ok (0, s') →
  (∀ k', k' ≠ k → keys_get_action s' k' = keys_get_action s k') ∧
  (∀ v', v' ≠ Z.to_nat v → keys s' !! v' = keys s !! v') ∧
  keynames s' = keynames s.
Proof.
  intros Hk Hv Hassign.
  destruct (assign_inv s s' k v Hk Hv Hassign)
    as (l & name & _ & _ & _ & Hkeys & Hkn & Hget & _).
  split; [ | split; [ | done ] ].
  - intros k' Hne. by rewrite Hget, decide_False.
  - intros v' Hne. by rewrite Hkeys, list_lookup_insert_ne.
Qed.

(** X2.  A [keys_remove_binding] of the key code [k] from the virtual key
    [v] that returns changes the answer of [keys_get_action] for no other
    key code and the forward list of no other virtual key, whether or not
    [k] was bound to [v]. *)
Theorem remove_frame (s s' : table) (k v : Z) :
  0 ≤ k → is_vkey v → keys_remove_binding k v s = Ok s' →
  (∀ k', k' ≠ k → keys_get_action s' k' = keys_get_action s k') ∧
  (∀ v', v' ≠ Z.to_nat v → keys s' !! v' = keys s !! v') ∧
  keynames s' = keynames s.
Proof.
  intros Hk Hv Hremove.
  destruct (remove_inv s s' k v Hk Hv Hremove)
    as (l & oldstr & l' & _ & _ & _ & Hkeys & Hkn & Hget).
  split; [ done | ]. split; [ | done ].
  intros v' Hne. by rewrite Hkeys, list_lookup_insert_ne.
Qed.

End Frames.

Lemma assign_frame_witness :
  let s := Ncurses.started in
  let s' := Ncurses.assigned (chr "q") 4 s in
  (∀ k', k' ≠ chr "q" → keys_get_action s' k' = keys_get_action s k') ∧
  (∀ v', v' ≠ 4%nat → keys s' !! v' = keys s !! v') ∧
  keynames s' = keynames s.
Proof.
  intros s s'.
  apply (assign_frame (H := Ncurses.ncurses) s s' (chr "q") 4).
  - vm_compute. congruence.
  - apply vkey_quit.
  - vm_compute. reflexivity.
Defined.

Lemma remove_frame_witness :
  let s := Ncurses.assigned (chr "q") 4 Ncurses.started in
  let s' := Ncurses.removed (chr "q") 4 s in
  (∀ k', k' ≠ chr "q" → keys_get_action s' k' = keys_get_action s k') ∧
  (∀ v', v' ≠ 4%nat → keys s' !! v' = keys s !! v') ∧
  keynames s' = keynames s.
Proof.
  intros s s'.
  apply (remove_frame (H := Ncurses.ncurses) s s' (chr "q") 4).
  - vm_compute. congruence.
  - apply vkey_quit.
  - vm_compute. reflexivity.
Defined.

(** ** Sizes of the tables and the names in the lists *)

Section Shape.
Context `{Curses}.

Lemma llist_del_str_elem (l l' : list (option string)) (oldstr : option string) (x : option string) :
  llist_del_str l oldstr = Ok l' → x ∈ l' → x ∈ l.
Proof.
  revert l'. induction l as [|j l IH]; intros l' Hdel Hin; simpl in Hdel.
  - by inv_ok.
  - destruct j as [a|], oldstr as [b|]; try done.
    case_bool_decide.
    + inv_ok. by apply elem_of_cons; right.
    + inv_ok. apply elem_of_cons in Hin as [->|Hin]; apply elem_of_cons; eauto.
Qed.

(** In a reachable table the arrays have their declared sizes, and every
    name in a forward list is the name of a canonical key code. *)
Lemma reachable_shape (s : table) :
  reachable s →
  length (keys s) = Z.to_nat NBVKEYS ∧
  length (actions s) = Z.to_nat KEY_MAX ∧
  ∀ (v : nat) l name, keys s !! v = Some l → Some name ∈ l →
    ∃ k, canonical s k ∧ keys_int2str s k = Ok (Some name).
Proof.
  induction 1 as [s Hinit|s k v r s' Hreach IH Hcan Hv Hassign
                 |s k v s' Hreach IH Hk Hbound Hremove].
  - destruct (keys_init_fields s Hinit) as (Hkeys & Hact & _).
    rewrite Hkeys, Hact, !length_replicate. split; [ done | ]. split; [ done | ].
    intros v l name [-> _]%lookup_replicate Hin. by apply elem_of_nil in Hin.
  - destruct (assign_result _ _ _ _ _ Hassign) as [->|[_ ->]]; [ | done ].
    destruct IH as (Hlk & Hla & Hnames).
    pose proof (canonical_nonneg s k Hcan) as Hk.
    destruct (assign_inv s s' k v Hk Hv Hassign)
      as (l & oname & _ & Hl & Hname & Hkeys & Hkn & _ & Hrev).
    rewrite Hkeys, length_insert. split; [ done | ]. split.
    { destruct Hrev as [(_ & -> & _)|(_ & -> & _)]; by rewrite ?length_insert. }
    intros v0 l0 name.
    destruct (decide (v0 = Z.to_nat v)) as [->|Hne].
    + rewrite list_lookup_insert_eq by (by eapply lookup_lt_Some).
      intros [= <-] [Hin|Hin%list_elem_of_singleton]%elem_of_app.
      * rewrite elem_of_del_sentinel in Hin.
        destruct (Hnames _ _ _ Hl Hin) as (k0 & Hcan0 & Hname0). exists k0.
        by rewrite (canonical_keynames s s' k0 Hkn), (keys_int2str_keynames s s' k0 Hkn).
      * subst oname. exists k.
        by rewrite (canonical_keynames s s' k Hkn), (keys_int2str_keynames s s' k Hkn).
    + rewrite list_lookup_insert_ne by done. intros Hl0 Hin.
      destruct (Hnames _ _ _ Hl0 Hin) as (k0 & Hcan0 & Hname0). exists k0.
      by rewrite (canonical_keynames s s' k0 Hkn), (keys_int2str_keynames s s' k0 Hkn).
  - destruct IH as (Hlk & Hla & Hnames).
    destruct (remove_effect s k v (reachable_consistent s Hreach) Hk Hbound)
      as (l & name & l' & s'' & Hl & Hname & _ & _ & _ & Hdel & Hrem'
          & Hkeys & Hkn & _ & _ & _ & Hrev).
    assert (s'' = s') as -> by congruence.
    rewrite Hkeys, length_insert. split; [ done | ]. split.
    { destruct Hrev as [(_ & -> & _)|(_ & -> & _)]; by rewrite ?length_insert. }
    intros v0 l0 name0.
    destruct (decide (v0 = Z.to_nat v)) as [->|Hne].
    + rewrite list_lookup_insert_eq by (by eapply lookup_lt_Some).
      intros [= <-] Hin. rewrite elem_of_add_sentinel in Hin.
      apply (llist_del_str_elem _ _ _ _ Hdel) in Hin.
      destruct (Hnames _ _ _ Hl Hin) as (k0 & Hcan0 & Hname0). exists k0.
      by rewrite (canonical_keynames s s' k0 Hkn), (keys_int2str_keynames s s' k0 Hkn).
    + rewrite list_lookup_insert_ne by done. intros Hl0 Hin.
      destruct (Hnames _ _ _ Hl0 Hin) as (k0 & Hcan0 & Hname0). exists k0.
      by rewrite (canonical_keynames s s' k0 Hkn), (keys_int2str_keynames s s' k0 Hkn).
Qed.

Lemma vkey_list (s : table) (v : Z) :
  reachable s → is_vkey v → ∃ l, keys s !! Z.to_nat v = Some l.
Proof.
  intros (Hlen & _)%reachable_shape Hv. apply lookup_lt_is_Some_2.
  unfold is_vkey in Hv. lia.
Qed.

(** An unbound canonical key code can be assigned. *)
Lemma assign_free_ok (s : table) (k v : Z) :
  reachable s → canonical s k → is_vkey v →
  keys_get_action s k = Ok KEY_UNDEF →
  ∃ s', keys_assign_binding k v s = Ok (0, s').
Proof.
  intros Hreach Hcan Hv Hfree.
  pose proof (canonical_nonneg s k Hcan) as Hk.
  destruct Hcan as (name & Hname & _).
  destruct (vkey_list s v Hreach Hv) as (l & Hl).
  assert (∀ s1, keys s1 = keys s → keynames s1 = keynames s →
            ∃ s', add_key_str v k s1 = Ok s') as Hadd.
  { intros s1 Hk1 Hn1. rewrite add_key_str_eq.
    rewrite bool_decide_false by (unfold is_vkey in Hv; lia).
    rewrite (keys_int2str_keynames s s1 k Hn1), Hk1, Hname.
    assert (array_get (keys s) v = Ok l) as ->
      by (apply array_get_Ok; unfold is_vkey in Hv; split; [ lia | done ]).
    simpl. by eauto. }
  unfold keys_assign_binding, keys_get_action in *.
  rewrite bool_decide_false in Hfree by lia.
  case_bool_decide as Hext.
  - destruct (LLIST_FIND_FIRST (actions_ext s) k) as [[i e]|] eqn:Hfind.
    + exfalso. injection Hfree as Hfree.
      apply list_find_Some in Hfind as (Hi & _ & _).
      pose proof (cons_ext_vkey s (reachable_consistent s Hreach)) as Hall.
      rewrite Forall_forall in Hall.
      specialize (Hall e (list_elem_of_lookup_2 _ _ _ Hi)).
      rewrite Hfree in Hall. by apply undef_not_vkey in Hall.
    + edestruct Hadd as (s' & ->); [ | | by eauto ]; done.
  - rewrite bool_decide_true by lia. rewrite Hfree. cbn [mbind result_bind].
    rewrite bool_decide_false by (intros Hne; by apply Hne).
    rewrite (array_get_set _ _ _ _ Hfree). cbn [mbind result_bind].
    edestruct Hadd as (s' & ->); [ | | by eauto ]; done.
Qed.

(** X3.  On a reachable table, [keys_assign_binding] of a canonical key
    code to a virtual key fails only by conflict: it returns 0 and binds
    the key when [keys_get_action] finds the key unbound, and returns 1
    with the table unchanged when the key is bound. *)
Theorem assign_succeeds_iff_unbound (s : table) (k v a : Z) :
  reachable s → canonical s k → is_vkey v → keys_get_action s k = Ok a →
  (a = KEY_UNDEF →
   ∃ s', keys_assign_binding k v s = Ok (0, s') ∧ keys_get_action s' k = Ok v) ∧
  (a ≠ KEY_UNDEF → keys_assign_binding k v s = Ok (1, s)).
Proof.
  intros Hreach Hcan Hv Hget. pose proof (canonical_nonneg s k Hcan) as Hk.
  split; intros Ha.
  - subst a. destruct (assign_free_ok s k v Hreach Hcan Hv Hget) as (s' & Hassign).
    exists s'. split; [ done | ].
    destruct (assign_inv s s' k v Hk Hv Hassign) as (_ & _ & _ & _ & _ & _ & _ & Hget' & _).
    by rewrite Hget', decide_True.
  - unfold keys_assign_binding, keys_get_action in *.
    rewrite bool_decide_false in Hget by lia.
    case_bool_decide.
    + destruct (LLIST_FIND_FIRST (actions_ext s) k) as [[i e]|]; [ done | congruence ].
    + rewrite bool_decide_true by lia. rewrite Hget. cbn [mbind result_bind].
      by rewrite bool_decide_true.
Qed.

(** X4.  On a reachable table a key code bound to [v] can be moved:
    [keys_remove_binding] from [v] returns, after it [keys_assign_binding]
    to any virtual key [v'] returns 0, and [keys_get_action] then answers
    [v']. *)
Theorem remove_then_assign (s : table) (k v v' : Z) :
  reachable s → 0 ≤ k → bound s k v → is_vkey v' →
  ∃ s1 s2, keys_remove_binding k v s = Ok s1 ∧
    keys_assign_binding k v' s1 = Ok (0, s2) ∧
    keys_get_action s2 k = Ok v'.
Proof.
  intros Hreach Hk Hbound Hv'.
  pose proof (reachable_consistent s Hreach) as Hcons.
  destruct (remove_effect s k v Hcons Hk Hbound)
    as (l & name & l' & s1 & _ & _ & _ & _ & _ & _ & Hrem & _ & Hkn & Hget & _).
  assert (reachable s1) as Hreach1 by (by eapply reach_remove).
  assert (canonical s1 k) as Hcan1.
  { apply (canonical_keynames s s1 k Hkn). by apply (cons_bound s Hcons k v). }
  assert (keys_get_action s1 k = Ok KEY_UNDEF) as Hfree
    by (by rewrite Hget, decide_True).
  destruct (assign_free_ok s1 k v' Hreach1 Hcan1 Hv' Hfree) as (s2 & Hassign).
  exists s1, s2. split; [ done | ]. split; [ done | ].
  destruct (assign_inv s1 s2 k v' Hk Hv' Hassign) as (_ & _ & _ & _ & _ & _ & _ & Hget' & _).
  by rewrite Hget', decide_True.
Qed.

End Shape.

Lemma assign_succeeds_iff_unbound_witness :
  let s := Ncurses.assigned (chr "q") 4 Ncurses.started in
  (∃ s', keys_assign_binding (chr "Q") 4 s = Ok (0, s') ∧
         keys_get_action s' (chr "Q") = Ok 4) ∧
  keys_assign_binding (chr "q") 7 s = Ok (1, s).
Proof.
  intros s. split.
  - apply (assign_succeeds_iff_unbound (H := Ncurses.ncurses) s (chr "Q") 4 49).
    + apply bound_q_reachable.
    + exists "Q". split; vm_compute; reflexivity.
    + apply vkey_quit.
    + vm_compute. reflexivity.
    + reflexivity.
  - apply (assign_succeeds_iff_unbound (H := Ncurses.ncurses) s (chr "q") 7 4).
    + apply bound_q_reachable.
    + exists "q". split; vm_compute; reflexivity.
    + vm_compute. split; congruence.
    + vm_compute. reflexivity.
    + vm_compute. congruence.
Defined.

Lemma remove_then_assign_witness :
  let s := Ncurses.assigned (chr "q") 4 Ncurses.started in
  ∃ s1 s2, keys_remove_binding (chr "q") 4 s = Ok s1 ∧
    keys_assign_binding (chr "q") 7 s1 = Ok (0, s2) ∧
    keys_get_action s2 (chr "q") = Ok 7.
Proof.
  intros s.
  apply (remove_then_assign (H := Ncurses.ncurses) s (chr "q") 4 7).
  - apply bound_q_reachable.
  - vm_compute. congruence.
  - split; [ vm_compute; reflexivity | apply vkey_quit ].
  - vm_compute. split; congruence.
Defined.

(** ** No key: the code -1 *)

Section NoKey.
Context `{Curses}.

(** X5.  [keys_assign_binding] of the code -1 (the code of a null name) to
    a virtual key without names never meets a conflict: it returns 0,
    leaves the virtual key explicitly undefined and the reverse map as it
    was, and a second call changes nothing more. *)
Theorem assign_no_key (s : table) (v : Z) :
  is_vkey v → missing s v ∨ undefined s v →
  ∃ s', keys_assign_binding (-1) v s = Ok (0, s') ∧
    undefined s' v ∧
    actions s' = actions s ∧ actions_ext s' = actions_ext s ∧
    keys_assign_binding (-1) v s' = Ok (0, s').
Proof.
  intros Hv Hstate. pose proof KEY_MIN_byte. pose proof KEY_MIN_MAX.
  assert (∀ s0 l, keys s0 !! Z.to_nat v = Some l → l = [] ∨ l = [None] →
    keys_assign_binding (-1) v s0 =
      Ok (0, set_keys s0 (<[Z.to_nat v := [None]]> (keys s0)))) as Hstep.
  { intros s0 l Hl Hshape. unfold keys_assign_binding.
    rewrite !bool_decide_false by lia. rewrite add_key_str_eq.
    rewrite bool_decide_false by (unfold is_vkey in Hv; lia).
    assert (array_get (keys s0) v = Ok l) as ->
      by (apply array_get_Ok; unfold is_vkey in Hv; split; [ lia | done ]).
    unfold keys_int2str. rewrite bool_decide_true by done. simpl.
    by destruct Hshape as [-> | ->]. }
  assert (∃ l, keys s !! Z.to_nat v = Some l ∧ (l = [] ∨ l = [None])) as (l & Hl & Hshape)
    by (destruct Hstate; eauto).
  assert (Z.to_nat v < length (keys s))%nat as Hlen by (by eapply lookup_lt_Some).
  eexists. split; [ by eapply Hstep | ].
  assert (undefined (set_keys s (<[Z.to_nat v := [None]]> (keys s))) v) as Hundef
    by (unfold undefined; simpl; by apply list_lookup_insert_eq).
  split; [ done | ]. split; [ done | ]. split; [ done | ].
  rewrite (Hstep _ [None] Hundef) by auto. simpl.
  by rewrite list_insert_insert_eq.
Qed.

End NoKey.

Lemma assign_no_key_witness :
  ∃ s', keys_assign_binding (-1) 4 Ncurses.started = Ok (0, s') ∧
    undefined s' 4 ∧
    actions s' = actions Ncurses.started ∧
    actions_ext s' = actions_ext Ncurses.started ∧
    keys_assign_binding (-1) 4 s' = Ok (0, s').
Proof.
  apply (assign_no_key (H := Ncurses.ncurses)).
  - apply vkey_quit.
  - left. vm_compute. reflexivity.
Defined.

(** ** What is shown of a virtual key *)

Lemma string_append_assoc (a b c : string) : (a +:+ b) +:+ c = a +:+ b +:+ c.
Proof.
  induction a as [|x a IH]; [ done | ].
  change (String x ((a +:+ b) +:+ c) = String x (a +:+ b +:+ c)). by rewrite IH.
Qed.

Lemma string_append_cons (x : ascii) (a b : string) :
  String x a +:+ b = String x (a +:+ b).
Proof. done. Qed.

Lemma ends_with_space_not_undefined (r : string) : r +:+ " " ≠ "UNDEFINED".
Proof.
  do 9 (destruct r as [|? r];
    [ discriminate
    | rewrite string_append_cons; intros [= _ Heq]; revert Heq ]).
  destruct r; discriminate.
Qed.

(** On a list of names the loop of [keys_action_allkeys] returns, and what
    it builds ends with a space. *)
Lemma catf_names_names (l : list (option string)) (acc : string) :
  None ∉ l → ∃ r, catf_names l acc = Ok r ∧ (l ≠ [] → ∃ r', r = r' +:+ " ").
Proof.
  revert acc. induction l as [|[n|] l IH]; intros acc Hnone.
  - by exists acc.
  - apply not_elem_of_cons in Hnone as [_ Hnone].
    destruct (IH (acc +:+ n +:+ " ") Hnone) as (r & Hr & Hspace).
    exists r. split; [ done | ]. intros _.
    destruct l as [|j l]; [ | by apply Hspace ].
    simpl in Hr. injection Hr as <-. exists (acc +:+ n).
    by rewrite string_append_assoc.
  - exfalso. apply Hnone. by apply elem_of_cons; left.
Qed.

Lemma llist_del_str_length (l l' : list (option string)) (name : string) :
  Some name ∈ l → llist_del_str l (Some name) = Ok l' →
  length l = S (length l').
Proof.
  revert l'. induction l as [|j l IH]; intros l' Hin Hdel.
  - by apply elem_of_nil in Hin.
  - simpl in Hdel. destruct j as [a|]; [ | done ].
    case_bool_decide as Heq.
    + by inv_ok.
    + inv_ok. simpl. f_equal. apply IH; [ | done ].
      apply elem_of_cons in Hin as [?|?]; [ congruence | done ].
Qed.

Section ShownFacts.
Context `{Curses}.

Lemma vkey_array_get (s : table) (v : Z) (l : list (option string)) :
  is_vkey v → keys s !! Z.to_nat v = Some l → array_get (keys s) v = Ok l.
Proof.
  intros Hv Hl. apply array_get_Ok. unfold is_vkey in Hv. split; [ lia | done ].
Qed.

(** The forward list of a virtual key in a reachable table: empty, the
    sentinel alone, or names without repetition. *)
Lemma reachable_list (s : table) (v : Z) :
  reachable s → is_vkey v →
  ∃ l, keys s !! Z.to_nat v = Some l ∧
    (l = [] ∨ l = [None] ∨ ∃ n t, l = Some n :: t ∧ (None ∉ l) ∧ NoDup l).
Proof.
  intros Hreach Hv. destruct (vkey_list s v Hreach Hv) as (l & Hl).
  exists l. split; [ done | ].
  destruct (cons_lists s (reachable_consistent s Hreach) _ _ Hl) as [->|[Hnone Hnodup]];
    [ by auto | ].
  destruct l as [|[n|] t]; [ by auto | by eauto 10 | ].
  exfalso. apply Hnone. by apply elem_of_cons; left.
Qed.

(** X6.  On a reachable table a successful [keys_assign_binding] of a
    canonical key code to the virtual key [v] raises
    [keys_action_count_keys] of [v] by one. *)
Theorem count_keys_assign (s s' : table) (k v : Z) :
  reachable s → canonical s k → is_vkey v →
  keys_assign_binding k v s = Ok (0, s') →
  ∃ n, keys_action_count_keys v s = Ok n ∧
    keys_action_count_keys v s' = Ok (n + 1).
Proof.
  intros Hreach Hcan Hv Hassign.
  destruct (reachable_list s v Hreach Hv) as (l & Hl & Hshape).
  destruct (assign_keys s s' k v Hv Hassign) as (l0 & oname & Hl0 & Hname & Hkeys & _).
  assert (l0 = l) as -> by congruence.
  destruct Hcan as (name & Hname' & _).
  assert (oname = Some name) as -> by congruence.
  assert (keys s' !! Z.to_nat v = Some (del_sentinel l ++ [Some name])) as Hl'.
  { rewrite Hkeys. apply list_lookup_insert_eq. by eapply lookup_lt_Some. }
  unfold keys_action_count_keys.
  rewrite (vkey_array_get s v l Hv Hl), (vkey_array_get s' v _ Hv Hl').
  cbn [mbind result_bind].
  destruct Hshape as [->|[->|(n & t & -> & _)]]; simpl.
  - by exists 0.
  - by exists 0.
  - eexists. split; [ done | ]. f_equal. rewrite length_app. simpl. lia.
Qed.

(** X7.  On a reachable table [keys_remove_binding] of a key code from the
    virtual key [v] it is bound to returns and lowers
    [keys_action_count_keys] of [v], which was at least one, by one. *)
Theorem count_keys_remove (s : table) (k v : Z) :
  reachable s → 0 ≤ k → bound s k v →
  ∃ s' n, keys_remove_binding k v s = Ok s' ∧ 1 ≤ n ∧
    keys_action_count_keys v s = Ok n ∧
    keys_action_count_keys v s' = Ok (n - 1).
Proof.
  intros Hreach Hk Hbound. pose proof Hbound as [_ Hv].
  destruct (remove_effect s k v (reachable_consistent s Hreach) Hk Hbound)
    as (l & name & l' & s' & Hl & Hname & Hin & Hnone & Hnodup & Hdel & Hrem
        & Hkeys & _).
  destruct (llist_del_str_spec l name Hnone Hnodup) as (l'' & Hdel' & Hnone' & _).
  assert (l'' = l') as -> by congruence.
  pose proof (llist_del_str_length l l' name Hin Hdel) as Hlen.
  assert (keys s' !! Z.to_nat v = Some (add_sentinel l')) as Hl'.
  { rewrite Hkeys. apply list_lookup_insert_eq. by eapply lookup_lt_Some. }
  exists s', (Z.of_nat (length l)). split; [ done | ]. split; [ lia | ].
  unfold keys_action_count_keys.
  rewrite (vkey_array_get s v l Hv Hl), (vkey_array_get s' v _ Hv Hl').
  cbn [mbind result_bind]. split.
  - destruct l as [|[n|] t]; [ by apply elem_of_nil in Hin | done | ].
    exfalso. apply Hnone. by apply elem_of_cons; left.
  - destruct l' as [|[n|] t]; simpl in *.
    + f_equal. lia.
    + f_equal. lia.
    + exfalso. apply Hnone'. by apply elem_of_cons; left.
Qed.

(** X8.  The first key of a virtual key is kept: after a successful
    [keys_assign_binding] to a virtual key whose list starts with a name,
    [keys_action_firstkey] still gives that name; to a virtual key that is
    missing or explicitly undefined, it gives the name of the new key. *)
Theorem firstkey_assign (s s' : table) (k v : Z) :
  is_vkey v → keys_assign_binding k v s = Ok (0, s') →
  (∀ n t, keys s !! Z.to_nat v = Some (Some n :: t) →
     keys_action_firstkey v s = Ok n ∧ keys_action_firstkey v s' = Ok n) ∧
  (missing s v ∨ undefined s v →
   ∀ name, keys_int2str s k = Ok (Some name) →
     keys_action_firstkey v s = Ok "XXX" ∧ keys_action_firstkey v s' = Ok name).
Proof.
  intros Hv Hassign.
  destruct (assign_keys s s' k v Hv Hassign) as (l & oname & Hl & Hname & Hkeys & _).
  assert (keys s' !! Z.to_nat v = Some (del_sentinel l ++ [oname])) as Hl'.
  { rewrite Hkeys. apply list_lookup_insert_eq. by eapply lookup_lt_Some. }
  unfold keys_action_firstkey.
  rewrite (vkey_array_get s v l Hv Hl), (vkey_array_get s' v _ Hv Hl').
  cbn [mbind result_bind]. split.
  - intros n t Hnt. assert (l = Some n :: t) as -> by congruence. done.
  - intros Hstate name Hname'. assert (oname = Some name) as -> by congruence.
    unfold missing, undefined in Hstate.
    assert (l = [] ∨ l = [None]) as [->| ->] by (destruct Hstate; [ left | right ]; congruence);
      done.
Qed.

(** X9.  On a reachable table every name that [keys_action_nkey] lists for
    a virtual key [v] is read by [keys_str2int] as a key code that
    [keys_get_action] maps back to [v]. *)
Theorem listed_key_bound (s : table) (v i : Z) (name : string) :
  reachable s → is_vkey v →
  keys_action_nkey v i s = Ok (Some name) →
  ∃ k, keys_str2int s (Some name) = Ok k ∧ keys_get_action s k = Ok v.
Proof.
  intros Hreach Hv Hnkey.
  destruct (vkey_list s v Hreach Hv) as (l & Hl).
  unfold keys_action_nkey, LLIST_NTH in Hnkey.
  rewrite (vkey_array_get s v l Hv Hl) in Hnkey. cbn [mbind result_bind] in Hnkey.
  destruct (l !! Z.to_nat i) as [data|] eqn:Hi; [ | done ].
  injection Hnkey as ->.
  apply list_elem_of_lookup_2 in Hi.
  destruct (reachable_shape s Hreach) as (_ & _ & Hnames).
  destruct (Hnames _ _ _ Hl Hi) as (k & Hcan & Hname).
  pose proof Hcan as (name' & Hname' & Hback).
  assert (name' = name) as -> by congruence.
  exists k. split; [ done | ].
  apply (cons_agree s (reachable_consistent s Hreach) k v name Hv Hcan Hname).
  by exists l.
Qed.

(** X10.  On a reachable table [keys_action_allkeys] returns for every
    virtual key, and what it returns is the word UNDEFINED exactly when
    [keys_action_count_keys] is 0. *)
Theorem allkeys_undefined_iff (s : table) (v : Z) :
  reachable s → is_vkey v →
  ∃ str, keys_action_allkeys v s = Ok str ∧
    (str = "UNDEFINED" ↔ keys_action_count_keys v s = Ok 0).
Proof.
  intros Hreach Hv.
  destruct (reachable_list s v Hreach Hv) as (l & Hl & Hshape).
  unfold keys_action_allkeys, keys_action_count_keys.
  rewrite (vkey_array_get s v l Hv Hl). cbn [mbind result_bind].
  destruct Hshape as [->|[->|(n & t & -> & Hnone & _)]].
  - by exists "UNDEFINED".
  - by exists "UNDEFINED".
  - destruct (catf_names_names (Some n :: t) EmptyString Hnone) as (r & Hr & Hspace).
    exists r. split; [ done | ].
    destruct Hspace as (r' & ->); [ done | ]. split.
    + intros Heq. by apply ends_with_space_not_undefined in Heq.
    + intros [=].
Qed.

End ShownFacts.

Lemma count_keys_assign_witness :
  let s := Ncurses.assigned (chr "q") 4 Ncurses.started in
  let s' := Ncurses.assigned (chr "Q") 4 s in
  ∃ n, keys_action_count_keys 4 s = Ok n ∧
    keys_action_count_keys 4 s' = Ok (n + 1).
Proof.
  intros s s'.
  apply (count_keys_assign (H := Ncurses.ncurses) s s' (chr "Q") 4).
  - apply bound_q_reachable.
  - exists "Q". split; vm_compute; reflexivity.
  - apply vkey_quit.
  - vm_compute. reflexivity.
Defined.

Lemma count_keys_remove_witness :
  let s := Ncurses.assigned (chr "q") 4 Ncurses.started in
  ∃ s' n, keys_remove_binding (chr "q") 4 s = Ok s' ∧ 1 ≤ n ∧
    keys_action_count_keys 4 s = Ok n ∧
    keys_action_count_keys 4 s' = Ok (n - 1).
Proof.
  intros s.
  apply (count_keys_remove (H := Ncurses.ncurses) s (chr "q") 4).
  - apply bound_q_reachable.
  - vm_compute. congruence.
  - split; [ vm_compute; reflexivity | apply vkey_quit ].
Defined.

Lemma firstkey_assign_witness :
  let s := Ncurses.assigned (chr "q") 4 Ncurses.started in
  let s' := Ncurses.assigned (chr "Q") 4 s in
  keys_action_firstkey 4 s = Ok "q" ∧ keys_action_firstkey 4 s' = Ok "q".
Proof.
  intros s s'.
  destruct (firstkey_assign (H := Ncurses.ncurses) s s' (chr "Q") 4) as [Hfirst _].
  - apply vkey_quit.
  - vm_compute. reflexivity.
  - apply (Hfirst "q" []). vm_compute. reflexivity.
Defined.

Lemma listed_key_bound_witness :
  let s := Ncurses.assigned (chr "q") 4 Ncurses.started in
  ∃ k, keys_str2int s (Some "q") = Ok k ∧ keys_get_action s k = Ok 4.
Proof.
  intros s.
  apply (listed_key_bound (H := Ncurses.ncurses) s 4 0 "q").
  - apply bound_q_reachable.
  - apply vkey_quit.
  - vm_compute. reflexivity.
Defined.

Lemma allkeys_undefined_iff_witness :
  let s := Ncurses.assigned (chr "q") 4 Ncurses.started in
  ∃ str, keys_action_allkeys 4 s = Ok str ∧
    (str = "UNDEFINED" ↔ keys_action_count_keys 4 s = Ok 0).
Proof.
  intros s.
  apply (allkeys_undefined_iff (H := Ncurses.ncurses) s 4).
  - apply bound_q_reachable.
  - apply vkey_quit.
Defined.

(** ** Missing and undefined virtual keys *)

Section Checks.
Context `{Curses}.

Lemma vkey_seqZ (v : Z) : v ∈ seqZ 0 NBVKEYS ↔ is_vkey v.
Proof. rewrite elem_of_seqZ. unfold is_vkey. lia. Qed.

Lemma check_missing_loop_spec (s : table) (idx : list Z) :
  Forall (λ i, 0 ≤ i < Z.of_nat (length (keys s))) idx →
  ∃ r, check_missing_loop s idx = Ok r ∧
    ((r = 1 ∧ ∃ i, i ∈ idx ∧ missing s i) ∨
     (r = 0 ∧ ∀ i, i ∈ idx → ¬ missing s i)).
Proof.
  induction idx as [|i idx IH]; intros Hidx.
  - exists 0. split; [ done | ]. right. split; [ done | ].
    by intros i ?%elem_of_nil.
  - apply Forall_cons in Hidx as [Hi Hidx]. cbn [check_missing_loop].
    destruct (lookup_lt_is_Some_2 (keys s) (Z.to_nat i)) as [l Hl]; [ lia | ].
    assert (array_get (keys s) i = Ok l) as -> by (apply array_get_Ok; split; [ lia | done ]).
    cbn [mbind result_bind]. destruct l as [|j l].
    + exists 1. split; [ done | ]. left. split; [ done | ].
      exists i. split; [ by apply elem_of_cons; left | done ].
    + destruct (IH Hidx) as (r & -> & Hr). exists r. split; [ done | ].
      destruct Hr as [(-> & i' & Hin & Hmiss)|(-> & Hnone)].
      * left. split; [ done | ]. exists i'. split; [ by apply elem_of_cons; right | done ].
      * right. split; [ done | ]. intros i' [->|Hin]%elem_of_cons; [ | by apply Hnone ].
        unfold missing. by rewrite Hl.
Qed.

Lemma check_undefined_loop_spec (s : table) (idx : list Z) :
  Forall (λ i, 0 ≤ i < Z.of_nat (length (keys s))) idx →
  ∃ r, check_undefined_loop s idx = Ok r ∧
    ((r = 1 ∧ ∃ i, i ∈ idx ∧ keys_action_count_keys i s = Ok 0) ∨
     (r = 0 ∧ ∀ i, i ∈ idx → ∃ n, keys_action_count_keys i s = Ok n ∧ 1 ≤ n)).
Proof.
  induction idx as [|i idx IH]; intros Hidx.
  - exists 0. split; [ done | ]. right. split; [ done | ].
    by intros i ?%elem_of_nil.
  - apply Forall_cons in Hidx as [Hi Hidx]. cbn [check_undefined_loop].
    destruct (lookup_lt_is_Some_2 (keys s) (Z.to_nat i)) as [l Hl]; [ lia | ].
    assert (array_get (keys s) i = Ok l) as Hget
      by (apply array_get_Ok; split; [ lia | done ]).
    rewrite Hget. cbn [mbind result_bind].
    assert (∀ n t, l = Some n :: t →
      ∃ r, check_undefined_loop s idx = Ok r ∧
        ((r = 1 ∧ ∃ i0, i0 ∈ i :: idx ∧ keys_action_count_keys i0 s = Ok 0) ∨
         (r = 0 ∧ ∀ i0, i0 ∈ i :: idx →
            ∃ n, keys_action_count_keys i0 s = Ok n ∧ 1 ≤ n))) as Hnext.
    { intros n t ->. destruct (IH Hidx) as (r & -> & Hr). exists r. split; [ done | ].
      destruct Hr as [(-> & i' & Hin & Hzero)|(-> & Hall)].
      - left. split; [ done | ]. exists i'. split; [ by apply elem_of_cons; right | done ].
      - right. split; [ done | ]. intros i' [->|Hin]%elem_of_cons; [ | by apply Hall ].
        unfold keys_action_count_keys. rewrite Hget. cbn [mbind result_bind].
        eexists. split; [ done | ]. simpl length. lia. }
    assert (keys_action_count_keys i s = Ok 0 →
      ∃ r, Ok 1 = Ok r ∧
        ((r = 1 ∧ ∃ i0, i0 ∈ i :: idx ∧ keys_action_count_keys i0 s = Ok 0) ∨
         (r = 0 ∧ ∀ i0, i0 ∈ i :: idx →
            ∃ n, keys_action_count_keys i0 s = Ok n ∧ 1 ≤ n))) as Hstop.
    { intros Hzero. exists 1. split; [ done | ]. left. split; [ done | ].
      exists i. split; [ by apply elem_of_cons; left | done ]. }
    destruct l as [|[n|] t].
    + apply Hstop. unfold keys_action_count_keys. by rewrite Hget.
    + by eapply Hnext.
    + apply Hstop. unfold keys_action_count_keys. by rewrite Hget.
Qed.

Lemma vkeys_in_table (s : table) :
  length (keys s) = Z.to_nat NBVKEYS →
  Forall (λ i, 0 ≤ i < Z.of_nat (length (keys s))) (seqZ 0 NBVKEYS).
Proof.
  intros Hlen. apply Forall_forall. intros i Hi%elem_of_seqZ. lia.
Qed.

(** X11.  With one forward list per virtual key, [keys_check_missing]
    returns 1 when some virtual key is missing (its list is empty) and 0
    when none is. *)
Theorem keys_check_missing_spec (s : table) :
  length (keys s) = Z.to_nat NBVKEYS →
  (keys_check_missing s = Ok 1 ∧ ∃ v, is_vkey v ∧ missing s v) ∨
  (keys_check_missing s = Ok 0 ∧ ∀ v, is_vkey v → ¬ missing s v).
Proof.
  intros Hlen. unfold keys_check_missing.
  destruct (check_missing_loop_spec s (seqZ 0 NBVKEYS) (vkeys_in_table s Hlen))
    as (r & -> & [(-> & v & Hv & Hmiss)|(-> & Hnone)]).
  - left. split; [ done | ]. exists v. by rewrite <- vkey_seqZ.
  - right. split; [ done | ]. intros v Hv. by apply Hnone, vkey_seqZ.
Qed.

(** X12.  With one forward list per virtual key, [keys_check_undefined]
    returns 1 when [keys_action_count_keys] is 0 for some virtual key and 0
    when every virtual key counts at least one key. *)
Theorem keys_check_undefined_spec (s : table) :
  length (keys s) = Z.to_nat NBVKEYS →
  (keys_check_undefined s = Ok 1 ∧
   ∃ v, is_vkey v ∧ keys_action_count_keys v s = Ok 0) ∨
  (keys_check_undefined s = Ok 0 ∧
   ∀ v, is_vkey v → ∃ n, keys_action_count_keys v s = Ok n ∧ 1 ≤ n).
Proof.
  intros Hlen. unfold keys_check_undefined.
  destruct (check_undefined_loop_spec s (seqZ 0 NBVKEYS) (vkeys_in_table s Hlen))
    as (r & -> & [(-> & v & Hv & Hzero)|(-> & Hall)]).
  - left. split; [ done | ]. exists v. by rewrite <- vkey_seqZ.
  - right. split; [ done | ]. intros v Hv. by apply Hall, vkey_seqZ.
Qed.

Lemma check_missing_undefined_loop (s : table) (idx : list Z) :
  check_missing_loop s idx = Ok 1 → check_undefined_loop s idx = Ok 1.
Proof.
  induction idx as [|i idx IH]; [ done | ].
  cbn [check_missing_loop check_undefined_loop].
  destruct (array_get (keys s) i) as [l| | |]; cbn [mbind result_bind]; [ | done .. ].
  destruct l as [|[n|] t]; [ done | exact IH | done ].
Qed.

(** X13.  A missing virtual key is also an undefined one: when
    [keys_check_missing] returns 1, so does [keys_check_undefined]. *)
Theorem missing_is_undefined (s : table) :
  keys_check_missing s = Ok 1 → keys_check_undefined s = Ok 1.
Proof. apply check_missing_undefined_loop. Qed.

Lemma fill_missing_loop_none (s : table) (idx : list Z) (assigned : Z) :
  check_missing_loop s idx = Ok 0 → fill_missing_loop idx assigned s = Ok (assigned, s).
Proof.
  induction idx as [|i idx IH]; [ done | ].
  cbn [check_missing_loop fill_missing_loop].
  destruct (array_get (keys s) i) as [l| | |]; cbn [mbind result_bind]; [ | done .. ].
  destruct l as [|j t]; [ done | exact IH ].
Qed.

(** X14.  When [keys_check_missing] returns 0, [keys_fill_missing] assigns
    nothing: it returns 0 and leaves the table as it is. *)
Theorem fill_missing_nothing (s : table) :
  keys_check_missing s = Ok 0 → keys_fill_missing s = Ok (0, s).
Proof. apply fill_missing_loop_none. Qed.

End Checks.

Lemma keys_check_missing_spec_witness :
  (keys_check_missing Ncurses.started = Ok 1 ∧
   ∃ v, is_vkey v ∧ missing Ncurses.started v) ∨
  (keys_check_missing Ncurses.started = Ok 0 ∧
   ∀ v, is_vkey v → ¬ missing Ncurses.started v).
Proof.
  apply (keys_check_missing_spec Ncurses.started).
  vm_compute. reflexivity.
Defined.

Lemma keys_check_undefined_spec_witness :
  let s := Ncurses.removed (chr "q") 4 Ncurses.filled in
  (keys_check_undefined s = Ok 1 ∧
   ∃ v, is_vkey v ∧ keys_action_count_keys v s = Ok 0) ∨
  (keys_check_undefined s = Ok 0 ∧
   ∀ v, is_vkey v → ∃ n, keys_action_count_keys v s = Ok n ∧ 1 ≤ n).
Proof.
  intros s. apply (keys_check_undefined_spec s).
  vm_compute. reflexivity.
Defined.

Lemma missing_is_undefined_witness :
  keys_check_undefined Ncurses.started = Ok 1.
Proof.
  apply (missing_is_undefined Ncurses.started).
  vm_compute. reflexivity.
Defined.

Lemma fill_missing_nothing_witness :
  keys_fill_missing Ncurses.filled = Ok (0, Ncurses.filled).
Proof.
  apply (fill_missing_nothing (H := Ncurses.ncurses) Ncurses.filled).
  vm_compute. reflexivity.
Defined.

(** ** The defaults *)

(** Every entry of [keydef] has a first default key. *)
Lemma keydef_has_default :
  Forall (λ d, sscanf_s (skip_spaces (binding d)) ≠ None) keydef.
Proof. apply (bool_decide_unpack _). vm_compute. exact I. Qed.

Section Fill.
Context `{Curses}.

(** A key code that is bound is refused. *)
Lemma assign_bound_refused (s : table) (k v a : Z) :
  0 ≤ k → keys_get_action s k = Ok a → a ≠ KEY_UNDEF →
  keys_assign_binding k v s = Ok (1, s).
Proof.
  intros Hk Hget Ha. unfold keys_assign_binding, keys_get_action in *.
  rewrite bool_decide_false in Hget by lia.
  case_bool_decide.
  - destruct (LLIST_FIND_FIRST (actions_ext s) k) as [[i e]|]; [ done | congruence ].
  - rewrite bool_decide_true by lia. rewrite Hget. cbn [mbind result_bind].
    by rewrite bool_decide_true.
Qed.

Lemma fill_missing_loop_skip (s : table) (pre rest : list Z) (assigned : Z) :
  Forall (λ j, ∃ l, keys s !! Z.to_nat j = Some l ∧ l ≠ [] ∧ 0 ≤ j) pre →
  fill_missing_loop (pre ++ rest) assigned s = fill_missing_loop rest assigned s.
Proof.
  induction pre as [|j pre IH]; intros Hpre; [ done | ].
  apply Forall_cons in Hpre as [(l & Hl & Hne & Hj) Hpre].
  cbn [app fill_missing_loop].
  assert (array_get (keys s) j = Ok l) as -> by (by apply array_get_Ok).
  cbn [mbind result_bind]. destruct l; [ done | by apply IH ].
Qed.

Lemma check_missing_loop_skip (s : table) (pre rest : list Z) :
  Forall (λ j, ∃ l, keys s !! Z.to_nat j = Some l ∧ l ≠ [] ∧ 0 ≤ j) pre →
  check_missing_loop s (pre ++ rest) = check_missing_loop s rest.
Proof.
  induction pre as [|j pre IH]; intros Hpre; [ done | ].
  apply Forall_cons in Hpre as [(l & Hl & Hne & Hj) Hpre].
  cbn [app check_missing_loop].
  assert (array_get (keys s) j = Ok l) as -> by (by apply array_get_Ok).
  cbn [mbind result_bind]. destruct l; [ done | by apply IH ].
Qed.

Lemma vkeys_split (i : Z) :
  is_vkey i → seqZ 0 NBVKEYS = seqZ 0 i ++ i :: seqZ (i + 1) (NBVKEYS - i - 1).
Proof.
  intros [Hi Hn].
  replace NBVKEYS with (i + (NBVKEYS - i)) at 1 by lia.
  rewrite seqZ_app by lia. f_equal.
  rewrite seqZ_cons by lia. repeat f_equal; lia.
Qed.

(** X15.  When the first missing virtual key [i] has a first default key
    that is already bound, [keys_fill_missing] returns [-i] and leaves the
    table as it is, so that [keys_check_missing] still returns 1; for
    [i = 0] the value returned is 0, as when nothing was missing. *)
Theorem fill_missing_conflict (s : table) (i k a : Z) (d : keydef_s) (w : string) :
  is_vkey i → missing s i →
  (∀ j, 0 ≤ j < i → ∃ l, keys s !! Z.to_nat j = Some l ∧ l ≠ []) →
  keydef !! Z.to_nat i = Some d →
  sscanf_s (skip_spaces (binding d)) = Some w →
  keys_str2int s (Some w) = Ok k → 0 ≤ k →
  keys_get_action s k = Ok a → a ≠ KEY_UNDEF →
  keys_fill_missing s = Ok (- i, s) ∧ keys_check_missing s = Ok 1.
Proof.
  intros Hi Hmiss Hpre Hd Hw Hk Hk0 Hget Ha.
  assert (Forall (λ j, ∃ l, keys s !! Z.to_nat j = Some l ∧ l ≠ [] ∧ 0 ≤ j) (seqZ 0 i))
    as Hskip.
  { apply Forall_forall. intros j Hj%elem_of_seqZ.
    destruct (Hpre j) as (l & Hl & Hne); [ lia | ]. exists l. split_and!; [ done | done | lia ]. }
  assert (array_get (keys s) i = Ok []) as Hlist
    by (apply array_get_Ok; unfold is_vkey in Hi; split; [ lia | done ]).
  unfold keys_fill_missing, keys_check_missing.
  rewrite (vkeys_split i Hi), fill_missing_loop_skip, check_missing_loop_skip by done.
  cbn [fill_missing_loop check_missing_loop]. rewrite Hlist. cbn [mbind result_bind].
  split; [ | done ].
  assert (array_get keydef i = Ok d) as ->
    by (apply array_get_Ok; unfold is_vkey in Hi; split; [ lia | done ]).
  cbn [mbind result_bind fill_action]. rewrite Hw, Hk. cbn [mbind result_bind].
  rewrite (assign_bound_refused s k i a Hk0 Hget Ha). cbn [mbind result_bind].
  by rewrite bool_decide_true.
Qed.

(** What a run of the inner loop of [keys_fill_missing] that reaches its
    [break] has done: the other lists are as before, and either nothing was
    read, or the list of [i] holds a key. *)
Lemma fill_action_inr (fuel : nat) :
  ∀ (i : Z) (p : string) (a : Z) (s : table) (a' : Z) (s' : table),
  is_vkey i → fill_action fuel i p a s = Ok (inr (a', s')) →
  (∀ j : nat, j ≠ Z.to_nat i → keys s' !! j = keys s !! j) ∧
  ((a' = a ∧ s' = s ∧ sscanf_s (skip_spaces p) = None) ∨
   (a' = 1 ∧ ∃ l, keys s' !! Z.to_nat i = Some l ∧ l ≠ [])).
Proof.
  induction fuel as [|fuel IH]; intros i p a s a' s' Hi Hfill; [ done | ].
  cbn [fill_action] in Hfill.
  destruct (sscanf_s (skip_spaces p)) as [w|] eqn:Hw.
  - apply bind_Ok in Hfill as (ch & Hch & Hfill).
    apply bind_Ok in Hfill as ([r s1] & Hassign & Hfill).
    case_bool_decide as Hr; [ done | ].
    assert (r = 0) as -> by (destruct (decide (r = 0)); [ done | by destruct Hr ]).
    destruct (assign_keys s s1 ch i Hi Hassign) as (l & name & Hl & _ & Hkeys & _).
    assert (keys s1 !! Z.to_nat i = Some (del_sentinel l ++ [name])) as Hl1.
    { rewrite Hkeys. apply list_lookup_insert_eq. by eapply lookup_lt_Some. }
    assert (∀ j : nat, j ≠ Z.to_nat i → keys s1 !! j = keys s !! j) as Hother.
    { intros j Hj. rewrite Hkeys. by apply list_lookup_insert_ne. }
    destruct (IH _ _ _ _ _ _ Hi Hfill) as (Hother' & Hend). split.
    + intros j Hj. by rewrite Hother', Hother.
    + right. destruct Hend as [(-> & -> & _)|Hend]; [ | done ].
      split; [ done | ]. eexists. split; [ done | ].
      by destruct (del_sentinel l).
  - injection Hfill as <- <-. split; [ done | ]. by left.
Qed.

Lemma length_filter_ext {A} (P Q : A → Prop) `{∀ x, Decision (P x)}
    `{∀ x, Decision (Q x)} (l : list A) :
  (∀ x, x ∈ l → (P x ↔ Q x)) → length (filter P l) = length (filter Q l).
Proof.
  induction l as [|x l IH]; intros Hext; [ done | ].
  assert (length (filter P l) = length (filter Q l)) as Hl
    by (apply IH; intros y Hy; apply Hext; by apply elem_of_cons; right).
  destruct (decide (P x)) as [HP|HP].
  - rewrite !filter_cons_True; [ simpl; by rewrite Hl | | done ].
    apply Hext; [ by apply elem_of_cons; left | done ].
  - rewrite !filter_cons_False; [ done | | done ].
    intros HQ. apply HP, Hext; [ by apply elem_of_cons; left | done ].
Qed.

Lemma fill_missing_loop_ok (idx : list Z) :
  ∀ (a : Z) (s : table) (n : Z) (s' : table),
  NoDup idx → Forall is_vkey idx → 0 ≤ a →
  fill_missing_loop idx a s = Ok (n, s') → 0 < n →
  n = a + Z.of_nat (length (filter (missing s) idx)) ∧
  (∀ j : nat, Z.of_nat j ∉ idx → keys s' !! j = keys s !! j) ∧
  (∀ v, v ∈ idx → ∃ l, keys s' !! Z.to_nat v = Some l ∧ l ≠ []).
Proof.
  induction idx as [|i idx IH]; intros a s n s' Hnodup Hvkeys Ha Hfill Hn.
  - injection Hfill as <- <-. split; [ simpl; lia | ]. split; [ done | ].
    by intros v ?%elem_of_nil.
  - apply NoDup_cons in Hnodup as [Hi Hnodup].
    apply Forall_cons in Hvkeys as [Hv Hvkeys].
    cbn [fill_missing_loop] in Hfill.
    apply bind_Ok in Hfill as (l & Hl & Hfill).
    apply array_get_Ok in Hl as [Hi0 Hl].
    assert (Z.of_nat (Z.to_nat i) = i) as Hnat by lia.
    destruct l as [|x l].
    + apply bind_Ok in Hfill as (d & Hd & Hfill).
      apply array_get_Ok in Hd as [_ Hd].
      apply bind_Ok in Hfill as (r & Hr & Hfill).
      destruct r as [s1|[assign s1]]; [ injection Hfill as <- <-; lia | ].
      destruct (fill_action_inr _ _ _ _ _ _ _ Hv Hr) as (Hother & Hend).
      destruct Hend as [(_ & _ & Hnone)|(-> & l1 & Hl1 & Hne1)].
      { exfalso. pose proof keydef_has_default as Hall.
        rewrite Forall_forall in Hall.
        by apply (Hall d (list_elem_of_lookup_2 _ _ _ Hd)). }
      destruct (IH (a + 1) s1 n s' Hnodup Hvkeys ltac:(lia) Hfill Hn) as (Hcount & Hkeep & Hfilled).
      assert (length (filter (missing s1) idx) = length (filter (missing s) idx)) as Hsame.
      { apply length_filter_ext. intros v Hin. unfold missing.
        rewrite Hother; [ done | ]. intros Heq.
        apply Hi. replace i with v; [ done | ].
        rewrite Forall_forall in Hvkeys. specialize (Hvkeys v Hin).
        unfold is_vkey in Hvkeys. lia. }
      split; [ | split ].
      * rewrite filter_cons_True by done. simpl length. lia.
      * intros j Hj. apply not_elem_of_cons in Hj as [Hji Hj].
        rewrite Hkeep by done. apply Hother. lia.
      * intros v [->|Hin]%elem_of_cons; [ | by apply Hfilled ].
        rewrite Hkeep by (by rewrite Hnat). by eauto.
    + destruct (IH _ _ _ _ Hnodup Hvkeys Ha Hfill Hn) as (Hcount & Hkeep & Hfilled).
      split; [ | split ].
      * rewrite filter_cons_False; [ done | ]. unfold missing. by rewrite Hl.
      * intros j Hj. apply not_elem_of_cons in Hj as [Hji Hj]. by apply Hkeep.
      * intros v [->|Hin]%elem_of_cons; [ | by apply Hfilled ].
        rewrite Hkeep by (by rewrite Hnat). by eauto.
Qed.

(** X16.  When [keys_fill_missing] returns a positive number, it is the
    number of virtual keys that were missing, and no virtual key is missing
    afterwards: [keys_check_missing] returns 0. *)
Theorem fill_missing_complete (s s' : table) (n : Z) :
  keys_fill_missing s = Ok (n, s') → 0 < n →
  n = Z.of_nat (length (filter (missing s) (seqZ 0 NBVKEYS))) ∧
  keys_check_missing s' = Ok 0.
Proof.
  intros Hfill Hn.
  destruct (fill_missing_loop_ok (seqZ 0 NBVKEYS) 0 s n s') as (Hcount & _ & Hfilled);
    [ apply NoDup_seqZ | | done | done | done | ].
  { apply Forall_forall. intros v. by rewrite vkey_seqZ. }
  split; [ lia | ].
  unfold keys_check_missing.
  assert (∀ idx, (∀ v, v ∈ idx → 0 ≤ v ∧ ∃ l, keys s' !! Z.to_nat v = Some l ∧ l ≠ []) →
            check_missing_loop s' idx = Ok 0) as Hloop.
  { induction idx as [|v idx IH]; intros Hall; [ done | ].
    destruct (Hall v) as (Hv & l & Hl & Hne); [ by apply elem_of_cons; left | ].
    cbn [check_missing_loop].
    assert (array_get (keys s') v = Ok l) as -> by (by apply array_get_Ok).
    cbn [mbind result_bind]. destruct l; [ done | ].
    apply IH. intros v' Hin. apply Hall. by apply elem_of_cons; right. }
  apply Hloop. intros v Hv. split; [ apply elem_of_seqZ in Hv; lia | by apply Hfilled ].
Qed.

End Fill.

Lemma fill_missing_conflict_witness :
  let s := Ncurses.assigned 27 1 Ncurses.started in
  keys_fill_missing s = Ok (0, s) ∧ keys_check_missing s = Ok 1.
Proof.
  intros s.
  apply (fill_missing_conflict (H := Ncurses.ncurses) s 0 27 1
           {| label := "generic-cancel"; binding := "ESC"; sb_label := "Cancel" |} "ESC").
  - vm_compute. split; congruence.
  - vm_compute. reflexivity.
  - intros j Hj. lia.
  - vm_compute. reflexivity.
  - vm_compute. reflexivity.
  - vm_compute. reflexivity.
  - lia.
  - vm_compute. reflexivity.
  - vm_compute. congruence.
Defined.

Lemma fill_missing_complete_witness :
  48 = Z.of_nat (length (filter (missing Ncurses.started) (seqZ 0 NBVKEYS))) ∧
  keys_check_missing Ncurses.filled = Ok 0.
Proof.
  apply (fill_missing_complete (H := Ncurses.ncurses) Ncurses.started Ncurses.filled 48).
  - vm_compute. reflexivity.
  - lia.
Defined.

(** ** Names and codes *)

Lemma lookup_keyname_found (kn : list string) (key : string) (idx : list Z) (i : Z) :
  lookup_keyname kn key idx = Ok (Some i) → i ∈ idx ∧ array_get kn i = Ok key.
Proof.
  induction idx as [|j idx IH]; [ done | ].
  cbn [lookup_keyname]. intros Hfind.
  apply bind_Ok in Hfind as (name & Hname & Hfind).
  case_bool_decide as Heq.
  - injection Hfind as <-. subst name. split; [ by apply elem_of_cons; left | done ].
  - destruct (IH Hfind) as [Hin Hget]. split; [ by apply elem_of_cons; right | done ].
Qed.

Lemma utf8_decode_nonneg (s : list Z) : 0 ≤ byte_at s 0 → 0 ≤ utf8_decode s.
Proof.
  intros Hb. unfold utf8_decode.
  repeat case_match;
    repeat first
      [ assumption
      | apply Z.lor_nonneg; split
      | apply Z.shiftl_nonneg
      | apply Z.land_nonneg; right; lia ].
Qed.

Lemma byte_at_string_nonneg (name : string) : 0 ≤ byte_at (bytes_of_string name) 0.
Proof.
  destruct name as [|a name]; [ done | ].
  unfold byte_at, bytes_of_string, byte_of_ascii. simpl. lia.
Qed.

Lemma read_continuation_lead (n : nat) :
  ∀ (buf win : list Z), buf ≠ [] →
  byte_at (read_continuation n buf win).1 0 = byte_at buf 0.
Proof.
  induction n as [|n IH]; intros buf win Hbuf; [ done | ].
  cbn [read_continuation]. destruct (wgetch win) as [ch win'].
  rewrite IH by (by destruct buf). by destruct buf.
Qed.

Section Names.
Context `{Curses}.

(** X17.  A name that [keys_str2int] finds in the table of cached names is
    the name [keys_int2str] gives to the code found: for a name other than
    the empty one and the three old spellings, if [keys_str2int] returns a
    code below [KEY_MAX], [keys_int2str] of that code is the name. *)
Theorem int2str_str2int (s : table) (name : string) (k : Z) :
  name ≠ EmptyString → name ≠ "^J" → name ≠ "KEY_HOME" → name ≠ "KEY_END" →
  keys_str2int s (Some name) = Ok k → k < KEY_MAX →
  keys_int2str s k = Ok (Some name).
Proof.
  intros Hne H1 H2 H3 Hstr Hk. unfold keys_str2int in Hstr.
  rewrite !bool_decide_false in Hstr by done.
  assert (∀ lo n i, 1 ≤ lo →
            lookup_keyname (keynames s) name (seqZ lo n) = Ok (Some i) →
            i < KEY_MAX → keys_int2str s i = Ok (Some name)) as Hfound.
  { intros lo n i Hlo Hfind Hi.
    apply lookup_keyname_found in Hfind as [Hin%elem_of_seqZ Hget].
    unfold keys_int2str.
    rewrite bool_decide_false by lia. rewrite bool_decide_true by done.
    rewrite Hget. cbn [mbind result_bind]. by rewrite bool_decide_false. }
  apply bind_Ok in Hstr as (r1 & Hr1 & Hstr).
  destruct r1 as [i|].
  - injection Hstr as <-. by apply (Hfound 1 127 i).
  - apply bind_Ok in Hstr as (r2 & Hr2 & Hstr).
    destruct r2 as [i|]; injection Hstr as <-.
    + apply (Hfound KEY_MIN (KEY_MAX - KEY_MIN) i); [ | done | done ].
      pose proof KEY_MIN_byte. lia.
    + pose proof (utf8_decode_nonneg _ (byte_at_string_nonneg name)). lia.
Qed.

(** X18.  A code that [keys_wgetch] returns below [KEY_MAX] is the unit
    that [wgetch] read: the code of a decoded multi-byte character is never
    below [KEY_MAX]. *)
Theorem keys_wgetch_raw_below_max (win win' : list Z) (ch : Z) :
  keys_wgetch win = (ch, win') → ch < KEY_MAX → wgetch win = (ch, win').
Proof.
  unfold keys_wgetch. destruct (wgetch win) as [c win1].
  repeat case_bool_decide; try (by intros [= <- <-]).
  destruct (read_continuation _ _ win1) as [buf win2] eqn:Hread.
  intros [= <- <-] Hlt. exfalso.
  assert (0 ≤ byte_at buf 0) as Hlead.
  { replace buf with (read_continuation (Z.to_nat (UTF8_LENGTH (c mod 256) - 1))
                        [c mod 256] win1).1 by (by rewrite Hread).
    rewrite read_continuation_lead by done.
    unfold byte_at. simpl. apply Z.mod_pos_bound. lia. }
  pose proof (utf8_decode_nonneg buf Hlead). lia.
Qed.

End Names.

Lemma int2str_str2int_witness :
  keys_int2str Ncurses.started 10 = Ok (Some "RET").
Proof.
  apply (int2str_str2int (H := Ncurses.ncurses) Ncurses.started "RET" 10);
    try discriminate.
  - vm_compute. reflexivity.
  - vm_compute. reflexivity.
Defined.

Lemma keys_wgetch_raw_below_max_witness :
  wgetch [chr "a"; chr "b"] = (chr "a", [chr "b"]).
Proof.
  apply (keys_wgetch_raw_below_max (H := Ncurses.ncurses)).
  - vm_compute. reflexivity.
  - vm_compute. reflexivity.
Defined.

(** ** What [keys_get_action] answers *)

Section Range.
Context `{Curses}.

(** Every entry of the reverse map of a reachable table is [KEY_UNDEF] or a
    virtual key. *)
Lemma reachable_actions (s : table) :
  reachable s → Forall (λ a, a = KEY_UNDEF ∨ is_vkey a) (actions s).
Proof.
  induction 1 as [s Hinit|s k v r s' Hreach IH Hcan Hv Hassign
                  |s k v s' Hreach IH Hk Hbound Hremove].
  - apply keys_init_fields in Hinit as (_ & -> & _).
    apply Forall_replicate. by left.
  - destruct (assign_result s s' k v r Hassign) as [->|[_ ->]]; [ | done ].
    destruct (assign_inv s s' k v (canonical_nonneg s k Hcan) Hv Hassign)
      as (_ & _ & _ & _ & _ & _ & _ & _ & [(_ & -> & _)|(_ & -> & _)]); [ | done ].
    apply Forall_insert; [ done | by right ].
  - destruct (remove_effect s k v (reachable_consistent s Hreach) Hk Hbound)
      as (_ & _ & _ & s'' & _ & _ & _ & _ & _ & _ & Hremove' & _ & _ & _ & _ & _
          & [(_ & Hact & _)|(_ & Hact & _)]);
      assert (s'' = s') as -> by congruence; rewrite Hact; [ | done ].
    apply Forall_insert; [ done | by left ].
Qed.

(** X19.  On a reachable table [keys_get_action] answers for every key
    code but [KEY_MAX]: -1 for a negative code, and otherwise [KEY_UNDEF]
    or a virtual key. *)
Theorem keys_get_action_range (s : table) (k : Z) :
  reachable s → k ≠ KEY_MAX →
  ∃ a, keys_get_action s k = Ok a ∧
    ((k < 0 ∧ a = -1) ∨ (0 ≤ k ∧ (a = KEY_UNDEF ∨ is_vkey a))).
Proof.
  intros Hreach Hk. unfold keys_get_action.
  case_bool_decide as Hneg; [ exists (-1); split; [ done | by left ] | ].
  case_bool_decide as Hext.
  - destruct (LLIST_FIND_FIRST (actions_ext s) k) as [[i e]|] eqn:Hfind.
    + exists (action e). split; [ done | ]. right. split; [ lia | right ].
      apply list_find_Some in Hfind as (Hi & _ & _).
      pose proof (cons_ext_vkey s (reachable_consistent s Hreach)) as Hall.
      rewrite Forall_forall in Hall.
      exact (Hall e (list_elem_of_lookup_2 _ _ _ Hi)).
    + exists KEY_UNDEF. split; [ done | ]. right. split; [ lia | by left ].
  - destruct (reachable_shape s Hreach) as (_ & Hlen & _).
    destruct (lookup_lt_is_Some_2 (actions s) (Z.to_nat k)) as [a Ha]; [ lia | ].
    exists a. split; [ apply array_get_Ok; split; [ lia | done ] | ].
    right. split; [ lia | ].
    pose proof (reachable_actions s Hreach) as Hall.
    rewrite Forall_forall in Hall.
    exact (Hall a (list_elem_of_lookup_2 _ _ _ Ha)).
Qed.

(** X20.  [add_key_str] lets the action [NBVKEYS] through: with one
    forward list per virtual key, [keys_assign_binding] of a free key code
    to the action [NBVKEYS] indexes [keys[]] one past its end, and to a
    larger action it returns 0 with the code bound to that action and no
    list changed. *)
Theorem assign_action_out_of_range (s : table) (k v : Z) :
  0 ≤ k < KEY_MAX → actions s !! Z.to_nat k = Some KEY_UNDEF →
  length (keys s) = Z.to_nat NBVKEYS →
  (v = NBVKEYS → keys_assign_binding k v s = Fault) ∧
  (NBVKEYS < v →
   ∃ s', keys_assign_binding k v s = Ok (0, s') ∧ keys s' = keys s ∧
     keys_get_action s' k = Ok v).
Proof.
  intros Hk Hfree Hlen.
  assert (array_get (actions s) k = Ok KEY_UNDEF) as Hget
    by (apply array_get_Ok; split; [ lia | done ]).
  assert (array_set (actions s) k v = Ok (<[Z.to_nat k := v]> (actions s))) as Hset.
  { apply array_set_Ok. split; [ | done ].
    apply lookup_lt_Some in Hfree. lia. }
  unfold keys_assign_binding.
  rewrite bool_decide_false, bool_decide_true by lia.
  rewrite Hget. cbn [mbind result_bind].
  rewrite bool_decide_false by (intros Hne; by apply Hne).
  rewrite Hset. cbn [mbind result_bind]. unfold add_key_str. split.
  - intros ->. rewrite bool_decide_false by lia.
    unfold del_if_undefined. rewrite array_get_outside; [ done | ].
    cbn [keys set_actions]. rewrite Hlen. unfold NBVKEYS. lia.
  - intros Hv. rewrite bool_decide_true by lia. cbn [mbind result_bind].
    eexists. split; [ done | ]. split; [ done | ].
    unfold keys_get_action. rewrite !bool_decide_false by lia.
    apply array_get_Ok. split; [ lia | ]. simpl.
    apply list_lookup_insert_eq. apply lookup_lt_Some in Hfree. done.
Qed.

End Range.

Lemma keys_get_action_range_witness :
  let s := Ncurses.assigned (chr "q") 4 Ncurses.started in
  ∃ a, keys_get_action s (chr "q") = Ok a ∧
    ((chr "q" < 0 ∧ a = -1) ∨ (0 ≤ chr "q" ∧ (a = 49 ∨ is_vkey a))).
Proof.
  intros s.
  apply (keys_get_action_range (H := Ncurses.ncurses) s (chr "q")).
  - apply bound_q_reachable.
  - vm_compute. congruence.
Defined.

Lemma assign_action_out_of_range_witness :
  keys_assign_binding (chr "q") 48 Ncurses.started = Fault ∧
  ∃ s', keys_assign_binding (chr "q") 50 Ncurses.started = Ok (0, s') ∧
    keys s' = keys Ncurses.started ∧ keys_get_action s' (chr "q") = Ok 50.
Proof.
  split.
  - apply (assign_action_out_of_range (H := Ncurses.ncurses) Ncurses.started (chr "q") 48).
    + vm_compute. split; congruence.
    + vm_compute. reflexivity.
    + vm_compute. reflexivity.
    + reflexivity.
  - apply (assign_action_out_of_range (H := Ncurses.ncurses) Ncurses.started (chr "q") 50).
    + vm_compute. split; congruence.
    + vm_compute. reflexivity.
    + vm_compute. reflexivity.
    + vm_compute. reflexivity.
Defined.
